(** * wasm-ripple, pure TypeScript implementation: ring buffer and message queue

    A shallow embedding of the classes [RingBuffer] and [MessageQueue] of the
    TypeScript implementation, and the properties of its specification.

    Conventions of the embedding.
    - JavaScript numbers that the code only ever uses as array indices and
      counters ([capacity], [size], [front], [rear], topic ids, subscription
      ids) are [nat]; timestamps are [Z].
    - An array is a [list]; [arr[i]] is stdpp's lookup [arr !! i] and
      [arr[i] = v] is [array_set], which extends the array when [i] is past
      its end, as JavaScript does.
    - [Map<string, number>] is a [gmap string nat], [Set<string>] a
      [gset string]; the subscriber table, a [Map] whose iteration order the
      dispatcher depends on, is an insertion-ordered association list.
    - Every method takes the object's state and returns the new state next to
      its result; what a method does to the outside world (calling a
      subscriber, [console.error], [postMessage], closing the channel) is
      returned as a list of events.
    - A method returns or throws. Besides the errors the class raises itself
      and those of the subscribers' callbacks, the platform's are modelled
      where the class meets them: [new Array(capacity)] throws when the
      capacity is not the length of an array, and [postMessage] throws when
      the payload has no structured clone. The event of a [postMessage]
      records the call, whether the channel then takes the message or
      rejects it. *)

From stdpp Require Import gmap strings list sorting.

Set Default Proof Using "Type".

(** ** JavaScript arrays *)

(** [arr[i] = v]: in range the slot is overwritten; past the end the array
    grows and the slots in between are holes, which read as [hole]. *)
Definition array_set {A} (hole : A) (i : nat) (v : A) (arr : list A) : list A :=
  if decide (i < length arr) then <[i:=v]> arr
  else arr ++ replicate (i - length arr) hole ++ [v].

(** [new Array(n)] throws [RangeError: Invalid array length] unless [n] is
    below [2 ** 32]. *)
Definition array_length_ok (n : nat) : bool :=
  bool_decide (Z.of_nat n < 2 ^ 32)%Z.

(** ** RingBuffer *)

Module RingBuffer.
Section ring.
Context {T : Type}.

(** [buffer: (T | null)[]]: a slot is [None] for [null]. A read past the
    end of the array ([undefined]) is read as [None] as well; the class
    reduces every index modulo [capacity], the length of the array, so
    such a read does not happen (lemma [reachable_rep] below). *)
Record t := mk {
  buffer : list (option T);
  capacity : nat;
  size : nat;
  front : nat;
  rear : nat
}.

Definition read (arr : list (option T)) (i : nat) : option T :=
  mjoin (arr !! i).

(** [constructor(capacity)] *)
Definition new (capacity : nat) : t :=
  mk (replicate capacity None) capacity 0 0 0.

Definition isEmpty (b : t) : bool := size b =? 0.
Definition isFull (b : t) : bool := size b =? capacity b.
Definition len (b : t) : nat := size b.
Definition getCapacity (b : t) : nat := capacity b.

(** [push(item)]: the displaced item (or [None] for [null]) and the new
    state. *)
Definition push (item : T) (b : t) : option T * t :=
  if capacity b =? 0 then (Some item, b)
  else
    let '(displaced, buffer1, front1) :=
      if isFull b
      then (read (buffer b) (front b),
            array_set None (front b) None (buffer b),
            (front b + 1) mod capacity b)
      else (None, buffer b, front b) in
    let buffer2 := array_set None (rear b) (Some item) buffer1 in
    let rear2 := (rear b + 1) mod capacity b in
    let size2 := if displaced is None then size b + 1 else size b in
    (displaced, mk buffer2 (capacity b) size2 front1 rear2).

(** [pop()] *)
Definition pop (b : t) : option T * t :=
  if isEmpty b then (None, b)
  else
    let item := read (buffer b) (front b) in
    (item, mk (array_set None (front b) None (buffer b)) (capacity b)
              (size b - 1) ((front b + 1) mod capacity b) (rear b)).

(** [peek()] *)
Definition peek (b : t) : option T :=
  if isEmpty b then None else read (buffer b) (front b).

(** [clear()]: the number of items removed and the emptied buffer. *)
Definition clear (b : t) : nat * t :=
  (size b, mk (replicate (length (buffer b)) None) (capacity b) 0 0 0).

(** The loop of [getAll]: [n] iterations are left, [idx] is the slot to
    read next and [result] the items collected so far. *)
Fixpoint getAll_loop (arr : list (option T)) (cap n idx : nat)
    (result : list T) : list T :=
  match n with
  | 0 => result
  | S n' =>
      let result' :=
        if read arr idx is Some item then result ++ [item] else result in
      getAll_loop arr cap n' ((idx + 1) mod cap) result'
  end.

(** [getAll()] *)
Definition getAll (b : t) : list T :=
  if isEmpty b then []
  else getAll_loop (buffer b) (capacity b) (size b) (front b) [].

(** [items] are pushed one after the other, first item first. *)
Definition push_all (items : list T) (b : t) : t :=
  foldl (λ b item, (push item b).2) b items.

(** The last [n] elements of a list. *)
Definition last_n (n : nat) (l : list T) : list T :=
  drop (length l - n) l.

(** The representation invariant: the buffer [b] holds the items [l],
    oldest first, in the slots [front], [front + 1], ... (modulo
    [capacity]). *)
Record rep (b : t) (l : list T) : Prop := {
  rep_length : length (buffer b) = capacity b;
  rep_size : size b = length l;
  rep_bound : length l ≤ capacity b;
  rep_front : 0 < capacity b → front b < capacity b;
  rep_rear : rear b = (front b + size b) mod capacity b;
  rep_slot : ∀ i x, l !! i = Some x →
    buffer b !! ((front b + i) mod capacity b) = Some (Some x)
}.
End ring.
Arguments t : clear implicits.
End RingBuffer.

(** ** Map: a table that iterates in insertion order *)

(** The subscriber table is a [Map<number, SubscriberCallback>]: [set] on a
    new key appends the entry, [set] on a present key replaces the value in
    place, [delete] tells whether the key was present, and [values()]
    iterates in insertion order. *)
Module JsMap.
Abbreviation t V := (list (nat * V)).

Section jsmap.
Context {V : Type}.

Definition has (k : nat) (m : t V) : bool := bool_decide (k ∈ m.*1).

Definition set (k : nat) (v : V) (m : t V) : t V :=
  if has k m
  then (λ e, if decide (e.1 = k) then (k, v) else e) <$> m
  else m ++ [(k, v)].

Definition delete (k : nat) (m : t V) : bool * t V :=
  (has k m, filter (λ e, e.1 ≠ k) m).

Definition clear (m : t V) : t V := [].
Definition values (m : t V) : list V := m.*2.
Definition keys (m : t V) : list nat := m.*1.
Definition size (m : t V) : nat := length m.
End jsmap.
End JsMap.

(** ** Messages *)

Module Message.
Record t {Payload : Type} := mk {
  id : string;
  topic_id : nat;
  origin_id : string;
  payload : Payload;
  timestamp : Z
}.
Arguments t : clear implicits.
Arguments mk {Payload}.
End Message.

(** The object sent over the channel, [{...msg, topic_name}]: the fields of
    the message and the topic's name. *)
Module WireMsg.
Record t {Payload : Type} := mk {
  msg : Message.t Payload;
  topic_name : string
}.
Arguments t : clear implicits.
Arguments mk {Payload}.
End WireMsg.

Module TopicState.
Record t {Payload Callback : Type} := mk {
  id : nat;
  name : string;
  subscribers : JsMap.t Callback;
  buffer : option (RingBuffer.t (Message.t Payload));
  nextSubId : nat
}.
Arguments t : clear implicits.
Arguments mk {Payload Callback}.
End TopicState.

(** ** Structured clone *)

(** [postMessage] sends a structured clone of its argument and throws
    [DataCloneError] when there is none: [unclonable] tells the payloads
    the platform cannot clone (a function, a symbol, an object that holds
    one). The other fields of a message are strings and numbers, which it
    can. *)
Class StructuredClone (Payload : Type) := unclonable : Payload → bool.

(** ** MessageQueue *)

Module MessageQueue.
Section queue.
Context {Payload Callback : Type} `{!StructuredClone Payload}.

(** Whether a subscriber callback raises on the arguments it is called with.
    A callback has no access to the queue: it does not subscribe, unsubscribe
    or publish while a dispatch is under way. *)
Variable raises : Callback → Payload → nat → Z → string → bool.

Abbreviation Message := (Message.t Payload).
Abbreviation WireMsg := (WireMsg.t Payload).
Abbreviation TopicState := (TopicState.t Payload Callback).

(** [channel] is the handle of the [BroadcastChannel], identified with the
    channel's name, or [None] for [null]. *)
Record t := mk {
  topics : list TopicState;
  topicIndex : gmap string nat;
  channel : option string;
  clientId : string;
  seenIds : gset string;
  isClosed : bool
}.

(** What a method throws: [new Error(`Topic ID ${topicId} not found`)],
    whatever a subscriber callback raised, the [RangeError] of
    [new Array(length)], or the [DataCloneError] of [postMessage]. *)
Inductive Error :=
  | TopicNotFound (topicId : nat)
  | CallbackError (callback : Callback)
  | InvalidArrayLength (length : nat)
  | DataCloneError.

Inductive Outcome (A : Type) :=
  | Return (a : A)
  | Throw (e : Error).
Arguments Return {A}.
Arguments Throw {A}.

(** What a method does to the world outside the queue. *)
Inductive Event :=
  | Invoke (callback : Callback) (payload : Payload) (topicId : nat)
      (timestamp : Z) (messageId : string)
  | ConsoleError (e : Error)
  | PostMessage (type : Z) (wireMsg : WireMsg)
  | ChannelClose (name : string).

(** [event.data] of a message received from the channel: a two-element
    array [[type, payload]] as [broadcast] posts them, whose second element
    is a wire message, or anything that is not an array. *)
Inductive ChannelData :=
  | NotArray
  | Data (type : Z) (payload : WireMsg).

(** A method: from the state to its outcome, the new state and the events
    it caused, in order. *)
Definition M (A : Type) : Type := t → Outcome A * t * list Event.

Definition ret {A} (a : A) : M A := λ mq, (Return a, mq, []).

Definition bind {A B} (m : M A) (f : A → M B) : M B := λ mq,
  match m mq with
  | (Return a, mq1, ev1) =>
      let '(r, mq2, ev2) := f a mq1 in (r, mq2, ev1 ++ ev2)
  | (Throw e, mq1, ev1) => (Throw e, mq1, ev1)
  end.

Definition throw {A} (e : Error) : M A := λ mq, (Throw e, mq, []).
Definition emit (ev : Event) : M unit := λ mq, (Return (), mq, [ev]).
Definition get : M t := λ mq, (Return mq, mq, []).
Definition modify (f : t → t) : M unit := λ mq, (Return (), f mq, []).

(** [try { m } catch (e) { handler(e) }] *)
Definition try_catch {A} (m : M A) (handler : Error → M A) : M A := λ mq,
  match m mq with
  | (Throw e, mq1, ev1) =>
      let '(r, mq2, ev2) := handler e mq1 in (r, mq2, ev1 ++ ev2)
  | r => r
  end.

Notation "'let*' x := m 'in' f" := (bind m (λ x, f))
  (at level 10, x name, m at level 100, f at level 200).
Notation "m ;;; f" := (bind m (λ _, f))
  (at level 100, f at level 200, right associativity).

(** [for (const x of l) { body(x) }] *)
Fixpoint for_of {A} (l : list A) (body : A → M unit) : M unit :=
  match l with
  | [] => ret ()
  | x :: l' => body x ;;; for_of l' body
  end.

Definition outcome {A} (r : Outcome A * t * list Event) : Outcome A := r.1.1.
Definition state {A} (r : Outcome A * t * list Event) : t := r.1.2.
Definition events {A} (r : Outcome A * t * list Event) : list Event := r.2.

(** *** Field updates *)

Definition with_topics (ts : list TopicState) (mq : t) : t :=
  mk ts (topicIndex mq) (channel mq) (clientId mq) (seenIds mq) (isClosed mq).
Definition with_topicIndex (ix : gmap string nat) (mq : t) : t :=
  mk (topics mq) ix (channel mq) (clientId mq) (seenIds mq) (isClosed mq).
Definition with_seenIds (seen : gset string) (mq : t) : t :=
  mk (topics mq) (topicIndex mq) (channel mq) (clientId mq) seen (isClosed mq).

Definition with_subscribers (subs : JsMap.t Callback) (topic : TopicState)
    : TopicState :=
  TopicState.mk (TopicState.id topic) (TopicState.name topic) subs
    (TopicState.buffer topic) (TopicState.nextSubId topic).
Definition with_buffer (buf : option (RingBuffer.t Message))
    (topic : TopicState) : TopicState :=
  TopicState.mk (TopicState.id topic) (TopicState.name topic)
    (TopicState.subscribers topic) buf (TopicState.nextSubId topic).
Definition with_nextSubId (n : nat) (topic : TopicState) : TopicState :=
  TopicState.mk (TopicState.id topic) (TopicState.name topic)
    (TopicState.subscribers topic) (TopicState.buffer topic) n.

(** A method changes the topic object in slot [topicId] in place. *)
Definition update_topic (topicId : nat) (f : TopicState → TopicState)
    (mq : t) : t :=
  with_topics (alter f topicId (topics mq)) mq.

(** *** The class *)

(** [constructor(channelName?)]: [uuid] is what [generateUUID()] returns
    and [hasBroadcastChannel] tells whether the platform defines
    [BroadcastChannel]; the empty string is falsy. *)
Definition new (uuid : string) (hasBroadcastChannel : bool)
    (channelName : option string) : t :=
  let channel :=
    match channelName with
    | Some name =>
        if bool_decide (name ≠ EmptyString) && hasBroadcastChannel
        then Some name else None
    | None => None
    end in
  mk [] ∅ channel uuid ∅ false.

(** [getTopic(id)]: [this.topics[id]], [None] for [undefined]. *)
Definition getTopic (id : nat) (mq : t) : option TopicState :=
  topics mq !! id.

Definition registerTopic (name : string) : M nat := λ mq,
  match topicIndex mq !! name with
  | Some id => (Return id, mq, [])
  | None =>
      let id := length (topics mq) in
      let topicState := TopicState.mk id name [] None 0 in
      (Return id,
       with_topicIndex (<[name:=id]> (topicIndex mq))
         (with_topics (topics mq ++ [topicState]) mq),
       [])
  end.

Definition subscribe (topicId : nat) (callback : Callback) : M nat := λ mq,
  match getTopic topicId mq with
  | None => throw (TopicNotFound topicId) mq
  | Some topic =>
      let subId := TopicState.nextSubId topic in
      (Return subId,
       update_topic topicId
         (λ topic, with_subscribers
            (JsMap.set subId callback (TopicState.subscribers topic))
            (with_nextSubId (subId + 1) topic)) mq,
       [])
  end.

Definition unsubscribe (topicId subId : nat) : M bool := λ mq,
  match getTopic topicId mq with
  | None => ret false mq
  | Some topic =>
      let '(found, subs) := JsMap.delete subId (TopicState.subscribers topic) in
      (Return found, update_topic topicId (with_subscribers subs) mq, [])
  end.

Definition unsubscribeAll (topicId : nat) : M nat := λ mq,
  match getTopic topicId mq with
  | None => ret 0 mq
  | Some topic =>
      let count := JsMap.size (TopicState.subscribers topic) in
      (Return count,
       update_topic topicId
         (λ topic, with_subscribers (JsMap.clear (TopicState.subscribers topic)) topic)
         mq,
       [])
  end.

(** [createMessage]: [uuid] is what [generateUUID()] returns and [now]
    what [Date.now()] returns. *)
Definition createMessage (uuid : string) (now : Z) (topicId : nat)
    (payload : Payload) (mq : t) : Message :=
  Message.mk uuid topicId (clientId mq) payload now.

(** [callback(msg.payload, msg.topic_id, msg.timestamp, msg.id)] *)
Definition call (callback : Callback) (msg : Message) : M unit :=
  emit (Invoke callback (Message.payload msg) (Message.topic_id msg)
          (Message.timestamp msg) (Message.id msg)) ;;;
  if raises callback (Message.payload msg) (Message.topic_id msg)
       (Message.timestamp msg) (Message.id msg)
  then throw (CallbackError callback)
  else ret ().

Definition dispatchLocal (msg : Message) : M unit :=
  let* mq := get in
  if isClosed mq then ret ()
  else
    modify (λ mq, with_seenIds ({[Message.id msg]} ∪ seenIds mq) mq) ;;;
    match getTopic (Message.topic_id msg) mq with
    | Some topic =>
        match TopicState.buffer topic with
        | Some buffer =>
            modify (update_topic (Message.topic_id msg)
              (with_buffer (Some (RingBuffer.push msg buffer).2)))
        | None => ret ()
        end ;;;
        for_of (JsMap.values (TopicState.subscribers topic)) (λ callback,
          try_catch (call callback msg)
            (λ e, emit (ConsoleError e)))
    | None => ret ()
    end.

Definition broadcast (msg : Message) : M unit :=
  let* mq := get in
  match channel mq with
  | Some _ =>
      if negb (isClosed mq) then
        match getTopic (Message.topic_id msg) mq with
        | None => ret ()
        | Some topic =>
            emit (PostMessage 0 (WireMsg.mk msg (TopicState.name topic))) ;;;
            if unclonable (Message.payload msg)
            then throw DataCloneError
            else ret ()
        end
      else ret ()
  | None => ret ()
  end.

Definition publish (uuid : string) (now : Z) (topicId : nat)
    (payload : Payload) : M unit :=
  let* mq := get in
  let msg := createMessage uuid now topicId payload mq in
  dispatchLocal msg ;;;
  broadcast msg.

(** [publishBatchById]: every payload comes with the identifier and the
    clock reading that its [publish] draws. *)
Definition publishBatchById (topicId : nat)
    (payloads : list (string * Z * Payload)) : M unit :=
  for_of payloads (λ '(uuid, now, payload),
    publish uuid now topicId payload).

(** The local message that [handleChannelMessage] reconstructs from the
    received one: the topic id is the one resolved locally. *)
Definition local_message (wire : Message) (topicId : nat) : Message :=
  Message.mk (Message.id wire) topicId (Message.origin_id wire)
    (Message.payload wire) (Message.timestamp wire).

Definition handleChannelMessage (data : ChannelData) : M unit :=
  let* mq := get in
  if isClosed mq then ret ()
  else
    match data with
    | NotArray => ret ()
    | Data type wireMsg =>
        if bool_decide (type = 0%Z) then
          let wire := WireMsg.msg wireMsg in
          if bool_decide (Message.id wire ∈ seenIds mq) then ret ()
          else
            modify (λ mq, with_seenIds ({[Message.id wire]} ∪ seenIds mq) mq) ;;;
            if bool_decide (Message.origin_id wire = clientId mq) then ret ()
            else
              let* topicId := registerTopic (WireMsg.topic_name wireMsg) in
              dispatchLocal (local_message wire topicId)
        else ret ()
    end.

(** *** Buffer management *)

(** [enableTopicBuffer(topicId, capacity = 100)]: [None] is a call without
    the second argument. The constructor of [RingBuffer] starts with
    [new Array(capacity)], which throws before the topic is touched. *)
Definition enableTopicBuffer (topicId : nat) (capacity : option nat)
    : M unit := λ mq,
  let capacity := default 100 capacity in
  match getTopic topicId mq with
  | Some _ =>
      if array_length_ok capacity then
        modify (update_topic topicId
          (with_buffer (Some (RingBuffer.new capacity)))) mq
      else throw (InvalidArrayLength capacity) mq
  | None => ret () mq
  end.

Definition disableTopicBuffer (topicId : nat) : M unit := λ mq,
  match getTopic topicId mq with
  | Some _ => modify (update_topic topicId (with_buffer None)) mq
  | None => ret () mq
  end.

Definition clearBuffer (topicId : nat) : M nat := λ mq,
  match getTopic topicId mq with
  | Some topic =>
      match TopicState.buffer topic with
      | Some buffer =>
          let '(count, buffer') := RingBuffer.clear buffer in
          (Return count,
           update_topic topicId (with_buffer (Some buffer')) mq, [])
      | None => ret 0 mq
      end
  | None => ret 0 mq
  end.

Definition getBufferedMessages (topicId : nat) (mq : t) : list Payload :=
  match getTopic topicId mq with
  | Some topic =>
      match TopicState.buffer topic with
      | Some buffer => Message.payload <$> RingBuffer.getAll buffer
      | None => []
      end
  | None => []
  end.

Definition getBufferSize (topicId : nat) (mq : t) : nat :=
  match getTopic topicId mq with
  | Some topic =>
      match TopicState.buffer topic with
      | Some buffer => RingBuffer.len buffer
      | None => 0
      end
  | None => 0
  end.

Definition getBufferCapacity (topicId : nat) (mq : t) : nat :=
  match getTopic topicId mq with
  | Some topic =>
      match TopicState.buffer topic with
      | Some buffer => RingBuffer.getCapacity buffer
      | None => 0
      end
  | None => 0
  end.

Definition hasBuffer (topicId : nat) (mq : t) : bool :=
  match getTopic topicId mq with
  | Some topic => bool_decide (is_Some (TopicState.buffer topic))
  | None => false
  end.

Definition subscriberCount (topicId : nat) (mq : t) : nat :=
  match getTopic topicId mq with
  | Some topic => JsMap.size (TopicState.subscribers topic)
  | None => 0
  end.

Definition destroyTopic (topicId : nat) : M bool := λ mq,
  match getTopic topicId mq with
  | None => ret false mq
  | Some _ =>
      (Return true,
       update_topic topicId
         (λ topic, with_buffer None
            (with_subscribers (JsMap.clear (TopicState.subscribers topic)) topic))
         mq,
       [])
  end.

(** The topic objects as the [forEach] of [close] leaves them, before the
    array that holds them is dropped. *)
Definition close_topic (topic : TopicState) : TopicState :=
  with_buffer
    (match TopicState.buffer topic with
     | Some buffer => Some (RingBuffer.clear buffer).2
     | None => None
     end)
    (with_subscribers (JsMap.clear (TopicState.subscribers topic)) topic).

Definition close : M unit := λ mq,
  let closing :=
    match channel mq with
    | Some name => [ChannelClose name]
    | None => []
    end in
  let cleared := close_topic <$> topics mq in
  let mq1 := mk cleared (topicIndex mq) None (clientId mq) (seenIds mq) true in
  (Return (), mk [] ∅ (channel mq1) (clientId mq1) ∅ (isClosed mq1), closing).

(** *** Sequences of calls *)

(** The calls a client makes on a queue, and the arrival of a message from
    the channel. *)
Inductive Call :=
  | CallRegisterTopic (name : string)
  | CallSubscribe (topicId : nat) (callback : Callback)
  | CallUnsubscribe (topicId subId : nat)
  | CallUnsubscribeAll (topicId : nat)
  | CallPublish (uuid : string) (now : Z) (topicId : nat) (payload : Payload)
  | CallPublishBatchById (topicId : nat) (payloads : list (string * Z * Payload))
  | CallEnableTopicBuffer (topicId : nat) (capacity : option nat)
  | CallDisableTopicBuffer (topicId : nat)
  | CallClearBuffer (topicId : nat)
  | CallDestroyTopic (topicId : nat)
  | CallClose
  | Receive (data : ChannelData).

Definition effect {A} (r : Outcome A * t * list Event) : t * list Event :=
  (state r, events r).

(** The state after a call and the events of the call; the caller keeps the
    queue when a call throws. *)
Definition perform (c : Call) (mq : t) : t * list Event :=
  match c with
  | CallRegisterTopic name => effect (registerTopic name mq)
  | CallSubscribe topicId callback => effect (subscribe topicId callback mq)
  | CallUnsubscribe topicId subId => effect (unsubscribe topicId subId mq)
  | CallUnsubscribeAll topicId => effect (unsubscribeAll topicId mq)
  | CallPublish uuid now topicId payload =>
      effect (publish uuid now topicId payload mq)
  | CallPublishBatchById topicId payloads =>
      effect (publishBatchById topicId payloads mq)
  | CallEnableTopicBuffer topicId capacity =>
      effect (enableTopicBuffer topicId capacity mq)
  | CallDisableTopicBuffer topicId => effect (disableTopicBuffer topicId mq)
  | CallClearBuffer topicId => effect (clearBuffer topicId mq)
  | CallDestroyTopic topicId => effect (destroyTopic topicId mq)
  | CallClose => effect (close mq)
  | Receive data => effect (handleChannelMessage data mq)
  end.

Fixpoint run (calls : list Call) (mq : t) : t * list Event :=
  match calls with
  | [] => (mq, [])
  | c :: calls' =>
      let '(mq1, ev1) := perform c mq in
      let '(mq2, ev2) := run calls' mq1 in
      (mq2, ev1 ++ ev2)
  end.

(** The states a queue can be in: those a sequence of calls leads to from a
    newly constructed queue. *)
Definition reachable (mq : t) : Prop :=
  ∃ uuid hasBroadcastChannel channelName calls,
    mq = (run calls (new uuid hasBroadcastChannel channelName)).1.

Definition is_close (c : Call) : bool :=
  match c with CallClose => true | _ => false end.

Definition is_publish_or_subscribe (c : Call) : bool :=
  match c with
  | CallPublish _ _ _ _ | CallSubscribe _ _ => true
  | _ => false
  end.

(** [names] are registered one after the other; the ids returned, in order,
    and the final state. *)
Fixpoint register_all (names : list string) (mq : t) : list nat * t :=
  match names with
  | [] => ([], mq)
  | name :: names' =>
      match registerTopic name mq with
      | (Return id, mq1, _) =>
          let '(ids, mq2) := register_all names' mq1 in (id :: ids, mq2)
      | (Throw _, mq1, _) => ([], mq1)
      end
  end.

(** *** What the properties speak of *)

Definition is_invoke (ev : Event) : bool :=
  match ev with Invoke _ _ _ _ _ => true | _ => false end.

Definition is_post (ev : Event) : bool :=
  match ev with PostMessage _ _ => true | _ => false end.

(** The calls of subscriber callbacks among the events, in order. *)
Definition invocations (evs : list Event) : list Event :=
  filter (λ ev, is_invoke ev) evs.

(** The call of [callback] with the four arguments taken from [msg]. *)
Definition invoke_with (msg : Message) (callback : Callback) : Event :=
  Invoke callback (Message.payload msg) (Message.topic_id msg)
    (Message.timestamp msg) (Message.id msg).

(** What the dispatch loop does for one callback: the call and, when the
    callback raises, the report of its error on the console. *)
Definition notification (msg : Message) (callback : Callback) : list Event :=
  invoke_with msg callback ::
  if raises callback (Message.payload msg) (Message.topic_id msg)
       (Message.timestamp msg) (Message.id msg)
  then [ConsoleError (CallbackError callback)]
  else [].

Definition notifications (msg : Message) (callbacks : list Callback)
    : list Event :=
  callbacks ≫= notification msg.

(** The state a dispatch of [msg] to [topic] leaves: the id of the message
    is seen, and the message is in the topic's buffer when it has one. *)
Definition dispatched (msg : Message) (topic : TopicState) (mq : t) : t :=
  let mq1 := with_seenIds ({[Message.id msg]} ∪ seenIds mq) mq in
  match TopicState.buffer topic with
  | Some buffer =>
      update_topic (Message.topic_id msg)
        (with_buffer (Some (RingBuffer.push msg buffer).2)) mq1
  | None => mq1
  end.

(** What [broadcast] posts for a message of [topic]. *)
Definition posted (msg : Message) (topic : TopicState) (mq : t) : list Event :=
  match channel mq with
  | Some _ => [PostMessage 0 (WireMsg.mk msg (TopicState.name topic))]
  | None => []
  end.

(** How the [postMessage] of a payload ends on a queue that is open: the
    channel, when there is one, rejects what it cannot clone. *)
Definition post_outcome (payload : Payload) (mq : t) : Outcome unit :=
  match channel mq with
  | Some _ => if unclonable payload then Throw DataCloneError else Return ()
  | None => Return ()
  end.

(** A [publish] to [topicId] reaches [postMessage]: there is a channel, the
    queue is open and the topic exists. *)
Definition posts (topicId : nat) (mq : t) : bool :=
  bool_decide (is_Some (channel mq)) && negb (isClosed mq) &&
  bool_decide (is_Some (getTopic topicId mq)).

(** The payloads of a batch up to the first one that cannot be cloned, that
    one included. *)
Fixpoint until_unclonable (payloads : list (string * Z * Payload))
    : list (string * Z * Payload) :=
  match payloads with
  | [] => []
  | p :: payloads' =>
      if unclonable p.2 then [p] else p :: until_unclonable payloads'
  end.

(** The payloads of a batch that [publishBatchById] gets to publish: the
    loop ends with the first [publish] that throws. *)
Definition attempted (topicId : nat)
    (payloads : list (string * Z * Payload)) (mq : t)
    : list (string * Z * Payload) :=
  if posts topicId mq then until_unclonable payloads else payloads.

(** How [publishBatchById] ends. *)
Definition batch_outcome (topicId : nat)
    (payloads : list (string * Z * Payload)) (mq : t) : Outcome unit :=
  if posts topicId mq && existsb (λ p, unclonable p.2) payloads
  then Throw DataCloneError
  else Return ().

(** A method keeps a property of the state. *)
Definition preserves {A} (P : t → Prop) (m : M A) : Prop :=
  ∀ mq, P mq → P (state (m mq)).

(** The subscription ids of a topic increase along its subscriber table and
    are below the next id to hand out. *)
Definition subscribers_ordered (topic : TopicState) : Prop :=
  StronglySorted lt (JsMap.keys (TopicState.subscribers topic)) ∧
  Forall (λ k, k < TopicState.nextSubId topic)
    (JsMap.keys (TopicState.subscribers topic)).

Definition topics_ordered (mq : t) : Prop :=
  Forall subscribers_ordered (topics mq).
End queue.
Arguments t : clear implicits.
Arguments Error : clear implicits.
Arguments Event : clear implicits.
Arguments ChannelData : clear implicits.
Arguments Outcome : clear implicits.
Arguments M : clear implicits.
Arguments Call : clear implicits.
Arguments Return {Callback A}.
Arguments Throw {Callback A}.
End MessageQueue.

(** ** Sequences of ring buffer operations *)

Module RingBufferOps.
Section ops.
Context {T : Type}.

(** The operations of the class that change a buffer. *)
Inductive Op :=
  | Push (item : T)
  | Pop
  | Clear.

Definition apply (op : Op) (b : RingBuffer.t T) : RingBuffer.t T :=
  match op with
  | Push item => (RingBuffer.push item b).2
  | Pop => (RingBuffer.pop b).2
  | Clear => (RingBuffer.clear b).2
  end.

Definition run (ops : list Op) (b : RingBuffer.t T) : RingBuffer.t T :=
  foldl (λ b op, apply op b) b ops.

(** [pop] is called [n] times: the values returned, in order, and the
    buffer that is left. *)
Fixpoint pop_n (n : nat) (b : RingBuffer.t T) : list (option T) * RingBuffer.t T :=
  match n with
  | 0 => ([], b)
  | S n' =>
      let '(item, b1) := RingBuffer.pop b in
      let '(items, b2) := pop_n n' b1 in
      (item :: items, b2)
  end.

(** The queue a ring buffer of capacity [c] stands for: a list, oldest item
    first, that a push extends at the end, dropping the first item when [c]
    items are held, and that holds nothing when [c] is 0. *)
Definition fifo_apply (c : nat) (op : Op) (l : list T) : list T :=
  match op with
  | Push item =>
      if c =? 0 then l
      else if length l <? c then l ++ [item]
      else drop 1 l ++ [item]
  | Pop => drop 1 l
  | Clear => []
  end.

Definition fifo_run (c : nat) (ops : list Op) (l : list T) : list T :=
  foldl (λ l op, fifo_apply c op l) l ops.
End ops.
Arguments Op : clear implicits.
End RingBufferOps.

(** ** Topic *)

(** The class [Topic]: the name and the id of a topic of a queue, with
    methods that call the queue's methods with that id. The reference to
    the queue is the state the methods take. *)
Module Topic.
Section topic.
Context {Payload Callback : Type} `{!StructuredClone Payload}.
Variable raises : Callback → Payload → nat → Z → string → bool.

Record t := mk {
  name : string;
  id : nat
}.

(** [MessageQueue.topic(name)] *)
Definition topic (name : string) : MessageQueue.M Payload Callback t :=
  MessageQueue.bind (MessageQueue.registerTopic name) (λ id,
    MessageQueue.ret (mk name id)).

Definition publish (uuid : string) (now : Z) (h : t) (payload : Payload)
    : MessageQueue.M Payload Callback unit :=
  MessageQueue.publish raises uuid now (id h) payload.

Definition publishBatch (h : t) (payloads : list (string * Z * Payload))
    : MessageQueue.M Payload Callback unit :=
  MessageQueue.publishBatchById raises (id h) payloads.

Definition subscribe (h : t) (callback : Callback)
    : MessageQueue.M Payload Callback nat :=
  MessageQueue.subscribe (id h) callback.

Definition unsubscribe (h : t) (subId : nat)
    : MessageQueue.M Payload Callback bool :=
  MessageQueue.unsubscribe (id h) subId.

Definition unsubscribeAll (h : t) : MessageQueue.M Payload Callback nat :=
  MessageQueue.unsubscribeAll (id h).

Definition subscriberCount (h : t) (mq : MessageQueue.t Payload Callback)
    : nat :=
  MessageQueue.subscriberCount (id h) mq.

Definition destroy (h : t) : MessageQueue.M Payload Callback bool :=
  MessageQueue.destroyTopic (id h).
End topic.
Arguments t : clear implicits.
End Topic.

(** ** Stream *)

(** The class [Stream] and [Topic.stream()]. A stream holds a function that
    subscribes a callback somewhere and returns the function that takes
    the subscription back. [map], [filter] and [tap] build callbacks
    around the callback they are given, so the callbacks of a queue with
    streams are the functions of the client, known by a number, and the
    callbacks built around them. The functions given to [map] and [filter]
    are functions of the payload that do not throw. [debounce], which
    works with timers, is not part of the model. *)
Module Stream.
Section stream.
Context {Payload : Type} `{!StructuredClone Payload}.

Inductive Callback :=
  | Listener (listener : nat)
  | Mapped (transform : Payload → Payload) (next : Callback)
  | Filtered (predicate : Payload → bool) (next : Callback)
  | Tapped (effect : nat) (next : Callback).

(** The arguments after the payload: topic id, timestamp, message id. *)
Definition Args : Type := nat * Z * string.

(** What a call of a callback gets done: a function of the client is
    called with a payload and the other arguments, the function given to a
    [tap] is called with a payload. *)
Inductive Step :=
  | Heard (listener : nat) (payload : Payload) (args : Args)
  | Effect (effect : nat) (payload : Payload).

(** Whether a function of the client, or the function given to a [tap],
    throws on the arguments it is called with. *)
Variable listener_raises : nat → Payload → Args → bool.
Variable effect_raises : nat → Payload → bool.

(** A call [callback(payload, ...args)]: the steps it takes, in order, and
    whether it throws. *)
Fixpoint act (callback : Callback) (payload : Payload) (args : Args)
    : list Step * bool :=
  match callback with
  | Listener listener =>
      ([Heard listener payload args], listener_raises listener payload args)
  | Mapped transform next => act next (transform payload) args
  | Filtered predicate next =>
      if predicate payload then act next payload args else ([], false)
  | Tapped effect next =>
      if effect_raises effect payload then ([Effect effect payload], true)
      else
        let '(steps, raised) := act next payload args in
        (Effect effect payload :: steps, raised)
  end.

Definition raises (callback : Callback) (payload : Payload) (topicId : nat)
    (timestamp : Z) (messageId : string) : bool :=
  (act callback payload (topicId, timestamp, messageId)).2.

(** The object [{ unsubscribe }] that [subscribe] returns; the function in
    it is [() => this.unsubscribe(subId)] of a topic. *)
Record Subscription := {
  sub_topic : Topic.t;
  sub_id : nat
}.

Definition unsubscribe (sub : Subscription)
    : MessageQueue.M Payload Callback bool :=
  Topic.unsubscribe (sub_topic sub) (sub_id sub).

Record t := mk {
  _subscribe : Callback → MessageQueue.M Payload Callback Subscription
}.

Definition subscribe (s : t) (callback : Callback)
    : MessageQueue.M Payload Callback Subscription :=
  _subscribe s callback.

Definition map (transform : Payload → Payload) (s : t) : t :=
  mk (λ next, _subscribe s (Mapped transform next)).

Definition filter (predicate : Payload → bool) (s : t) : t :=
  mk (λ next, _subscribe s (Filtered predicate next)).

Definition tap (effect : nat) (s : t) : t :=
  mk (λ next, _subscribe s (Tapped effect next)).

(** [Topic.stream()] *)
Definition stream (h : Topic.t) : t :=
  mk (λ callback,
    MessageQueue.bind (Topic.subscribe h callback) (λ subId,
      MessageQueue.ret (Build_Subscription h subId))).

(** A chain of method calls [s.map(f).filter(p)...]. *)
Inductive Stage :=
  | Map (transform : Payload → Payload)
  | Filter (predicate : Payload → bool)
  | Tap (effect : nat).

Definition chain (s : t) (stage : Stage) : t :=
  match stage with
  | Map transform => map transform s
  | Filter predicate => filter predicate s
  | Tap effect => tap effect s
  end.

Definition pipeline (stages : list Stage) (s : t) : t :=
  foldl chain s stages.

(** The callback a stage builds around the next one. *)
Definition around (stage : Stage) (next : Callback) : Callback :=
  match stage with
  | Map transform => Mapped transform next
  | Filter predicate => Filtered predicate next
  | Tap effect => Tapped effect next
  end.

(** How a payload goes through the stages of a chain, first stage first:
    the calls of [tap] functions on the way, and whether the payload comes
    out at the end, was held back by a [filter], or a [tap] function
    threw. *)
Inductive Flow :=
  | Passed (payload : Payload)
  | Dropped
  | Raised.

Fixpoint flow (stages : list Stage) (payload : Payload) : list Step * Flow :=
  match stages with
  | [] => ([], Passed payload)
  | Map transform :: rest => flow rest (transform payload)
  | Filter predicate :: rest =>
      if predicate payload then flow rest payload else ([], Dropped)
  | Tap effect :: rest =>
      if effect_raises effect payload then ([Effect effect payload], Raised)
      else
        let '(steps, out) := flow rest payload in
        (Effect effect payload :: steps, out)
  end.
End stream.
Arguments Callback : clear implicits.
Arguments Step : clear implicits.
Arguments Subscription : clear implicits.
Arguments t : clear implicits.
Arguments Stage : clear implicits.
Arguments Flow : clear implicits.
End Stream.

(** ** Invariants of the queue *)

Module Invariants.
Import MessageQueue.
Section invariants.
Context {Payload Callback : Type} `{!StructuredClone Payload}.

Abbreviation Queue := (MessageQueue.t Payload Callback).
Abbreviation TopicState := (TopicState.t Payload Callback).

(** The name index and the array of topics agree: a name has an id in the
    index exactly when the topic in that slot has the name; a topic's id
    is the number of its slot; there are as many names as topics. *)
Definition registry_consistent (mq : Queue) : Prop :=
  (∀ name id,
     topicIndex mq !! name = Some id ↔
     ∃ topic, topics mq !! id = Some topic ∧ TopicState.name topic = name) ∧
  (∀ id topic, topics mq !! id = Some topic → TopicState.id topic = id) ∧
  size (topicIndex mq) = length (topics mq).

(** Every buffer of a topic is a ring buffer in good shape. *)
Definition buffer_valid (topic : TopicState) : Prop :=
  ∀ buffer, TopicState.buffer topic = Some buffer →
    ∃ l, RingBuffer.rep buffer l.

Definition buffers_valid (mq : Queue) : Prop :=
  Forall buffer_valid (topics mq).

(** The slot [topicId] holds a topic of the name [name] whose next
    subscription id is at least [n]. *)
Definition slot_kept (topicId : nat) (name : string) (n : nat) (mq : Queue)
    : Prop :=
  ∃ topic, getTopic topicId mq = Some topic ∧
    TopicState.name topic = name ∧ n ≤ TopicState.nextSubId topic.

Definition no_close (calls : list (Call Payload Callback)) : bool :=
  forallb (λ c, negb (is_close c)) calls.

(** The calls that cause no event at all. *)
Definition is_quiet (c : Call Payload Callback) : bool :=
  match c with
  | CallPublish _ _ _ _ | CallPublishBatchById _ _ | CallClose | Receive _ =>
      false
  | _ => true
  end.

(** The messages [publishBatchById] builds for its payloads on the queue
    [mq]. *)
Definition batch_messages (topicId : nat)
    (payloads : list (string * Z * Payload)) (mq : Queue)
    : list (Message.t Payload) :=
  (λ '(uuid, now, payload), createMessage uuid now topicId payload mq) <$>
    payloads.
End invariants.
End Invariants.

(** ** Example queues *)

(** Queues of a client whose payloads are numbers and whose callbacks are
    known by a number; callback 13 raises whenever it is called, and the
    payload 99 stands for one that the channel cannot clone. *)
Module Examples.
Import MessageQueue.

#[global] Instance fragile : StructuredClone nat := λ payload, payload =? 99.

Definition failing (callback payload topicId : nat) (timestamp : Z)
    (messageId : string) : bool :=
  callback =? 13.

(** A new queue on the channel [app]. *)
Definition fresh : MessageQueue.t nat nat :=
  new "client-a" true (Some "app").

(** A queue with the topic [news], two subscribers and a buffer of two
    messages. *)
Definition setup : list (Call nat nat) :=
  [CallRegisterTopic "news"; CallSubscribe 0 13; CallSubscribe 0 8;
   CallEnableTopicBuffer 0 (Some 2)].

Definition subscribed : MessageQueue.t nat nat := (run failing setup fresh).1.

(** The same queue with two messages in the buffer. *)
Definition buffered : MessageQueue.t nat nat :=
  (run failing [CallPublish "m-1" 1000 0 5; CallPublish "m-2" 1001 0 6]
     subscribed).1.

(** A queue that was closed, and on which a topic was then registered and
    subscribed to. *)
Definition reopening : list (Call nat nat) :=
  [CallRegisterTopic "news"; CallClose; CallRegisterTopic "news";
   CallSubscribe 0 7; CallSubscribe 0 8].

Definition reopened : MessageQueue.t nat nat := (run failing reopening fresh).1.

(** A closed queue on which the topic [news] was registered again: its first
    subscriber raises, its second does not. *)
Definition shutting : list (Call nat nat) :=
  [CallRegisterTopic "news"; CallClose; CallRegisterTopic "news";
   CallSubscribe 0 13; CallSubscribe 0 8].

Definition shut : MessageQueue.t nat nat := (run failing shutting fresh).1.

(** The least capacity that is not the length of an array. *)
Definition huge : nat := Z.to_nat (2 ^ 32).

(** A message of this client that comes back from the channel. *)
Definition echo : WireMsg.t nat :=
  WireMsg.mk (Message.mk "m-9" 0 "client-a" 5 1000) "news".

(** A message of another client for a topic this client has not seen. *)
Definition foreign : WireMsg.t nat :=
  WireMsg.mk (Message.mk "m-9" 4 "client-b" 5 1000) "sports".
End Examples.

(** ** More example queues *)

Module MoreExamples.
Import MessageQueue Examples.

(** The calls that lead to the queue [buffered]. *)
Definition buffering : list (Call nat nat) :=
  setup ++ [CallPublish "m-1" 1000 0 5; CallPublish "m-2" 1001 0 6].

(** The queue of another client on the same channel, whose topic [news] has
    the id 1. *)
Definition remote_setup : list (Call nat nat) :=
  [CallRegisterTopic "sports"; CallRegisterTopic "news"; CallSubscribe 1 21].

Definition remote : MessageQueue.t nat nat :=
  (run failing remote_setup (new "client-b" true (Some "app"))).1.

(** Calls on the topic with the id 0 that do not close the queue. *)
Definition afterwards : list (Call nat nat) :=
  [CallUnsubscribeAll 0; CallDestroyTopic 0; CallRegisterTopic "sports"].

(** The queue [subscribed] after [close]. *)
Definition closed : MessageQueue.t nat nat := state (close subscribed).

(** Ring buffer operations. *)
Definition ring_ops : list (RingBufferOps.Op nat) :=
  [RingBufferOps.Push 1; RingBufferOps.Push 2; RingBufferOps.Push 3;
   RingBufferOps.Pop; RingBufferOps.Push 4].

(** A queue with streams: no function of the client throws. *)
Definition calm (listener payload : nat) (args : Stream.Args) : bool := false.
Definition mild (effect payload : nat) : bool := false.

Definition streamed : MessageQueue.t nat (Stream.Callback nat) :=
  (run (Stream.raises calm mild)
     [CallRegisterTopic "news"; CallSubscribe 0 (Stream.Listener 1)]
     (new "client-a" true (Some "app"))).1.

Definition news : Topic.t := Topic.mk "news" 0.

Definition stages : list (Stream.Stage nat) :=
  [Stream.Map (λ n, n + 1); Stream.Filter Nat.even; Stream.Tap 3].
End MoreExamples.

(** * Properties of the ring buffer *)

Module RingBufferFacts.
Import RingBuffer.
Section ring.
Context {T : Type}.
Implicit Types (b : t T) (l items : list T) (x item : T).

(** Two offsets below the capacity that land on one slot are equal. *)
Lemma slot_inj c f i j :
  i < c → j < c → (f + i) mod c = (f + j) mod c → i = j.
Proof.
  intros Hi Hj Heq.
  assert (Hc : c ≠ 0) by lia.
  pose proof (Nat.div_mod_eq (f + i) c) as Ei.
  pose proof (Nat.div_mod_eq (f + j) c) as Ej.
  rewrite Heq in Ei.
  destruct (decide ((f + i) `div` c = (f + j) `div` c)) as [E|N]; [lia|].
  exfalso. nia.
Qed.

Lemma slot_next c f i : (((f + 1) mod c) + i) mod c = (f + S i) mod c.
Proof.
  rewrite Nat.Div0.add_mod_idemp_l. f_equal. lia.
Qed.

Lemma array_set_in_range {A} (hole v : A) i (arr : list A) :
  i < length arr → array_set hole i v arr = <[i:=v]> arr.
Proof. intros H. unfold array_set. by rewrite decide_True. Qed.

(** The loop of [getAll] collects the items of the represented list. *)
Lemma getAll_loop_slots arr c l : ∀ idx result,
  idx < c →
  (∀ i x, l !! i = Some x → arr !! ((idx + i) mod c) = Some (Some x)) →
  getAll_loop arr c (length l) idx result = result ++ l.
Proof.
  induction l as [|x l IH]; intros idx result Hidx Hslot; simpl.
  - by rewrite app_nil_r.
  - assert (Hx : arr !! idx = Some (Some x)).
    { specialize (Hslot 0 x eq_refl).
      by rewrite Nat.add_0_r, Nat.mod_small in Hslot. }
    unfold read at 1. rewrite Hx. simpl.
    rewrite IH.
    + by rewrite <- app_assoc.
    + apply Nat.mod_upper_bound. lia.
    + intros i y Hy. rewrite slot_next. by apply (Hslot (S i)).
Qed.

Lemma rep_new c : rep (new c) ([] : list T).
Proof.
  split; simpl; try done.
  - by rewrite length_replicate.
  - lia.
  - by rewrite Nat.Div0.mod_0_l.
Qed.

(** [getAll] returns the represented list. *)
Lemma rep_getAll b l : rep b l → getAll b = l.
Proof.
  intros [Hlen Hsize Hbound Hfront Hrear Hslot].
  unfold getAll, isEmpty. destruct (Nat.eqb_spec (size b) 0) as [E|N].
  - destruct l; [done | simpl in *; lia].
  - rewrite Hsize. rewrite (getAll_loop_slots _ _ l); [done | | done].
    apply Hfront. lia.
Qed.

(** A push with room left appends the item and displaces nothing. *)
Lemma rep_push_room b l x :
  rep b l → length l < capacity b →
  (push x b).1 = None ∧ rep (push x b).2 (l ++ [x]).
Proof.
  intros [Hlen Hsize Hbound Hfront Hrear Hslot] Hroom.
  unfold push, isFull.
  destruct (Nat.eqb_spec (capacity b) 0) as [E|N]; [lia|].
  destruct (Nat.eqb_spec (size b) (capacity b)) as [E|_]; [lia|].
  simpl. split; [done|].
  assert (Hr : rear b < length (buffer b)).
  { rewrite Hrear, Hlen. apply Nat.mod_upper_bound. lia. }
  rewrite array_set_in_range by done.
  split; simpl.
  - by rewrite length_insert.
  - rewrite length_app. simpl. lia.
  - rewrite length_app. simpl. lia.
  - done.
  - rewrite Hrear, Nat.Div0.add_mod_idemp_l. f_equal. lia.
  - intros i y Hy. destruct (decide (i = length l)) as [->|Hne].
    + rewrite list_lookup_middle in Hy by done. simplify_eq.
      rewrite Hrear, Hsize. apply list_lookup_insert_eq.
      rewrite Hlen. apply Nat.mod_upper_bound. lia.
    + assert (Hi : i < length l).
      { apply lookup_lt_Some in Hy. rewrite length_app in Hy. simpl in Hy. lia. }
      rewrite lookup_app_l in Hy by done.
      rewrite list_lookup_insert_ne; [by apply Hslot|].
      rewrite Hrear, Hsize. intros Heq.
      apply slot_inj in Heq; lia.
Qed.

(** A push onto a full buffer displaces the oldest item and appends the
    new one. *)
Lemma rep_push_full b l x :
  rep b l → 0 < capacity b → length l = capacity b →
  (push x b).1 = head l ∧ is_Some (head l) ∧
  rep (push x b).2 (drop 1 l ++ [x]).
Proof.
  intros [Hlen Hsize Hbound Hfront Hrear Hslot] Hpos Hfull.
  destruct l as [|o l]; [simpl in *; lia|]. simpl in Hfull.
  assert (Hf : front b < capacity b) by auto.
  assert (Ho : buffer b !! front b = Some (Some o)).
  { specialize (Hslot 0 o eq_refl).
    by rewrite Nat.add_0_r, Nat.mod_small in Hslot. }
  assert (Hrf : rear b = front b).
  { rewrite Hrear, Hsize. simpl. rewrite Hfull.
    rewrite <- (Nat.mul_1_l (capacity b)) at 1.
    rewrite Nat.Div0.mod_add. by apply Nat.mod_small. }
  unfold push, isFull.
  destruct (Nat.eqb_spec (capacity b) 0) as [E|N]; [lia|].
  destruct (Nat.eqb_spec (size b) (capacity b)) as [_|N']; [|simpl in *; lia].
  unfold read. rewrite Ho. simpl.
  split; [done|]. split; [by eexists|].
  rewrite (array_set_in_range _ _ (front b)) by lia.
  rewrite array_set_in_range by (rewrite length_insert; lia).
  rewrite Hrf.
  split; simpl.
  - by rewrite !length_insert.
  - rewrite drop_0, length_app. simpl in *. lia.
  - rewrite drop_0, length_app. simpl. lia.
  - intros _. apply Nat.mod_upper_bound. lia.
  - rewrite Nat.Div0.add_mod_idemp_l, Hsize. simpl. rewrite Hfull.
    replace (front b + 1 + capacity b) with (front b + 1 + 1 * capacity b) by lia.
    by rewrite Nat.Div0.mod_add.
  - rewrite drop_0. intros i y Hy. rewrite slot_next.
    destruct (decide (i = length l)) as [->|Hne].
    + rewrite list_lookup_middle in Hy by done. simplify_eq.
      replace (front b + S (length l)) with (front b + 1 * capacity b) by lia.
      rewrite Nat.Div0.mod_add, Nat.mod_small by done.
      rewrite list_lookup_insert_eq; [done|]. rewrite length_insert. lia.
    + assert (Hi : i < length l).
      { apply lookup_lt_Some in Hy. rewrite length_app in Hy. simpl in Hy. lia. }
      rewrite lookup_app_l in Hy by done.
      assert (Hne' : front b ≠ (front b + S i) mod capacity b).
      { intros Heq. rewrite <- (Nat.mod_small (front b) (capacity b)) in Heq at 1 by done.
        rewrite <- (Nat.add_0_r (front b)) in Heq at 1.
        apply slot_inj in Heq; lia. }
      rewrite !list_lookup_insert_ne by done.
      by apply (Hslot (S i)).
Qed.

(** With capacity 0 a push hands its item back and stores nothing. *)
Lemma push_capacity_0 b x : capacity b = 0 → push x b = (Some x, b).
Proof. intros E. unfold push. by rewrite E. Qed.

Lemma capacity_push b x : capacity (push x b).2 = capacity b.
Proof.
  unfold push. destruct (capacity b =? 0); [done|].
  by destruct (isFull b).
Qed.

Lemma capacity_push_all items : ∀ b, capacity (push_all items b) = capacity b.
Proof.
  induction items as [|x items IH]; intros b; simpl; [done|].
  by rewrite IH, capacity_push.
Qed.

Lemma push_all_app items x b :
  push_all (items ++ [x]) b = (push x (push_all items b)).2.
Proof. unfold push_all. by rewrite foldl_app. Qed.

Lemma last_n_snoc c items x :
  0 < c →
  last_n c (items ++ [x]) =
    (if decide (length (last_n c items) < c) then last_n c items
     else drop 1 (last_n c items)) ++ [x].
Proof.
  intros Hc. unfold last_n. rewrite !length_drop, length_app. simpl.
  case_decide as Hlt.
  - assert (length items < c) by lia.
    replace (length items + 1 - c) with 0 by lia.
    replace (length items - c) with 0 by lia. done.
  - rewrite drop_drop.
    replace (length items + 1 - c) with (length items - c + 1) by lia.
    rewrite drop_app_le by lia. done.
Qed.

Lemma length_last_n c items : length (last_n c items) = length items `min` c.
Proof. unfold last_n. rewrite length_drop. lia. Qed.

(** After any sequence of pushes into a fresh buffer of capacity [c], the
    buffer represents the last [c] items pushed. *)
Lemma reachable_rep c items : rep (push_all items (new c)) (last_n c items).
Proof.
  induction items as [|x items IH] using rev_ind.
  - apply rep_new.
  - rewrite push_all_app.
    destruct (decide (c = 0)) as [->|Hc].
    + rewrite push_capacity_0 by (by rewrite capacity_push_all).
      simpl. unfold last_n in *. rewrite Nat.sub_0_r in *.
      by rewrite drop_all in *.
    + assert (Hcap : capacity (push_all items (new c)) = c)
        by by rewrite capacity_push_all.
      rewrite last_n_snoc by lia. case_decide as Hlt.
      * apply rep_push_room; [done | by rewrite Hcap].
      * apply rep_push_full; [done | lia |].
        rewrite Hcap. rewrite length_last_n in *. lia.
Qed.

(** C2. After any sequence of pushes into a new buffer of capacity [c],
    [getAll] returns the last [c] items pushed, in the order they were
    pushed, so as many as the smaller of [c] and the number of pushes. With
    capacity 0 a push returns its own item and the buffer stays empty; with
    a positive capacity a push onto a full buffer returns the oldest item
    stored, and the buffer then holds the last [c] items again. *)
Theorem C2_ring_buffer_keeps_last c items x :
  let b := push_all items (new c) in
  getAll b = last_n c items ∧
  length (getAll b) = length items `min` c ∧
  (c = 0 → push x b = (Some x, b) ∧ getAll b = []) ∧
  (0 < c → c ≤ length items →
     (push x b).1 = head (getAll b) ∧
     (push x b).1 = items !! (length items - c) ∧
     is_Some (push x b).1 ∧
     getAll (push x b).2 = last_n c (items ++ [x])).
Proof.
  intros b. subst b.
  pose proof (reachable_rep c items) as Hrep.
  pose proof (rep_getAll _ _ Hrep) as Hall.
  split_and!.
  - done.
  - by rewrite Hall, length_last_n.
  - intros ->. split.
    + apply push_capacity_0. by rewrite capacity_push_all.
    + rewrite Hall. unfold last_n. rewrite Nat.sub_0_r. apply drop_all.
  - intros Hpos Hfull.
    assert (Hcap : capacity (push_all items (new c)) = c)
      by by rewrite capacity_push_all.
    assert (Hlen : length (last_n c items) = c)
      by (rewrite length_last_n; lia).
    destruct (rep_push_full _ _ x Hrep) as (Hhead & Hsome & Hrep');
      [lia | lia |].
    rewrite Hall. split_and!.
    + done.
    + rewrite Hhead. unfold last_n.
      by rewrite head_lookup, lookup_drop, Nat.add_0_r.
    + by rewrite Hhead.
    + rewrite (rep_getAll _ _ Hrep'). rewrite last_n_snoc by done.
      rewrite decide_False by lia. done.
Qed.
End ring.
End RingBufferFacts.

(** * Properties of the message queue *)

Module MessageQueueFacts.
Import MessageQueue.

Ltac unfold_monad :=
  unfold bind, ret, throw, emit, get, modify, try_catch, outcome, state,
    events, effect in *.

Section queue.
Context {Payload Callback : Type} `{!StructuredClone Payload}.
Variable raises : Callback → Payload → nat → Z → string → bool.

Abbreviation Message := (Message.t Payload).
Abbreviation TopicState := (TopicState.t Payload Callback).
Abbreviation Queue := (MessageQueue.t Payload Callback).
Abbreviation Event := (MessageQueue.Event Payload Callback).

Implicit Types (mq : Queue) (topic : TopicState) (msg : Message)
  (callback : Callback) (payload : Payload) (name uuid : string) (now : Z)
  (topicId subId : nat).

(** ** Field updates and lookups *)

Lemma with_topics_same mq : with_topics (topics mq) mq = mq.
Proof. by destruct mq. Qed.

Lemma update_topic_unknown topicId f mq :
  getTopic topicId mq = None → update_topic topicId f mq = mq.
Proof.
  unfold getTopic, update_topic, with_topics. intros H.
  destruct mq as [ts ix ch cl seen closed]; simpl in *. f_equal.
  apply list_eq. intros i. destruct (decide (i = topicId)) as [->|Hne].
  - rewrite list_lookup_alter_eq. by rewrite H.
  - by rewrite list_lookup_alter_ne.
Qed.

Lemma update_topic_id topicId f mq topic :
  getTopic topicId mq = Some topic → f topic = topic →
  update_topic topicId f mq = mq.
Proof.
  unfold getTopic, update_topic, with_topics. intros H Hf.
  destruct mq as [ts ix ch cl seen closed]; simpl in *. f_equal.
  apply list_eq. intros i. destruct (decide (i = topicId)) as [->|Hne].
  - rewrite list_lookup_alter_eq. rewrite H. simpl. by rewrite Hf.
  - by rewrite list_lookup_alter_ne.
Qed.

Lemma getTopic_update_topic topicId f mq :
  getTopic topicId (update_topic topicId f mq) = f <$> getTopic topicId mq.
Proof. unfold getTopic, update_topic. simpl. apply list_lookup_alter_eq. Qed.

Lemma getTopic_update_topic_ne topicId other f mq :
  other ≠ topicId →
  getTopic other (update_topic topicId f mq) = getTopic other mq.
Proof.
  intros Hne. unfold getTopic, update_topic. simpl.
  by apply list_lookup_alter_ne.
Qed.

Lemma with_subscribers_same topic :
  with_subscribers (TopicState.subscribers topic) topic = topic.
Proof. by destruct topic. Qed.

(** ** The subscriber table *)

Lemma JsMap_has_keys (m : JsMap.t Callback) k :
  JsMap.has k m = true ↔ k ∈ JsMap.keys m.
Proof. unfold JsMap.has, JsMap.keys. by rewrite bool_decide_eq_true. Qed.

Lemma JsMap_delete_absent (m : JsMap.t Callback) k :
  k ∉ JsMap.keys m → JsMap.delete k m = (false, m).
Proof.
  intros Hk. unfold JsMap.delete. f_equal.
  - apply not_true_is_false. by rewrite JsMap_has_keys.
  - induction m as [|[k' v] m IH]; [done|].
    unfold JsMap.keys in *. simpl in Hk. apply not_elem_of_cons in Hk as [Hne Hk].
    rewrite filter_cons_True by (simpl; congruence).
    by rewrite IH.
Qed.

Lemma JsMap_set_fresh (m : JsMap.t Callback) k v :
  k ∉ JsMap.keys m → JsMap.set k v m = m ++ [(k, v)].
Proof.
  intros Hk. unfold JsMap.set.
  destruct (JsMap.has k m) eqn:E; [|done].
  by apply JsMap_has_keys in E.
Qed.

(** ** Properties kept by the methods *)

Section preserves.
Context (P : Queue → Prop).

Lemma preserves_ret {A} (a : A) : preserves P (ret a).
Proof. by intros mq. Qed.

Lemma preserves_throw {A} e : preserves P (throw (A:=A) e).
Proof. by intros mq. Qed.

Lemma preserves_emit ev : preserves P (emit ev).
Proof. by intros mq. Qed.

Lemma preserves_get : preserves P get.
Proof. by intros mq. Qed.

Lemma preserves_modify f : (∀ mq, P mq → P (f mq)) → preserves P (modify f).
Proof. intros Hf mq. apply Hf. Qed.

Lemma preserves_bind {A B} (m : M Payload Callback A) (f : A → M Payload Callback B) :
  preserves P m → (∀ a, preserves P (f a)) → preserves P (bind m f).
Proof.
  intros Hm Hf mq HP. specialize (Hm mq HP). unfold bind, state in *.
  destruct (m mq) as [[[a|e] mq1] ev1]; simpl in *; [|done].
  specialize (Hf a mq1 Hm). unfold state in Hf.
  by destruct (f a mq1) as [[r mq2] ev2].
Qed.

Lemma preserves_try_catch {A} (m : M Payload Callback A) handler :
  preserves P m → (∀ e, preserves P (handler e)) →
  preserves P (try_catch m handler).
Proof.
  intros Hm Hh mq HP. specialize (Hm mq HP). unfold try_catch, state in *.
  destruct (m mq) as [[[a|e] mq1] ev1]; simpl in *; [done|].
  specialize (Hh e mq1 Hm). unfold state in Hh.
  by destruct (handler e mq1) as [[r mq2] ev2].
Qed.

Lemma preserves_for_of {A} (l : list A) body :
  (∀ x, preserves P (body x)) → preserves P (for_of l body).
Proof.
  intros Hbody. induction l as [|x l IH]; simpl.
  - apply preserves_ret.
  - apply preserves_bind; [apply Hbody | by intros _].
Qed.

Lemma preserves_call callback msg : preserves P (call raises callback msg).
Proof.
  apply preserves_bind; [apply preserves_emit|]. intros _.
  destruct (raises _ _ _ _ _); [apply preserves_throw | apply preserves_ret].
Qed.

(** What the dispatch changes: the seen ids and the buffer of a topic. *)
Hypothesis P_seenIds : ∀ seen mq, P mq → P (with_seenIds seen mq).
Hypothesis P_buffer : ∀ topicId buffer mq,
  P mq → P (update_topic topicId (with_buffer buffer) mq).

Lemma preserves_dispatchLocal msg : preserves P (dispatchLocal raises msg).
Proof using P_seenIds P_buffer.
  apply preserves_bind; [apply preserves_get|]. intros mq0.
  destruct (isClosed mq0); [apply preserves_ret|].
  apply preserves_bind; [apply preserves_modify; auto|]. intros _.
  destruct (getTopic _ mq0) as [topic|]; [|apply preserves_ret].
  apply preserves_bind.
  - destruct (TopicState.buffer topic);
      [apply preserves_modify; auto | apply preserves_ret].
  - intros _. apply preserves_for_of. intros callback.
    apply preserves_try_catch; [apply preserves_call|].
    intros e. apply preserves_emit.
Qed.

Lemma preserves_broadcast msg : preserves P (broadcast msg).
Proof.
  apply preserves_bind; [apply preserves_get|]. intros mq0.
  destruct (channel mq0); [|apply preserves_ret].
  destruct (negb _); [|apply preserves_ret].
  destruct (getTopic _ _); [|apply preserves_ret].
  apply preserves_bind; [apply preserves_emit|]. intros _.
  destruct (unclonable _); [apply preserves_throw | apply preserves_ret].
Qed.

Lemma preserves_publish uuid now topicId payload :
  preserves P (publish raises uuid now topicId payload).
Proof using P_seenIds P_buffer.
  apply preserves_bind; [apply preserves_get|]. intros mq0.
  apply preserves_bind; [apply preserves_dispatchLocal|]. intros _.
  apply preserves_broadcast.
Qed.

Lemma preserves_publishBatchById topicId payloads :
  preserves P (publishBatchById raises topicId payloads).
Proof using P_seenIds P_buffer.
  apply preserves_for_of. intros [[uuid now] payload].
  apply preserves_publish.
Qed.

Lemma preserves_handleChannelMessage data :
  (∀ name, preserves P (registerTopic name)) →
  preserves P (handleChannelMessage raises data).
Proof using P_seenIds P_buffer.
  intros Hreg.
  apply preserves_bind; [apply preserves_get|]. intros mq0.
  destruct (isClosed mq0); [apply preserves_ret|].
  destruct data as [|type wireMsg]; [apply preserves_ret|].
  destruct (bool_decide (type = 0%Z)); [|apply preserves_ret].
  simpl. destruct (bool_decide (_ ∈ _)); [apply preserves_ret|].
  apply preserves_bind; [apply preserves_modify; auto|]. intros _.
  destruct (bool_decide (_ = _)); [apply preserves_ret|].
  apply preserves_bind; [apply Hreg|]. intros topicId.
  apply preserves_dispatchLocal.
Qed.
End preserves.

(** ** The dispatch *)

(** One turn of the loop over the subscribers: the callback is called, its
    error is caught and reported, and the queue is as it was. *)
Lemma notify_one msg callback mq :
  try_catch (call raises callback msg) (λ e, emit (ConsoleError e)) mq =
  (Return (), mq, notification raises msg callback).
Proof.
  unfold try_catch, call, bind, emit, throw, ret, notification, invoke_with.
  by destruct (raises _ _ _ _ _).
Qed.

(** The loop calls every callback, reports the ones that raise, goes on to
    the end and leaves the queue as it is. *)
Lemma notify_loop msg callbacks : ∀ mq,
  for_of callbacks (λ callback,
    try_catch (call raises callback msg) (λ e, emit (ConsoleError e))) mq =
  (Return (), mq, notifications raises msg callbacks).
Proof.
  induction callbacks as [|callback callbacks IH]; intros mq; [done|].
  cbn [for_of]. unfold bind. by rewrite notify_one, IH.
Qed.

Lemma dispatchLocal_closed msg mq :
  isClosed mq = true → dispatchLocal raises msg mq = (Return (), mq, []).
Proof. intros H. unfold dispatchLocal. unfold_monad. by rewrite H. Qed.

Lemma dispatchLocal_unknown msg mq :
  isClosed mq = false → getTopic (Message.topic_id msg) mq = None →
  dispatchLocal raises msg mq =
    (Return (), with_seenIds ({[Message.id msg]} ∪ seenIds mq) mq, []).
Proof.
  intros H Hnone. unfold dispatchLocal. unfold_monad. by rewrite H, Hnone.
Qed.

Lemma dispatchLocal_known msg mq topic :
  isClosed mq = false → getTopic (Message.topic_id msg) mq = Some topic →
  dispatchLocal raises msg mq =
    (Return (), dispatched msg topic mq,
     notifications raises msg (JsMap.values (TopicState.subscribers topic))).
Proof.
  intros H Hsome. unfold dispatchLocal, dispatched.
  unfold bind at 1. unfold get at 1. rewrite H.
  unfold bind at 1. unfold modify at 1. rewrite Hsome.
  unfold bind at 1.
  destruct (TopicState.buffer topic) as [buffer|].
  - unfold modify at 1. by rewrite notify_loop.
  - unfold ret at 1. by rewrite notify_loop.
Qed.

Lemma getTopic_dispatched msg topic mq :
  getTopic (Message.topic_id msg) mq = Some topic →
  ∃ buffer, getTopic (Message.topic_id msg) (dispatched msg topic mq) =
    Some (with_buffer buffer topic).
Proof.
  intros H. unfold dispatched. destruct (TopicState.buffer topic) eqn:E.
  - eexists. rewrite getTopic_update_topic. unfold getTopic in *. simpl.
    by rewrite H.
  - exists None. unfold getTopic in *. simpl. rewrite H. f_equal.
    destruct topic; simpl in *; by subst.
Qed.

Lemma publish_open mq uuid now topicId payload topic :
  isClosed mq = false → getTopic topicId mq = Some topic →
  let msg := createMessage uuid now topicId payload mq in
  publish raises uuid now topicId payload mq =
    (post_outcome payload mq, dispatched msg topic mq,
     notifications raises msg (JsMap.values (TopicState.subscribers topic)) ++
     posted msg topic mq).
Proof.
  intros Hopen Hsome msg. unfold publish.
  unfold bind at 1. unfold get at 1. fold msg.
  unfold bind at 1. rewrite (dispatchLocal_known msg mq topic) by done.
  destruct (getTopic_dispatched msg topic mq Hsome) as [buffer Hget].
  assert (Hch : channel (dispatched msg topic mq) = channel mq).
  { unfold dispatched. by destruct (TopicState.buffer topic). }
  assert (Hcl : isClosed (dispatched msg topic mq) = false).
  { unfold dispatched. by destruct (TopicState.buffer topic). }
  unfold broadcast, posted, post_outcome. unfold_monad. rewrite Hch, Hcl.
  destruct (channel mq); cbn [negb fst snd]; [|done].
  rewrite Hget. subst msg. cbn [createMessage Message.payload].
  by destruct (unclonable payload).
Qed.

Lemma invocations_notifications msg callbacks :
  invocations (notifications raises msg callbacks) =
    invoke_with msg <$> callbacks.
Proof.
  unfold invocations, notifications.
  induction callbacks as [|callback callbacks IH]; [done|].
  cbn [mbind list_bind fmap list_fmap]. rewrite filter_app, IH.
  unfold notification. rewrite filter_cons_True by done.
  by destruct (raises _ _ _ _ _).
Qed.

Lemma invocations_app (evs1 evs2 : list Event) :
  invocations (evs1 ++ evs2) = invocations evs1 ++ invocations evs2.
Proof. apply filter_app. Qed.

Lemma invocations_posted msg topic mq : invocations (posted msg topic mq) = [].
Proof. unfold posted. by destruct (channel mq). Qed.

(** ** Unknown topics and subscriptions *)

(** C8. For an unknown topic id, [unsubscribe] and [destroyTopic] return
    [false], [unsubscribeAll], [clearBuffer], [getBufferSize] and
    [getBufferCapacity] return 0 and [getBufferedMessages] returns the empty
    list; none of them throws, changes the queue or causes an event. On a
    known topic, [unsubscribe] with a subscription id that is not in the
    table returns [false], again with no change and no event. *)
Theorem C8_unknown_ids_are_no_ops mq topicId subId :
  (getTopic topicId mq = None →
     unsubscribe topicId subId mq = (Return false, mq, []) ∧
     destroyTopic topicId mq = (Return false, mq, []) ∧
     unsubscribeAll topicId mq = (Return 0, mq, []) ∧
     clearBuffer topicId mq = (Return 0, mq, []) ∧
     getBufferSize topicId mq = 0 ∧
     getBufferCapacity topicId mq = 0 ∧
     getBufferedMessages topicId mq = []) ∧
  (∀ topic,
     getTopic topicId mq = Some topic →
     subId ∉ JsMap.keys (TopicState.subscribers topic) →
     unsubscribe topicId subId mq = (Return false, mq, [])).
Proof.
  split.
  - intros H.
    unfold unsubscribe, destroyTopic, unsubscribeAll, clearBuffer,
      getBufferSize, getBufferCapacity, getBufferedMessages.
    by rewrite H.
  - intros topic H Hsub. unfold unsubscribe. rewrite H.
    rewrite JsMap_delete_absent by done.
    rewrite (update_topic_id _ _ _ topic); [done | done |].
    apply with_subscribers_same.
Qed.

(** ** Destroying a topic *)

(** C9. [destroyTopic] on a registered topic returns [true]; the topic keeps
    its slot, its id, its name and its subscription counter, loses its
    subscribers and its buffer; the name index, every other topic and the
    rest of the queue are as before. On an id that is out of range it
    returns [false] and changes nothing. *)
Theorem C9_destroy_topic_soft_delete mq topicId :
  (∀ topic,
     getTopic topicId mq = Some topic →
     let r := destroyTopic topicId mq in
     outcome r = Return true ∧
     events r = [] ∧
     getTopic topicId (state r) =
       Some (TopicState.mk (TopicState.id topic) (TopicState.name topic) []
               None (TopicState.nextSubId topic)) ∧
     (∀ other, other ≠ topicId →
        getTopic other (state r) = getTopic other mq) ∧
     length (topics (state r)) = length (topics mq) ∧
     topicIndex (state r) = topicIndex mq ∧
     seenIds (state r) = seenIds mq ∧
     channel (state r) = channel mq ∧
     clientId (state r) = clientId mq ∧
     isClosed (state r) = isClosed mq) ∧
  (length (topics mq) ≤ topicId →
     destroyTopic topicId mq = (Return false, mq, [])).
Proof.
  split.
  - intros topic H r. subst r. unfold destroyTopic. rewrite H.
    unfold_monad. cbn [fst snd]. repeat split; try done.
    + by rewrite getTopic_update_topic, H.
    + intros other Hne. by apply getTopic_update_topic_ne.
    + apply length_alter.
  - intros Hge. unfold destroyTopic, getTopic.
    by rewrite lookup_ge_None_2.
Qed.

(** ** Enabling a buffer again *)

Lemma array_length_ok_true n : (Z.of_nat n < 2 ^ 32)%Z → array_length_ok n = true.
Proof. intros H. unfold array_length_ok. by apply bool_decide_eq_true_2. Qed.

Lemma array_length_ok_false n : (2 ^ 32 ≤ Z.of_nat n)%Z → array_length_ok n = false.
Proof.
  intros H. unfold array_length_ok. apply bool_decide_eq_false_2. lia.
Qed.

(** With a capacity that is not the length of an array, the constructor of
    the buffer throws, and the topic keeps what it has. *)
Lemma enableTopicBuffer_too_large mq topicId n topic :
  getTopic topicId mq = Some topic →
  (2 ^ 32 ≤ Z.of_nat n)%Z →
  enableTopicBuffer topicId (Some n) mq =
    (Throw (InvalidArrayLength n), mq, []).
Proof.
  intros H Hlarge. unfold enableTopicBuffer. rewrite H.
  cbn [default]. by rewrite array_length_ok_false.
Qed.

Lemma enableTopicBuffer_known mq topicId capacity topic :
  getTopic topicId mq = Some topic →
  (Z.of_nat (default 100%nat capacity) < 2 ^ 32)%Z →
  enableTopicBuffer topicId capacity mq =
    (Return (),
     update_topic topicId
       (with_buffer (Some (RingBuffer.new (default 100 capacity)))) mq,
     []).
Proof.
  intros H Hsmall. unfold enableTopicBuffer. rewrite H.
  by rewrite array_length_ok_true.
Qed.

(** C10, as the code has it. [enableTopicBuffer] on a registered topic that
    has a buffer, with a capacity below [2 ** 32] (100 without the argument),
    puts a new, empty buffer of that capacity in its place: the buffered
    messages are gone, the buffer size is 0, and the topic is otherwise as
    before, like every other topic and the rest of the queue. With a
    capacity of [2 ** 32] or more the call throws the [RangeError] of
    [new Array(capacity)], and the queue, the old buffer and its messages
    are as before. *)
Theorem C10_enable_buffer_again_resets mq topicId capacity topic old :
  getTopic topicId mq = Some topic →
  TopicState.buffer topic = Some old →
  let r := enableTopicBuffer topicId capacity mq in
  ((Z.of_nat (default 100%nat capacity) < 2 ^ 32)%Z →
   outcome r = Return () ∧
   events r = [] ∧
   getTopic topicId (state r) =
     Some (with_buffer (Some (RingBuffer.new (default 100 capacity))) topic) ∧
   getBufferSize topicId (state r) = 0 ∧
   getBufferCapacity topicId (state r) = default 100 capacity ∧
   getBufferedMessages topicId (state r) = [] ∧
   hasBuffer topicId (state r) = true ∧
   (∀ other, other ≠ topicId → getTopic other (state r) = getTopic other mq) ∧
   topicIndex (state r) = topicIndex mq ∧
   seenIds (state r) = seenIds mq) ∧
  ((2 ^ 32 ≤ Z.of_nat (default 100%nat capacity))%Z →
   r = (Throw (InvalidArrayLength (default 100 capacity)), mq, [])).
Proof.
  intros H Hold r. subst r. split.
  - intros Hsmall. rewrite (enableTopicBuffer_known _ _ _ topic) by done.
    unfold_monad. cbn [fst snd].
    assert (Hget : getTopic topicId
              (update_topic topicId
                 (with_buffer (Some (RingBuffer.new (default 100 capacity)))) mq) =
            Some (with_buffer (Some (RingBuffer.new (default 100 capacity))) topic)).
    { by rewrite getTopic_update_topic, H. }
    unfold getBufferSize, getBufferCapacity, getBufferedMessages, hasBuffer.
    rewrite Hget. simpl. repeat split; try done.
    intros other Hne. by apply getTopic_update_topic_ne.
  - intros Hlarge. destruct capacity as [n|]; cbn [default] in *; [|lia].
    by apply (enableTopicBuffer_too_large _ _ _ topic).
Qed.

(** ** Publishing to an unknown topic *)

Lemma broadcast_closed msg mq :
  isClosed mq = true → broadcast msg mq = (Return (), mq, []).
Proof.
  intros Hclosed. unfold broadcast. unfold_monad.
  destruct (channel mq); by rewrite ?Hclosed.
Qed.

Lemma broadcast_unknown msg mq :
  getTopic (Message.topic_id msg) mq = None →
  broadcast msg mq = (Return (), mq, []).
Proof.
  intros Hnone. unfold broadcast. unfold_monad. rewrite Hnone.
  destruct (channel mq); [|done]. by destruct (negb (isClosed mq)).
Qed.

(** C1, as the code has it. [publish] to an unknown topic id does not throw:
    it returns normally, calls no subscriber, reaches no ring buffer and
    posts nothing to the channel. On a queue that is not closed it adds the
    id of the message to the seen ids, and changes nothing else; on a closed
    queue it changes nothing. *)
Theorem C1_publish_unknown_topic mq uuid now topicId payload :
  getTopic topicId mq = None →
  publish raises uuid now topicId payload mq =
    (Return (),
     if isClosed mq then mq else with_seenIds ({[uuid]} ∪ seenIds mq) mq,
     []).
Proof.
  intros Hnone. unfold publish. unfold bind at 1. unfold get at 1.
  set (msg := createMessage uuid now topicId payload mq).
  unfold bind. destruct (isClosed mq) eqn:Hclosed.
  - rewrite dispatchLocal_closed by done.
    by rewrite broadcast_closed.
  - rewrite dispatchLocal_unknown by done.
    by rewrite broadcast_unknown.
Qed.

(** ** The order of the subscriber table *)

Lemma keys_delete_sorted (m : JsMap.t Callback) k :
  StronglySorted lt (JsMap.keys m) →
  StronglySorted lt (JsMap.keys (JsMap.delete k m).2).
Proof.
  unfold JsMap.delete, JsMap.keys. simpl.
  induction m as [|[k' v] m IH]; [done|]. simpl.
  rewrite StronglySorted_cons. intros [Hall Hsorted].
  rewrite filter_cons. case_decide; [|by apply IH].
  simpl. apply StronglySorted_cons. split; [|by apply IH].
  rewrite Forall_forall in *. intros x Hx. apply Hall.
  apply list_elem_of_fmap in Hx as [e [-> He]].
  apply list_elem_of_filter in He as [_ He].
  apply list_elem_of_fmap. by exists e.
Qed.

Lemma keys_delete_bound (m : JsMap.t Callback) k n :
  Forall (λ k, k < n) (JsMap.keys m) →
  Forall (λ k, k < n) (JsMap.keys (JsMap.delete k m).2).
Proof.
  unfold JsMap.delete, JsMap.keys. simpl. rewrite !Forall_forall.
  intros Hall x Hx. apply Hall.
  apply list_elem_of_fmap in Hx as [e [-> He]].
  apply list_elem_of_filter in He as [_ He].
  apply list_elem_of_fmap. by exists e.
Qed.

Lemma bound_fresh (m : JsMap.t Callback) n :
  Forall (λ k, k < n) (JsMap.keys m) → n ∉ JsMap.keys m.
Proof.
  rewrite Forall_forall. intros Hall Hin. specialize (Hall n Hin). lia.
Qed.

Lemma ordered_update_topic topicId f mq :
  (∀ topic, getTopic topicId mq = Some topic →
     subscribers_ordered topic → subscribers_ordered (f topic)) →
  topics_ordered mq → topics_ordered (update_topic topicId f mq).
Proof.
  intros Hf Hwf. unfold topics_ordered, update_topic. simpl.
  by apply Forall_alter.
Qed.

Lemma ordered_with_buffer buffer topic :
  subscribers_ordered topic → subscribers_ordered (with_buffer buffer topic).
Proof. done. Qed.

Lemma ordered_registerTopic name :
  preserves (λ mq : Queue, topics_ordered mq) (registerTopic name).
Proof.
  intros mq Hwf. unfold registerTopic, state.
  destruct (topicIndex mq !! name); [done|]. simpl.
  unfold topics_ordered. simpl. apply Forall_app. split; [done|].
  apply Forall_singleton. split; simpl; constructor.
Qed.

Lemma ordered_subscribe topicId callback :
  preserves (λ mq : Queue, topics_ordered mq) (subscribe topicId callback).
Proof.
  intros mq Hwf. unfold subscribe, state.
  destruct (getTopic topicId mq) as [topic|] eqn:Hget; [|done]. simpl.
  apply ordered_update_topic; [|done].
  intros topic' Hget' [Hsorted Hbound]. rewrite Hget in Hget'. simplify_eq.
  unfold subscribers_ordered. simpl.
  rewrite JsMap_set_fresh by by apply bound_fresh.
  unfold JsMap.keys in *. rewrite fmap_app. simpl. split.
  - apply StronglySorted_app. split_and!; [|done|repeat constructor].
    intros x1 x2 Hx1 Hx2. apply list_elem_of_singleton in Hx2 as ->.
    rewrite Forall_forall in Hbound. by apply Hbound.
  - apply Forall_app. split.
    + eapply Forall_impl; [done|]. simpl. lia.
    + apply Forall_singleton. lia.
Qed.

Lemma ordered_unsubscribe topicId subId :
  preserves (λ mq : Queue, topics_ordered mq) (unsubscribe topicId subId).
Proof.
  intros mq Hwf. unfold unsubscribe, state.
  destruct (getTopic topicId mq) as [topic|] eqn:Hget; [|done].
  destruct (JsMap.delete subId (TopicState.subscribers topic)) as [found subs] eqn:E.
  simpl. apply ordered_update_topic; [|done].
  intros topic' Hget' [Hsorted Hbound]. rewrite Hget in Hget'.
  injection Hget' as <-.
  replace subs with (JsMap.delete subId (TopicState.subscribers topic)).2
    by by rewrite E.
  split; simpl; [by apply keys_delete_sorted | by apply keys_delete_bound].
Qed.

Lemma ordered_cleared topic :
  subscribers_ordered
    (with_subscribers (JsMap.clear (TopicState.subscribers topic)) topic).
Proof. split; simpl; constructor. Qed.

Lemma ordered_perform c mq :
  topics_ordered mq → topics_ordered (perform raises c mq).1.
Proof.
  intros Hwf.
  assert (Hseen : ∀ seen mq, topics_ordered mq →
            topics_ordered (with_seenIds seen mq)) by done.
  assert (Hbuf : ∀ topicId buffer mq, topics_ordered mq →
            topics_ordered (update_topic topicId (with_buffer buffer) mq)).
  { intros. apply ordered_update_topic; [|done].
    intros. by apply ordered_with_buffer. }
  destruct c; simpl.
  - by apply ordered_registerTopic.
  - by apply ordered_subscribe.
  - by apply ordered_unsubscribe.
  - unfold unsubscribeAll, state. destruct (getTopic _ _); simpl; [|done].
    apply ordered_update_topic; [|done]. intros. apply ordered_cleared.
  - by apply preserves_publish.
  - by apply preserves_publishBatchById.
  - unfold enableTopicBuffer, state. destruct (getTopic _ _); simpl; [|done].
    destruct (array_length_ok _); simpl; auto.
  - unfold disableTopicBuffer, state. destruct (getTopic _ _); simpl; auto.
  - unfold clearBuffer, state. destruct (getTopic _ _) as [topic|]; simpl; [|done].
    destruct (TopicState.buffer topic) as [buffer|]; simpl; auto.
  - unfold destroyTopic, state. destruct (getTopic _ _); simpl; [|done].
    apply ordered_update_topic; [|done]. intros.
    apply ordered_with_buffer, ordered_cleared.
  - constructor.
  - apply preserves_handleChannelMessage; try done.
    apply ordered_registerTopic.
Qed.

Lemma ordered_run calls : ∀ mq,
  topics_ordered mq → topics_ordered (run raises calls mq).1.
Proof.
  induction calls as [|c calls IH]; intros mq Hwf; [done|]. simpl.
  pose proof (ordered_perform c mq Hwf) as Hc.
  destruct (perform raises c mq) as [mq1 ev1]. simpl in Hc.
  specialize (IH mq1 Hc).
  by destruct (run raises calls mq1) as [mq2 ev2].
Qed.

(** In every state a queue can be in, the subscription ids of every topic
    increase along its subscriber table. *)
Lemma reachable_ordered mq : reachable raises mq → topics_ordered mq.
Proof.
  intros (uuid & has & channelName & calls & ->).
  apply ordered_run. constructor.
Qed.

(** ** Publishing to the subscribers of a topic *)

Lemma publish_closed mq uuid now topicId payload :
  isClosed mq = true →
  publish raises uuid now topicId payload mq = (Return (), mq, []).
Proof.
  intros Hclosed. unfold publish, bind, get.
  rewrite dispatchLocal_closed by done.
  by rewrite broadcast_closed.
Qed.

Lemma publish_unknown mq uuid now topicId payload :
  isClosed mq = false → getTopic topicId mq = None →
  publish raises uuid now topicId payload mq =
    (Return (), with_seenIds ({[uuid]} ∪ seenIds mq) mq, []).
Proof.
  intros Hopen Hnone. unfold publish, bind, get.
  rewrite dispatchLocal_unknown by done.
  by rewrite broadcast_unknown.
Qed.

(** [publish] throws in one case only: it reaches [postMessage] with a
    payload that cannot be cloned. *)
Lemma publish_outcome mq uuid now topicId payload :
  outcome (publish raises uuid now topicId payload mq) =
    if posts topicId mq && unclonable payload
    then Throw DataCloneError else Return ().
Proof.
  unfold posts. destruct (isClosed mq) eqn:Hclosed.
  - rewrite publish_closed by done. by rewrite andb_false_r.
  - destruct (getTopic topicId mq) as [topic|] eqn:Hget.
    + rewrite (publish_open _ _ _ _ _ topic) by done.
      unfold outcome, post_outcome. cbn [fst snd negb].
      rewrite (bool_decide_eq_true_2 (is_Some (Some topic))) by done.
      destruct (channel mq) as [name|].
      * by rewrite (bool_decide_eq_true_2 (is_Some (Some name))) by done.
      * by rewrite (bool_decide_eq_false_2 (is_Some None)) by by intros [? ?].
    + rewrite publish_unknown by done.
      rewrite (bool_decide_eq_false_2 (is_Some None)) by by intros [? ?].
      by rewrite andb_false_r.
Qed.

(** A [publish] that does not reach [postMessage], or whose payload can be
    cloned, returns. *)
Lemma publish_returns mq uuid now topicId payload :
  posts topicId mq && unclonable payload = false →
  outcome (publish raises uuid now topicId payload mq) = Return ().
Proof. intros H. by rewrite publish_outcome, H. Qed.

(** The error of a callback is never the error of [publish]. *)
Lemma publish_not_callback_error mq uuid now topicId payload callback :
  outcome (publish raises uuid now topicId payload mq) ≠
    Throw (CallbackError callback).
Proof. rewrite publish_outcome. by destruct (_ && _). Qed.

(** C3, as the code has it. On a queue that is not closed, one [publish] to
    a registered topic calls the callback of every entry of the topic's
    subscriber table once, in the order of the table, each with the same
    four arguments: the payload, the topic id, the timestamp and the id of
    the message. The order of the table is the order of registration: the
    subscription ids increase along the table, and a new subscription gets
    the next id, above all the ids in the table, and is entered last. The
    call ends as the [postMessage] that follows the dispatch ends. *)
Theorem C3_publish_invokes_subscribers_in_order
    mq uuid now topicId payload topic :
  reachable raises mq →
  isClosed mq = false →
  getTopic topicId mq = Some topic →
  let r := publish raises uuid now topicId payload mq in
  outcome r = post_outcome payload mq ∧
  invocations (events r) =
    (λ callback, Invoke callback payload topicId now uuid) <$>
      JsMap.values (TopicState.subscribers topic) ∧
  StronglySorted lt (JsMap.keys (TopicState.subscribers topic)) ∧
  Forall (λ k, k < TopicState.nextSubId topic)
    (JsMap.keys (TopicState.subscribers topic)) ∧
  (∀ callback,
     outcome (subscribe topicId callback mq) =
       Return (TopicState.nextSubId topic) ∧
     TopicState.subscribers <$>
         getTopic topicId (state (subscribe topicId callback mq)) =
       Some (TopicState.subscribers topic ++
               [(TopicState.nextSubId topic, callback)])).
Proof.
  intros Hreach Hopen Hget r. subst r.
  assert (Hord : subscribers_ordered topic).
  { apply reachable_ordered in Hreach. unfold topics_ordered in Hreach.
    rewrite Forall_lookup in Hreach. by apply (Hreach topicId). }
  destruct Hord as [Hsorted Hbound].
  rewrite (publish_open _ _ _ _ _ topic) by done.
  unfold outcome, events. cbn [fst snd].
  rewrite invocations_app, invocations_notifications, invocations_posted.
  rewrite app_nil_r. split_and!; try done.
  intros callback. unfold subscribe. rewrite Hget.
  unfold outcome, state. cbn [fst snd]. split; [done|].
  rewrite getTopic_update_topic, Hget. simpl.
  by rewrite JsMap_set_fresh by by apply bound_fresh.
Qed.

(** C4, as the code has it. On a queue that is not closed, when the
    callback of a subscriber of a registered topic raises, [publish] catches
    the error and reports it on the console, and the callbacks of all the
    subscribers after it in the table are still called, in order, as those
    before it were. The error of a callback is never the error of
    [publish]: it returns, unless the queue has a channel and the payload
    cannot be cloned, in which case the [postMessage] that follows the
    dispatch throws [DataCloneError]. *)
Theorem C4_failing_callback_is_isolated
    mq uuid now topicId payload topic before subId callback after :
  isClosed mq = false →
  getTopic topicId mq = Some topic →
  TopicState.subscribers topic = before ++ (subId, callback) :: after →
  raises callback payload topicId now uuid = true →
  let r := publish raises uuid now topicId payload mq in
  let invoke := λ callback, Invoke callback payload topicId now uuid in
  (∃ evs_before evs_after,
     events r =
       evs_before ++
       invoke callback :: ConsoleError (CallbackError callback) :: evs_after ∧
     invocations evs_before = invoke <$> JsMap.values before ∧
     invocations evs_after = invoke <$> JsMap.values after) ∧
  outcome r = post_outcome payload mq ∧
  (∀ other, outcome r ≠ Throw (CallbackError other)).
Proof.
  intros Hopen Hget Hsubs Hraises r invoke. subst r.
  set (msg := createMessage uuid now topicId payload mq).
  split_and!.
  - exists (notifications raises msg (JsMap.values before)),
      (notifications raises msg (JsMap.values after) ++ posted msg topic mq).
    split.
    + rewrite (publish_open _ _ _ _ _ topic) by done.
      unfold events. cbn [fst snd]. fold msg.
      rewrite Hsubs. unfold JsMap.values, notifications.
      rewrite fmap_app, bind_app. cbn [fmap list_fmap mbind list_bind].
      unfold notification at 2. unfold invoke_with. simpl.
      rewrite Hraises. by rewrite <- !app_assoc.
    + rewrite invocations_app, !invocations_notifications, invocations_posted.
      by rewrite app_nil_r.
  - by rewrite (publish_open _ _ _ _ _ topic) by done.
  - intros other. apply publish_not_callback_error.
Qed.

(** ** Registering topics *)

Lemma registerTopic_known mq name id :
  topicIndex mq !! name = Some id →
  registerTopic name mq = (Return id, mq, []).
Proof. intros H. unfold registerTopic. by rewrite H. Qed.

Lemma registerTopic_new mq name :
  topicIndex mq !! name = None →
  registerTopic name mq =
    (Return (length (topics mq)),
     with_topicIndex (<[name:=length (topics mq)]> (topicIndex mq))
       (with_topics
          (topics mq ++ [TopicState.mk (length (topics mq)) name [] None 0])
          mq),
     []).
Proof. intros H. unfold registerTopic. by rewrite H. Qed.

(** After [registerTopic] the name is in the index, with the id returned. *)
Lemma registerTopic_indexed mq name :
  ∃ id, outcome (registerTopic name mq) = Return id ∧
        events (registerTopic name mq) = [] ∧
        topicIndex (state (registerTopic name mq)) !! name = Some id.
Proof.
  destruct (topicIndex mq !! name) as [id|] eqn:E.
  - exists id. by rewrite (registerTopic_known _ _ id).
  - exists (length (topics mq)). rewrite registerTopic_new by done.
    unfold outcome, events, state. simpl. by rewrite lookup_insert_eq.
Qed.

Lemma indexed_registerTopic name id other :
  preserves (λ mq : Queue, topicIndex mq !! name = Some id)
    (registerTopic other).
Proof.
  intros mq H. destruct (topicIndex mq !! other) as [id'|] eqn:E.
  - by rewrite (registerTopic_known _ _ id').
  - rewrite registerTopic_new by done. unfold state. simpl.
    rewrite lookup_insert_ne; [done | congruence].
Qed.

(** No call but [close] takes a name out of the index or changes its id. *)
Lemma indexed_perform name id c mq :
  is_close c = false →
  topicIndex mq !! name = Some id →
  topicIndex (perform raises c mq).1 !! name = Some id.
Proof.
  intros Hc H. destruct c; simpl; try done.
  - by apply indexed_registerTopic.
  - unfold subscribe, state. by destruct (getTopic _ _).
  - unfold unsubscribe, state. destruct (getTopic _ _) as [topic|]; [|done].
    by destruct (JsMap.delete _ _).
  - unfold unsubscribeAll, state. by destruct (getTopic _ _).
  - by apply (preserves_publish (λ mq, topicIndex mq !! name = Some id)).
  - by apply (preserves_publishBatchById (λ mq, topicIndex mq !! name = Some id)).
  - unfold enableTopicBuffer, state. destruct (getTopic _ _); [|done].
    by destruct (array_length_ok _).
  - unfold disableTopicBuffer, state. by destruct (getTopic _ _).
  - unfold clearBuffer, state. destruct (getTopic _ _) as [topic|]; [|done].
    by destruct (TopicState.buffer topic).
  - unfold destroyTopic, state. by destruct (getTopic _ _).
  - apply (preserves_handleChannelMessage (λ mq, topicIndex mq !! name = Some id));
      try done.
    intros other. apply indexed_registerTopic.
Qed.

Lemma indexed_run name id calls : ∀ mq,
  forallb (λ c, negb (is_close c)) calls = true →
  topicIndex mq !! name = Some id →
  topicIndex (run raises calls mq).1 !! name = Some id.
Proof.
  induction calls as [|c calls IH]; intros mq Hcalls H; [done|]. simpl in *.
  apply andb_prop in Hcalls as [Hc Hcalls]. apply negb_true_iff in Hc.
  pose proof (indexed_perform name id c mq Hc H) as H1.
  destruct (perform raises c mq) as [mq1 ev1]. simpl in H1.
  specialize (IH mq1 Hcalls H1).
  by destruct (run raises calls mq1) as [mq2 ev2].
Qed.

(** New names, registered one after the other, get the ids that follow the
    ids in use. *)
Lemma register_all_new names : ∀ mq,
  NoDup names →
  (∀ name, name ∈ names → topicIndex mq !! name = None) →
  (register_all names mq).1 = seq (length (topics mq)) (length names).
Proof.
  induction names as [|name names IH]; intros mq Hnodup Hnew; [done|].
  apply NoDup_cons in Hnodup as [Hname Hnodup]. simpl.
  rewrite registerTopic_new by (apply Hnew; left).
  set (mq1 := with_topicIndex _ _).
  specialize (IH mq1 Hnodup).
  destruct (register_all names mq1) as [ids mq2]. simpl in *. f_equal.
  rewrite IH.
  - subst mq1. simpl. rewrite length_app. simpl. f_equal. lia.
  - intros name' Hin. subst mq1. simpl.
    rewrite lookup_insert_ne; [apply Hnew; by right | congruence].
Qed.

(** C5. [registerTopic] called again with the same name returns the same id
    and changes nothing, also after [destroyTopic] on that topic and after
    any calls other than [close]; names that are pairwise distinct,
    registered on a new queue, get the ids 0, 1, 2, ... in the order of
    registration. *)
Theorem C5_register_topic_idempotent_dense
    mq name calls uuid hasBroadcastChannel channelName names :
  let r := registerTopic name mq in
  (∃ id,
     outcome r = Return id ∧
     registerTopic name (state r) = (Return id, state r, []) ∧
     outcome (registerTopic name (state (destroyTopic id (state r)))) =
       Return id ∧
     (forallb (λ c, negb (is_close c)) calls = true →
      outcome (registerTopic name (run raises calls (state r)).1) =
        Return id)) ∧
  (NoDup names →
   (register_all names
      (new (Payload:=Payload) (Callback:=Callback)
         uuid hasBroadcastChannel channelName)).1 =
     seq 0 (length names)).
Proof.
  intros r. subst r. split.
  - destruct (registerTopic_indexed mq name) as (id & Hout & _ & Hix).
    exists id. split_and!; [done| | |].
    + by apply registerTopic_known.
    + rewrite (registerTopic_known _ _ id); [done|].
      unfold destroyTopic, state at 1. by destruct (getTopic _ _).
    + intros Hcalls. rewrite (registerTopic_known _ _ id); [done|].
      by apply indexed_run.
  - intros Hnodup. by rewrite register_all_new.
Qed.

(** ** Messages from the channel *)

Lemma not_post_notifications msg callbacks ev :
  ev ∈ notifications raises msg callbacks → is_post ev = false.
Proof.
  unfold notifications. intros Hin.
  apply list_elem_of_bind in Hin as (callback & Hin & _).
  unfold notification in Hin.
  apply elem_of_cons in Hin as [->|Hin]; [done|].
  destruct (raises _ _ _ _ _).
  - by apply list_elem_of_singleton in Hin as ->.
  - by apply elem_of_nil in Hin.
Qed.

Lemma dispatchLocal_cases msg mq :
  ∃ mq' callbacks,
    dispatchLocal raises msg mq =
      (Return (), mq', notifications raises msg callbacks).
Proof.
  destruct (isClosed mq) eqn:Hclosed.
  - exists mq, []. by apply dispatchLocal_closed.
  - destruct (getTopic (Message.topic_id msg) mq) as [topic|] eqn:Hget.
    + eexists _, _. by apply dispatchLocal_known.
    + exists (with_seenIds ({[Message.id msg]} ∪ seenIds mq) mq), [].
      by apply dispatchLocal_unknown.
Qed.

(** The message that [handleChannelMessage] builds from what it received
    and the topic id it resolved. *)
Lemma handleChannelMessage_open mq wireMsg :
  isClosed mq = false →
  Message.id (WireMsg.msg wireMsg) ∉ seenIds mq →
  Message.origin_id (WireMsg.msg wireMsg) ≠ clientId mq →
  let wire := WireMsg.msg wireMsg in
  let mq1 := with_seenIds ({[Message.id wire]} ∪ seenIds mq) mq in
  let registered := registerTopic (WireMsg.topic_name wireMsg) mq1 in
  ∃ topicId,
    outcome registered = Return topicId ∧
    handleChannelMessage raises (Data 0 wireMsg) mq =
      dispatchLocal raises (local_message wire topicId) (state registered).
Proof.
  intros Hopen Hseen Horigin. cbv zeta.
  set (wire := WireMsg.msg wireMsg) in *.
  set (mq1 := with_seenIds ({[Message.id wire]} ∪ seenIds mq) mq).
  destruct (registerTopic_indexed mq1 (WireMsg.topic_name wireMsg))
    as (topicId & Hout & Hev & _).
  exists topicId. split; [done|].
  unfold handleChannelMessage. unfold bind at 1. unfold get at 1.
  rewrite Hopen. rewrite bool_decide_eq_true_2 by done.
  fold wire. rewrite bool_decide_eq_false_2 by done.
  unfold bind at 1. unfold modify at 1.
  rewrite bool_decide_eq_false_2 by done.
  unfold bind. fold mq1.
  unfold outcome, events, state in *.
  destruct (registerTopic (WireMsg.topic_name wireMsg) mq1) as [[o mq2] ev].
  simpl in *. subst o ev.
  by destruct (dispatchLocal _ _ _) as [[o mq3] ev3].
Qed.

Lemma handleChannelMessage_ignored mq data :
  isClosed mq = true ∨
  data = NotArray ∨
  (∃ type wireMsg, data = Data type wireMsg ∧ type ≠ 0%Z) ∨
  (∃ wireMsg, data = Data 0 wireMsg ∧
     Message.id (WireMsg.msg wireMsg) ∈ seenIds mq) →
  handleChannelMessage raises data mq = (Return (), mq, []).
Proof.
  intros Hcase. unfold handleChannelMessage. unfold_monad.
  destruct (isClosed mq); [done|].
  destruct Hcase as [?|[->|[(type & wireMsg & -> & Hne)|(wireMsg & -> & Hin)]]];
    [done|done| |].
  - by rewrite bool_decide_eq_false_2.
  - rewrite bool_decide_eq_true_2 by done.
    by rewrite bool_decide_eq_true_2.
Qed.

Lemma handleChannelMessage_own mq wireMsg :
  isClosed mq = false →
  Message.id (WireMsg.msg wireMsg) ∉ seenIds mq →
  Message.origin_id (WireMsg.msg wireMsg) = clientId mq →
  handleChannelMessage raises (Data 0 wireMsg) mq =
    (Return (),
     with_seenIds ({[Message.id (WireMsg.msg wireMsg)]} ∪ seenIds mq) mq, []).
Proof.
  intros Hopen Hseen Horigin. unfold handleChannelMessage. unfold_monad.
  rewrite Hopen. rewrite bool_decide_eq_true_2 by done.
  rewrite bool_decide_eq_false_2 by done.
  by rewrite bool_decide_eq_true_2.
Qed.

Lemma seen_dispatched msg topic mq :
  Message.id msg ∈ seenIds (dispatched msg topic mq).
Proof.
  unfold dispatched. destruct (TopicState.buffer topic); simpl; set_solver.
Qed.

Lemma seen_dispatchLocal msg mq :
  isClosed mq = false →
  Message.id msg ∈ seenIds (state (dispatchLocal raises msg mq)).
Proof.
  intros Hopen.
  destruct (getTopic (Message.topic_id msg) mq) as [topic|] eqn:Hget.
  - rewrite (dispatchLocal_known _ _ topic) by done. apply seen_dispatched.
  - rewrite dispatchLocal_unknown by done. unfold state. simpl. set_solver.
Qed.

(** C6, as the code has it. A message from the channel changes nothing and
    calls nobody when the queue is closed, when its kind is not 0 and when
    its id has been seen. Otherwise the id joins the seen ids; when the
    message comes from this very queue (its origin is the queue's client
    id) nothing more happens; when it comes from another queue the topic is
    resolved by name, or registered when the name is new, and the message,
    with the local topic id, is dispatched to the local subscribers. Nothing
    is ever posted to the channel. *)
Theorem C6_handle_channel_message mq data :
  let r := handleChannelMessage raises data mq in
  outcome r = Return () ∧
  (∀ ev, ev ∈ events r → is_post ev = false) ∧
  (isClosed mq = true → state r = mq ∧ events r = []) ∧
  (∀ type wireMsg,
     data = Data type wireMsg → type ≠ 0%Z → state r = mq ∧ events r = []) ∧
  (∀ wireMsg,
     data = Data 0 wireMsg →
     Message.id (WireMsg.msg wireMsg) ∈ seenIds mq →
     state r = mq ∧ events r = []) ∧
  (∀ wireMsg,
     data = Data 0 wireMsg →
     isClosed mq = false →
     Message.id (WireMsg.msg wireMsg) ∉ seenIds mq →
     let wire := WireMsg.msg wireMsg in
     let name := WireMsg.topic_name wireMsg in
     let mq1 := with_seenIds ({[Message.id wire]} ∪ seenIds mq) mq in
     (Message.origin_id wire = clientId mq →
        state r = mq1 ∧ events r = []) ∧
     (Message.origin_id wire ≠ clientId mq →
        Message.id wire ∈ seenIds (state r) ∧
        (∀ topicId topic,
           topicIndex mq !! name = Some topicId →
           getTopic topicId mq = Some topic →
           state r = dispatched (local_message wire topicId) topic mq1 ∧
           events r =
             notifications raises (local_message wire topicId)
               (JsMap.values (TopicState.subscribers topic))) ∧
        (topicIndex mq !! name = None →
           let topicId := length (topics mq) in
           topics (state r) =
             topics mq ++ [TopicState.mk topicId name [] None 0] ∧
           topicIndex (state r) = <[name:=topicId]> (topicIndex mq) ∧
           events r = []))).
Proof.
  intros r. subst r. split_and!.
  - unfold handleChannelMessage. unfold_monad.
    destruct (isClosed mq); [done|]. destruct data as [|type wireMsg]; [done|].
    destruct (bool_decide (type = 0%Z)); [|done]. simpl.
    destruct (bool_decide (_ ∈ _)); [done|].
    destruct (bool_decide (_ = _)); [done|].
    destruct (registerTopic _ _) as [[[topicId|e] mq2] ev2] eqn:Hreg.
    + destruct (dispatchLocal_cases (local_message (WireMsg.msg wireMsg) topicId) mq2)
        as (mq3 & cbs & ->). done.
    + destruct (registerTopic_indexed
        (with_seenIds ({[Message.id (WireMsg.msg wireMsg)]} ∪ seenIds mq) mq)
        (WireMsg.topic_name wireMsg)) as (id & Hout & _).
      unfold outcome in Hout. rewrite Hreg in Hout. done.
  - intros ev Hev.
    destruct (isClosed mq) eqn:Hopen.
    { rewrite handleChannelMessage_ignored in Hev by auto.
      by apply elem_of_nil in Hev. }
    destruct data as [|type wireMsg].
    { rewrite handleChannelMessage_ignored in Hev by auto.
      by apply elem_of_nil in Hev. }
    destruct (decide (type = 0%Z)) as [->|Hne]; last first.
    { rewrite handleChannelMessage_ignored in Hev by eauto 10.
      by apply elem_of_nil in Hev. }
    destruct (decide (Message.id (WireMsg.msg wireMsg) ∈ seenIds mq)) as [Hin|Hnin].
    { rewrite handleChannelMessage_ignored in Hev by eauto 10.
      by apply elem_of_nil in Hev. }
    destruct (decide (Message.origin_id (WireMsg.msg wireMsg) = clientId mq))
      as [Hown|Hother].
    { rewrite handleChannelMessage_own in Hev by done.
      by apply elem_of_nil in Hev. }
    destruct (handleChannelMessage_open mq wireMsg Hopen Hnin Hother)
      as (topicId & _ & Heq).
    rewrite Heq in Hev.
    destruct (dispatchLocal_cases (local_message (WireMsg.msg wireMsg) topicId)
      (state (registerTopic (WireMsg.topic_name wireMsg)
         (with_seenIds ({[Message.id (WireMsg.msg wireMsg)]} ∪ seenIds mq) mq))))
      as (mq3 & cbs & Hd).
    rewrite Hd in Hev. by apply not_post_notifications in Hev.
  - intros Hclosed. by rewrite handleChannelMessage_ignored by auto.
  - intros type wireMsg -> Hne.
    by rewrite handleChannelMessage_ignored by eauto 10.
  - intros wireMsg -> Hin.
    by rewrite handleChannelMessage_ignored by eauto 10.
  - intros wireMsg -> Hopen Hnin wire name mq1. split.
    + intros Hown. by rewrite handleChannelMessage_own.
    + intros Hother.
      destruct (handleChannelMessage_open mq wireMsg Hopen Hnin Hother)
        as (topicId & Hout & Heq).
      fold wire mq1 name in Hout, Heq. rewrite Heq. split_and!.
      * apply (seen_dispatchLocal (local_message wire topicId)).
        destruct (topicIndex mq !! name) as [known|] eqn:Hix.
        -- by rewrite (registerTopic_known mq1 name known).
        -- by rewrite (registerTopic_new mq1 name).
      * intros known topic Hix Hget.
        rewrite (registerTopic_known mq1 name known) in * by done.
        unfold outcome in Hout. simpl in Hout. injection Hout as <-.
        unfold state, events. cbn [fst snd].
        assert (Hopen1 : isClosed mq1 = false) by exact Hopen.
        assert (Hget1 : getTopic
                  (Message.topic_id (local_message wire known)) mq1 = Some topic)
          by exact Hget.
        by rewrite (dispatchLocal_known _ _ topic Hopen1 Hget1).
      * intros Hix topicId'. subst topicId'.
        rewrite (registerTopic_new mq1 name) in * by done.
        unfold outcome in Hout. simpl in Hout. injection Hout as <-.
        unfold state, events. cbn [fst snd].
        set (mq2 := with_topicIndex _ _).
        assert (Hget : getTopic (length (topics mq)) mq2 =
                  Some (TopicState.mk (length (topics mq)) name [] None 0)).
        { unfold getTopic. subst mq2. simpl.
          by rewrite lookup_app_r, Nat.sub_diag by lia. }
        assert (Hopen2 : isClosed mq2 = false) by exact Hopen.
        rewrite (dispatchLocal_known (local_message wire (length (topics mq)))
                   mq2 _ Hopen2 Hget).
        unfold dispatched. by simpl.
Qed.

(** ** Closing the queue *)

Lemma subscribe_unknown mq topicId callback :
  getTopic topicId mq = None →
  subscribe topicId callback mq = (Throw (TopicNotFound topicId), mq, []).
Proof. intros H. unfold subscribe. by rewrite H. Qed.

Lemma close_topic_cleared topic :
  TopicState.subscribers (close_topic topic) = [] ∧
  ∀ buffer, TopicState.buffer (close_topic topic) = Some buffer →
    RingBuffer.len buffer = 0 ∧ RingBuffer.getAll buffer = [].
Proof.
  split; [done|]. intros buffer. unfold close_topic. simpl.
  destruct (TopicState.buffer topic) as [old|]; [|done].
  by intros [= <-].
Qed.

Lemma close_eq mq :
  close mq =
    (Return (), MessageQueue.mk [] ∅ None (clientId mq) ∅ true,
     match channel mq with
     | Some name => [ChannelClose name]
     | None => []
     end).
Proof. done. Qed.

(** C7, as the code has it. [close] marks the queue closed, closes and
    drops the channel handle, clears the subscriber table and the buffer of
    every topic, drops the topics and the name index and clears the seen
    ids. On the queue it leaves, [publish] returns normally, changes nothing
    and causes no event; [subscribe] changes nothing and causes no event
    either, but throws, as no topic id is registered any more. *)
Theorem C7_close_then_publish_subscribe mq calls :
  let r := close mq in
  outcome r = Return () ∧
  state r = MessageQueue.mk [] ∅ None (clientId mq) ∅ true ∧
  events r =
    match channel mq with
    | Some name => [ChannelClose name]
    | None => []
    end ∧
  Forall (λ topic,
      TopicState.subscribers topic = [] ∧
      ∀ buffer, TopicState.buffer topic = Some buffer →
        RingBuffer.len buffer = 0 ∧ RingBuffer.getAll buffer = [])
    (close_topic <$> topics mq) ∧
  (∀ uuid now topicId payload,
     publish raises uuid now topicId payload (state r) =
       (Return (), state r, [])) ∧
  (∀ topicId callback,
     subscribe topicId callback (state r) =
       (Throw (TopicNotFound topicId), state r, [])) ∧
  (forallb is_publish_or_subscribe calls = true →
     run raises calls (state r) = (state r, [])).
Proof.
  intros r. subst r. rewrite close_eq. unfold outcome, state, events.
  cbn [fst snd].
  set (closed := MessageQueue.mk [] ∅ None (clientId mq) ∅ true).
  assert (Hpub : ∀ uuid now topicId payload,
            publish raises uuid now topicId payload closed = (Return (), closed, [])).
  { intros. by apply publish_closed. }
  assert (Hsub : ∀ topicId callback,
            subscribe topicId callback closed =
              (Throw (TopicNotFound topicId), closed, [])).
  { intros. by apply subscribe_unknown. }
  split_and!; try done.
  - apply Forall_fmap, Forall_forall. intros topic _.
    apply close_topic_cleared.
  - induction calls as [|c calls IH]; [done|]. simpl.
    intros Hcalls. apply andb_prop in Hcalls as [Hc Hcalls].
    destruct c; try done; simpl.
    + rewrite Hsub. unfold effect, state, events. simpl.
      by rewrite (IH Hcalls).
    + rewrite Hpub. unfold effect, state, events. simpl.
      by rewrite (IH Hcalls).
Qed.
End queue.
End MessageQueueFacts.

(** * The properties on the example queues *)

Module Instances.
Import MessageQueue Examples RingBufferFacts MessageQueueFacts.

(** The topic [news] of the queue [subscribed]. *)
Lemma subscribed_news :
  getTopic 0 subscribed =
    Some (TopicState.mk 0 "news" [(0, 13); (1, 8)]
            (Some (RingBuffer.new 2)) 2).
Proof. reflexivity. Qed.

Lemma subscribed_reachable : reachable failing subscribed.
Proof. exists "client-a", true, (Some "app"), setup. reflexivity. Qed.

Lemma reopened_reachable : reachable failing reopened.
Proof. exists "client-a", true, (Some "app"), reopening. reflexivity. Qed.

(** ** C1 *)

(** C1 as stated fails. On the new queue no topic has the id 3; [publish]
    to it returns normally instead of throwing, and the queue is not as
    before: the id of the message is among the seen ids. *)
Lemma C1_publish_unknown_does_not_throw :
  getTopic 3 fresh = None ∧
  outcome (publish failing "m-1" 1000 3 5 fresh) = Return () ∧
  outcome (publish failing "m-1" 1000 3 5 fresh) ≠ Throw (TopicNotFound 3) ∧
  ("m-1" ∉ seenIds fresh) ∧
  "m-1" ∈ seenIds (state (publish failing "m-1" 1000 3 5 fresh)) ∧
  state (publish failing "m-1" 1000 3 5 fresh) ≠ fresh.
Proof.
  assert (Hin : "m-1" ∈ seenIds (state (publish failing "m-1" 1000 3 5 fresh))).
  { compute_done. }
  assert (Hnin : "m-1" ∉ seenIds fresh) by (simpl; set_solver).
  split_and!; [done..|].
  intros Heq. by rewrite Heq in Hin.
Qed.

Lemma C1_publish_unknown_topic_witness :
  getTopic 3 fresh = None ∧
  publish failing "m-1" 1000 3 5 fresh =
    (Return (), with_seenIds ({["m-1"]} ∪ seenIds fresh) fresh, []).
Proof.
  split; [reflexivity|].
  exact (C1_publish_unknown_topic failing fresh "m-1" 1000 3 5 eq_refl).
Defined.

(** ** C2 *)

Lemma C2_ring_buffer_keeps_last_witness :
  (0 = 0 ∧
   RingBuffer.push 4 (RingBuffer.push_all [1; 2; 3] (RingBuffer.new 0)) =
     (Some 4, RingBuffer.push_all [1; 2; 3] (RingBuffer.new 0))) ∧
  (0 < 2 ∧ 2 ≤ length [1; 2; 3] ∧
   RingBuffer.getAll (RingBuffer.push_all [1; 2; 3] (RingBuffer.new 2)) = [2; 3] ∧
   (RingBuffer.push 4 (RingBuffer.push_all [1; 2; 3] (RingBuffer.new 2))).1 =
     Some 2).
Proof.
  split.
  - split; [reflexivity|].
    exact (proj1 (proj1 (proj2 (proj2
      (C2_ring_buffer_keeps_last 0 [1; 2; 3] 4))) eq_refl)).
  - assert (Hpos : 0 < 2) by lia.
    assert (Hfull : 2 ≤ length [1; 2; 3]) by (simpl; lia).
    split; [exact Hpos|]. split; [exact Hfull|]. split.
    + exact (proj1 (C2_ring_buffer_keeps_last 2 [1; 2; 3] 4)).
    + exact (proj1 (proj2 (proj2 (proj2 (proj2
        (C2_ring_buffer_keeps_last 2 [1; 2; 3] 4))) Hpos Hfull))).
Defined.

(** ** C3 *)

(** C3 as stated fails. The queue [reopened] was closed before its topic
    was registered and subscribed to: the topic has two subscribers, and
    [publish] to it calls neither. *)
Lemma C3_closed_queue_invokes_nobody :
  reachable failing reopened ∧
  getTopic 0 reopened =
    Some (TopicState.mk 0 "news" [(0, 7); (1, 8)] None 2) ∧
  events (publish failing "m-1" 1000 0 5 reopened) = [] ∧
  invocations (events (publish failing "m-1" 1000 0 5 reopened)) ≠
    [Invoke 7 5 0 1000 "m-1"; Invoke 8 5 0 1000 "m-1"].
Proof.
  split; [apply reopened_reachable|]. split; [reflexivity|].
  split; [reflexivity|]. discriminate.
Qed.

Lemma C3_publish_invokes_subscribers_in_order_witness :
  reachable failing subscribed ∧
  isClosed subscribed = false ∧
  getTopic 0 subscribed =
    Some (TopicState.mk 0 "news" [(0, 13); (1, 8)]
            (Some (RingBuffer.new 2)) 2) ∧
  invocations (events (publish failing "m-1" 1000 0 5 subscribed)) =
    [Invoke 13 5 0 1000 "m-1"; Invoke 8 5 0 1000 "m-1"].
Proof.
  split; [apply subscribed_reachable|]. split; [reflexivity|].
  split; [reflexivity|].
  exact (proj1 (proj2
    (C3_publish_invokes_subscribers_in_order failing subscribed "m-1" 1000 0 5
       _ subscribed_reachable eq_refl subscribed_news))).
Defined.

(** ** C4 *)

(** C4 as stated fails. The queue [shut] was closed before its topic was
    registered and subscribed to: the first subscriber of the topic is one
    whose callback raises, and [publish] does not call the subscriber after
    it. And [publish] does fail on the queue [subscribed], which has a
    channel, when the payload cannot be cloned: the error is the channel's,
    not the callback's. *)
Lemma C4_closed_queue_skips_later_subscribers :
  reachable failing shut ∧
  getTopic 0 shut = Some (TopicState.mk 0 "news" [(0, 13); (1, 8)] None 2) ∧
  failing 13 5 0 1000 "m-1" = true ∧
  events (publish failing "m-1" 1000 0 5 shut) = [] ∧
  (Invoke 8 5 0 1000 "m-1" ∉ events (publish failing "m-1" 1000 0 5 shut)) ∧
  unclonable 99 = true ∧
  outcome (publish failing "m-1" 1000 0 99 subscribed) = Throw DataCloneError ∧
  outcome (publish failing "m-1" 1000 0 99 subscribed) ≠ Return ().
Proof.
  split.
  { exists "client-a", true, (Some "app"), shutting. reflexivity. }
  split; [reflexivity|]. split; [reflexivity|]. split; [reflexivity|].
  split; [apply not_elem_of_nil|]. split; [reflexivity|].
  split; [reflexivity | discriminate].
Qed.

Lemma C4_failing_callback_is_isolated_witness :
  isClosed subscribed = false ∧
  getTopic 0 subscribed =
    Some (TopicState.mk 0 "news" [(0, 13); (1, 8)]
            (Some (RingBuffer.new 2)) 2) ∧
  failing 13 5 0 1000 "m-1" = true ∧
  (∃ evs_before evs_after,
     events (publish failing "m-1" 1000 0 5 subscribed) =
       evs_before ++
       Invoke 13 5 0 1000 "m-1" :: ConsoleError (CallbackError 13) :: evs_after ∧
     invocations evs_before = [] ∧
     invocations evs_after = [Invoke 8 5 0 1000 "m-1"]) ∧
  outcome (publish failing "m-1" 1000 0 5 subscribed) = Return ().
Proof.
  pose proof
    (C4_failing_callback_is_isolated failing subscribed "m-1" 1000 0 5
       _ [] 0 13 [(1, 8)] eq_refl subscribed_news eq_refl eq_refl)
    as (Hafter & Hout & _).
  split; [reflexivity|]. split; [reflexivity|]. split; [reflexivity|].
  split; [exact Hafter | exact Hout].
Defined.

(** ** C5 *)

Lemma C5_register_topic_idempotent_dense_witness :
  forallb (λ c : Call nat nat, negb (is_close c))
    [CallDestroyTopic 0; CallRegisterTopic "sports"; CallPublish "m-1" 1000 0 5]
    = true ∧
  NoDup ["a"; "b"; "c"] ∧
  (register_all ["a"; "b"; "c"] (new (Payload:=nat) (Callback:=nat)
     "client-a" true (Some "app"))).1 = [0; 1; 2] ∧
  ∃ id,
    outcome (registerTopic "news" subscribed) = Return id ∧
    outcome (registerTopic "news"
      (run failing
         [CallDestroyTopic 0; CallRegisterTopic "sports";
          CallPublish "m-1" 1000 0 5]
         (state (registerTopic "news" subscribed))).1) = Return id.
Proof.
  assert (Hnodup : NoDup ["a"; "b"; "c"]) by compute_done.
  split; [reflexivity|]. split; [exact Hnodup|]. split.
  - exact (proj2
      (C5_register_topic_idempotent_dense failing subscribed "news"
         [CallDestroyTopic 0; CallRegisterTopic "sports";
          CallPublish "m-1" 1000 0 5]
         "client-a" true (Some "app") ["a"; "b"; "c"]) Hnodup).
  - destruct (proj1
      (C5_register_topic_idempotent_dense failing subscribed "news"
         [CallDestroyTopic 0; CallRegisterTopic "sports";
          CallPublish "m-1" 1000 0 5]
         "client-a" true (Some "app") ["a"; "b"; "c"]))
      as (id & Hid & _ & _ & Hcalls).
    exists id. split; [exact Hid | exact (Hcalls eq_refl)].
Defined.

(** ** C6 *)

(** C6 as stated fails. A message of kind 0 with an id not seen before,
    whose origin is the queue's own client id: the id joins the seen ids,
    but the subscribers of the topic [news] are not called and nothing else
    changes. *)
Lemma C6_own_message_is_not_dispatched :
  isClosed subscribed = false ∧
  ("m-9" ∉ seenIds subscribed) ∧
  topicIndex subscribed !! "news" = Some 0 ∧
  getTopic 0 subscribed =
    Some (TopicState.mk 0 "news" [(0, 13); (1, 8)]
            (Some (RingBuffer.new 2)) 2) ∧
  events (handleChannelMessage failing (Data 0 echo) subscribed) = [] ∧
  topics (state (handleChannelMessage failing (Data 0 echo) subscribed)) =
    topics subscribed ∧
  invocations (events (handleChannelMessage failing (Data 0 echo) subscribed)) ≠
    [Invoke 13 5 0 1000 "m-9"; Invoke 8 5 0 1000 "m-9"].
Proof.
  split; [reflexivity|]. split; [compute_done|].
  split; [reflexivity|]. split; [reflexivity|]. split; [reflexivity|].
  split; [reflexivity|]. discriminate.
Qed.

Lemma C6_handle_channel_message_witness :
  Data 0 foreign = Data 0 foreign ∧
  isClosed subscribed = false ∧
  ("m-9" ∉ seenIds subscribed) ∧
  "client-b" ≠ clientId subscribed ∧
  topicIndex subscribed !! "sports" = None ∧
  topics (state (handleChannelMessage failing (Data 0 foreign) subscribed)) =
    topics subscribed ++ [TopicState.mk 1 "sports" [] None 0] ∧
  topicIndex (state (handleChannelMessage failing (Data 0 foreign) subscribed)) =
    <["sports":=1]> (topicIndex subscribed) ∧
  events (handleChannelMessage failing (Data 0 foreign) subscribed) = [].
Proof.
  assert (Hseen : "m-9" ∉ seenIds subscribed) by compute_done.
  assert (Horigin : "client-b" ≠ clientId subscribed) by discriminate.
  split; [reflexivity|]. split; [reflexivity|]. split; [exact Hseen|].
  split; [exact Horigin|]. split; [reflexivity|].
  exact (proj2 (proj2 (proj2
    (proj2 (proj2 (proj2 (proj2 (proj2
      (C6_handle_channel_message failing subscribed (Data 0 foreign))))))
      foreign eq_refl eq_refl Hseen) Horigin)) eq_refl).
Defined.

(** ** C7 *)

(** C7 as stated fails. After [close], [subscribe] throws to its caller. *)
Lemma C7_subscribe_after_close_throws :
  outcome (subscribe 0 7 (state (close subscribed))) =
    Throw (TopicNotFound 0) ∧
  outcome (subscribe 0 7 (state (close subscribed))) ≠ Return 0 ∧
  outcome (subscribe 0 7 (state (close fresh))) = Throw (TopicNotFound 0).
Proof. split; [reflexivity|]. split; [discriminate | reflexivity]. Qed.

Lemma C7_close_then_publish_subscribe_witness :
  forallb (is_publish_or_subscribe (Payload:=nat) (Callback:=nat))
    [CallPublish "m-1" 1000 0 5; CallSubscribe 0 7] = true ∧
  run failing [CallPublish "m-1" 1000 0 5; CallSubscribe 0 7]
    (state (close subscribed)) = (state (close subscribed), []).
Proof.
  split; [reflexivity|].
  exact (proj2 (proj2 (proj2 (proj2 (proj2 (proj2
    (C7_close_then_publish_subscribe failing subscribed
       [CallPublish "m-1" 1000 0 5; CallSubscribe 0 7])))))) eq_refl).
Defined.

(** ** C8 *)

Lemma C8_unknown_ids_are_no_ops_witness :
  (getTopic 3 subscribed = None ∧
   unsubscribe 3 0 subscribed = (Return false, subscribed, []) ∧
   destroyTopic 3 subscribed = (Return false, subscribed, [])) ∧
  ((9 ∉ JsMap.keys [(0, 13); (1, 8)]) ∧
   unsubscribe 0 9 subscribed = (Return false, subscribed, [])).
Proof.
  split.
  - split; [reflexivity|].
    pose proof (proj1 (C8_unknown_ids_are_no_ops subscribed 3 0) eq_refl)
      as (Hunsub & Hdestroy & _).
    split; [exact Hunsub | exact Hdestroy].
  - assert (Hsub : 9 ∉ JsMap.keys [(0, 13); (1, 8)]) by compute_done.
    split; [exact Hsub|].
    exact (proj2 (C8_unknown_ids_are_no_ops subscribed 0 9) _
             subscribed_news Hsub).
Defined.

(** ** C9 *)

Lemma C9_destroy_topic_soft_delete_witness :
  (getTopic 0 buffered =
     Some (TopicState.mk 0 "news" [(0, 13); (1, 8)]
             (Some (RingBuffer.push_all
                [Message.mk "m-1" 0 "client-a" 5 1000;
                 Message.mk "m-2" 0 "client-a" 6 1001]
                (RingBuffer.new 2))) 2) ∧
   outcome (destroyTopic 0 buffered) = Return true ∧
   getTopic 0 (state (destroyTopic 0 buffered)) =
     Some (TopicState.mk 0 "news" [] None 2) ∧
   topicIndex (state (destroyTopic 0 buffered)) = topicIndex buffered) ∧
  (length (topics buffered) ≤ 5 ∧
   destroyTopic 5 buffered = (Return false, buffered, [])).
Proof.
  split.
  - split; [reflexivity|].
    pose proof (proj1 (C9_destroy_topic_soft_delete buffered 0) _ eq_refl)
      as (Hout & _ & Hget & _ & _ & Hindex & _).
    split; [exact Hout|]. split; [exact Hget | exact Hindex].
  - assert (Hrange : length (topics buffered) ≤ 5) by (vm_compute; lia).
    split; [exact Hrange|].
    exact (proj2 (C9_destroy_topic_soft_delete buffered 5) Hrange).
Defined.

(** ** C10 *)

(** C10 as stated fails. [huge], that is [2 ** 32], is a capacity and not
    the length of an array: [enableTopicBuffer] throws, and the topic keeps
    its buffer and the two messages in it. *)
Lemma C10_huge_capacity_throws :
  getBufferedMessages 0 buffered = [5; 6] ∧
  enableTopicBuffer 0 (Some huge) buffered =
    (Throw (InvalidArrayLength huge), buffered, []) ∧
  outcome (enableTopicBuffer 0 (Some huge) buffered) ≠ Return () ∧
  getBufferSize 0 (state (enableTopicBuffer 0 (Some huge) buffered)) = 2 ∧
  getBufferedMessages 0 (state (enableTopicBuffer 0 (Some huge) buffered)) =
    [5; 6].
Proof.
  assert (Hlarge : (2 ^ 32 ≤ Z.of_nat huge)%Z).
  { unfold huge. rewrite Z2Nat.id; lia. }
  pose proof (enableTopicBuffer_too_large buffered 0 huge _ eq_refl Hlarge)
    as Hthrow.
  rewrite Hthrow. unfold outcome, state. cbn [fst snd].
  split; [reflexivity|]. split; [reflexivity|].
  split; [discriminate|]. split; reflexivity.
Qed.

Lemma C10_enable_buffer_again_resets_witness :
  getBufferedMessages 0 buffered = [5; 6] ∧
  (Z.of_nat 100 < 2 ^ 32)%Z ∧
  getBufferSize 0 (state (enableTopicBuffer 0 None buffered)) = 0 ∧
  getBufferCapacity 0 (state (enableTopicBuffer 0 None buffered)) = 100 ∧
  getBufferedMessages 0 (state (enableTopicBuffer 0 None buffered)) = [].
Proof.
  assert (Hsmall : (Z.of_nat 100 < 2 ^ 32)%Z) by lia.
  split; [reflexivity|]. split; [exact Hsmall|].
  pose proof (proj1 (C10_enable_buffer_again_resets buffered 0 None _ _
                eq_refl eq_refl) Hsmall)
    as (_ & _ & _ & Hsize & Hcapacity & Hmessages & _).
  split; [exact Hsize|]. split; [exact Hcapacity | exact Hmessages].
Defined.
End Instances.

(** * More on the ring buffer *)

Module RingBufferOpsFacts.
Import RingBuffer RingBufferOps RingBufferFacts.
Section ops.
Context {T : Type}.
Implicit Types (b : RingBuffer.t T) (l : list T) (x : T) (ops : list (Op T)).

(** [pop] on a buffer that holds something takes the oldest item away. *)
Lemma rep_pop b x l :
  rep b (x :: l) → (pop b).1 = Some x ∧ rep (pop b).2 l.
Proof.
  intros [Hlen Hsize Hbound Hfront Hrear Hslot]. simpl in *.
  assert (Hpos : 0 < capacity b) by lia.
  assert (Hf : front b < capacity b) by auto.
  assert (Hx : buffer b !! front b = Some (Some x)).
  { specialize (Hslot 0 x eq_refl).
    by rewrite Nat.add_0_r, Nat.mod_small in Hslot. }
  unfold pop, isEmpty. destruct (Nat.eqb_spec (size b) 0) as [E|_]; [lia|].
  unfold read. rewrite Hx. simpl. split; [done|].
  rewrite array_set_in_range by lia.
  split; simpl.
  - by rewrite length_insert.
  - lia.
  - lia.
  - intros _. apply Nat.mod_upper_bound. lia.
  - rewrite Hrear, Nat.Div0.add_mod_idemp_l. f_equal. lia.
  - intros i y Hy. rewrite slot_next.
    assert (Hi : S i < capacity b).
    { apply lookup_lt_Some in Hy. lia. }
    rewrite list_lookup_insert_ne; [by apply (Hslot (S i))|].
    intros Heq.
    rewrite <- (Nat.mod_small (front b) (capacity b)) in Heq at 1 by done.
    rewrite <- (Nat.add_0_r (front b)) in Heq at 1.
    apply slot_inj in Heq; lia.
Qed.

(** [pop] on an empty buffer returns [null] and changes nothing. *)
Lemma rep_pop_empty b : rep b [] → pop b = (None, b).
Proof.
  intros [_ Hsize _ _ _ _]. simpl in Hsize.
  unfold pop, isEmpty. by rewrite Hsize.
Qed.

Lemma rep_clear b l : rep b l → (clear b).1 = length l ∧ rep (clear b).2 [].
Proof.
  intros [Hlen Hsize Hbound Hfront Hrear Hslot]. simpl. split; [done|].
  split; simpl; try done.
  - by rewrite length_replicate.
  - lia.
  - by rewrite Nat.Div0.mod_0_l.
Qed.

Lemma rep_peek b l : rep b l → peek b = head l.
Proof.
  intros [Hlen Hsize Hbound Hfront Hrear Hslot].
  unfold peek, isEmpty. destruct l as [|x l]; simpl in *.
  - by rewrite Hsize.
  - destruct (Nat.eqb_spec (size b) 0) as [E|_]; [lia|].
    specialize (Hslot 0 x eq_refl).
    rewrite Nat.add_0_r, Nat.mod_small in Hslot by (apply Hfront; lia).
    unfold read. by rewrite Hslot.
Qed.

Lemma rep_apply op b l :
  rep b l → rep (apply op b) (fifo_apply (capacity b) op l).
Proof.
  intros Hrep. destruct op as [x| |]; simpl.
  - destruct (Nat.eqb_spec (capacity b) 0) as [E|N].
    + by rewrite push_capacity_0.
    + pose proof (rep_bound _ _ Hrep) as Hbound.
      destruct (Nat.ltb_spec (length l) (capacity b)) as [Hlt|Hge].
      * by apply (proj2 (rep_push_room b l x Hrep Hlt)).
      * assert (Hpos : 0 < capacity b) by lia.
        assert (Hfull : length l = capacity b) by lia.
        apply (rep_push_full b l x Hrep Hpos Hfull).
  - destruct l as [|x l].
    + by rewrite rep_pop_empty.
    + simpl. rewrite drop_0. apply (proj2 (rep_pop b x l Hrep)).
  - apply (proj2 (rep_clear b l Hrep)).
Qed.

Lemma capacity_apply op b : capacity (apply op b) = capacity b.
Proof.
  destruct op as [x| |]; simpl; [apply capacity_push | | done].
  unfold pop. by destruct (isEmpty b).
Qed.

Lemma rep_run ops : ∀ b l,
  rep b l → rep (run ops b) (fifo_run (capacity b) ops l).
Proof.
  induction ops as [|op ops IH]; intros b l Hrep; [done|]. simpl.
  pose proof (IH _ _ (rep_apply op b l Hrep)) as Hrun.
  by rewrite capacity_apply in Hrun.
Qed.

Lemma capacity_run ops : ∀ b, capacity (run ops b) = capacity b.
Proof.
  induction ops as [|op ops IH]; intros b; [done|]. simpl.
  by rewrite IH, capacity_apply.
Qed.

Lemma rep_pop_n l : ∀ b,
  rep b l →
  (pop_n (length l) b).1 = Some <$> l ∧ rep (pop_n (length l) b).2 [].
Proof.
  induction l as [|x l IH]; intros b Hrep; [done|]. simpl.
  destruct (rep_pop b x l Hrep) as [Hx Hrep'].
  destruct (pop b) as [item b1]. simpl in *. subst item.
  destruct (IH b1 Hrep') as [Hitems Hempty].
  by destruct (pop_n (length l) b1) as [items b2]; simpl in *; subst.
Qed.

(** X1. Whatever pushes, pops and clears are made on a new buffer of
    capacity [c], the buffer behaves as the queue of at most [c] items it
    stands for: [getAll] lists the items of that queue, oldest first, [len]
    is their number, which is at most [c], and the array of slots keeps
    the length [c]. *)
Theorem X1_ring_buffer_is_a_bounded_fifo c ops :
  let b := run ops (new c) in
  let queue := fifo_run c ops [] in
  getAll b = queue ∧
  len b = length queue ∧
  len b ≤ c ∧
  getCapacity b = c ∧
  length (buffer b) = c ∧
  (isEmpty b = true ↔ queue = []) ∧
  (isFull b = true ↔ length queue = c).
Proof.
  intros b queue.
  assert (Hrep : rep b queue) by apply (rep_run ops (new c) []), rep_new.
  assert (Hcap : capacity b = c) by apply capacity_run.
  pose proof (rep_getAll _ _ Hrep) as Hall.
  destruct Hrep as [Hlen Hsize Hbound Hfront Hrear Hslot].
  split_and!.
  - done.
  - done.
  - unfold len. lia.
  - done.
  - by rewrite Hlen.
  - unfold isEmpty. rewrite Hsize, Nat.eqb_eq. by destruct queue.
  - unfold isFull. by rewrite Hsize, Hcap, Nat.eqb_eq.
Qed.

(** X2. On such a buffer [peek] returns the oldest item and [pop] returns
    it and takes it away, leaving the other items in their order; on an
    empty buffer both return [null] and [pop] changes nothing. *)
Theorem X2_pop_and_peek_take_the_oldest c ops :
  let b := run ops (new c) in
  peek b = head (getAll b) ∧
  (pop b).1 = head (getAll b) ∧
  getAll (pop b).2 = drop 1 (getAll b) ∧
  len (pop b).2 = len b - 1 ∧
  (getAll b = [] → pop b = (None, b)).
Proof.
  intros b.
  assert (Hrep : rep b (fifo_run c ops [])) by apply (rep_run ops (new c) []), rep_new.
  rewrite (rep_getAll _ _ Hrep), (rep_peek _ _ Hrep). unfold len.
  rewrite (rep_size _ _ Hrep).
  destruct (fifo_run c ops []) as [|x l].
  - rewrite (rep_pop_empty b Hrep). simpl.
    by rewrite (rep_getAll _ _ Hrep), (rep_size _ _ Hrep).
  - destruct (rep_pop b x l Hrep) as [Hx Hrep'].
    rewrite Hx, (rep_getAll _ _ Hrep'), (rep_size _ _ Hrep').
    simpl. rewrite drop_0. split_and!; try done. lia.
Qed.

(** X3. Popping as many times as the buffer has items returns the items
    [getAll] lists, in the same order, and leaves the buffer empty; one more
    pop returns [null]. *)
Theorem X3_popping_drains_in_order c ops :
  let b := run ops (new c) in
  let drained := pop_n (len b) b in
  drained.1 = Some <$> getAll b ∧
  getAll drained.2 = [] ∧
  len drained.2 = 0 ∧
  (pop drained.2).1 = None.
Proof.
  intros b drained. subst drained.
  assert (Hrep : rep b (fifo_run c ops [])) by apply (rep_run ops (new c) []), rep_new.
  assert (Hlen : len b = length (fifo_run c ops []))
    by apply (rep_size _ _ Hrep).
  rewrite (rep_getAll _ _ Hrep), Hlen.
  destruct (rep_pop_n _ b Hrep) as [Hitems Hempty].
  rewrite Hitems, (rep_getAll _ _ Hempty), (rep_pop_empty _ Hempty).
  unfold len. by rewrite (rep_size _ _ Hempty).
Qed.

(** X4. [clear] returns the number of items held and empties the buffer,
    which keeps its capacity; the buffer then takes pushes as a new buffer
    of that capacity does. *)
Theorem X4_clear_empties_and_restarts c ops items :
  let b := run ops (new c) in
  (clear b).1 = len b ∧
  getAll (clear b).2 = [] ∧
  len (clear b).2 = 0 ∧
  getCapacity (clear b).2 = c ∧
  getAll (push_all items (clear b).2) = getAll (push_all items (new c)).
Proof.
  intros b.
  assert (Hrep : rep b (fifo_run c ops [])) by apply (rep_run ops (new c) []), rep_new.
  assert (Hcap : capacity b = c) by apply capacity_run.
  destruct (rep_clear b _ Hrep) as [Hcount Hempty].
  split_and!.
  - rewrite Hcount. unfold len. by rewrite (rep_size _ _ Hrep).
  - by apply rep_getAll.
  - unfold len. by rewrite (rep_size _ _ Hempty).
  - done.
  - assert (Hpush : ∀ b' : RingBuffer.t T, push_all items b' =
              run (Push <$> items) b').
    { intros b'. unfold push_all, run. revert b'.
      induction items as [|x items IH]; intros b'; [done|]. simpl. apply IH. }
    rewrite !Hpush.
    pose proof (rep_run (Push <$> items) _ _ Hempty) as H1.
    pose proof (rep_run (Push <$> items) _ _ (rep_new c)) as H2.
    rewrite (rep_getAll _ _ H1), (rep_getAll _ _ H2).
    simpl. by rewrite Hcap.
Qed.
End ops.
End RingBufferOpsFacts.

(** * More on the message queue *)

Module MessageQueueInvariants.
Import MessageQueue Invariants MessageQueueFacts.

Section queue.
Context {Payload Callback : Type} `{!StructuredClone Payload}.
Variable raises : Callback → Payload → nat → Z → string → bool.

Abbreviation Queue := (MessageQueue.t Payload Callback).
Abbreviation TopicState := (TopicState.t Payload Callback).

Implicit Types (mq : Queue) (topic : TopicState) (msg : Message.t Payload)
  (callback : Callback) (payload : Payload) (name uuid : string) (now : Z)
  (topicId subId : nat) (c : Call Payload Callback)
  (calls : list (Call Payload Callback)).

(** ** Methods that are built on the dispatch *)

Section on_dispatch.
Context (P : Queue → Prop).
Hypothesis P_seenIds : ∀ seen mq, P mq → P (with_seenIds seen mq).
Hypothesis P_dispatch : ∀ msg, preserves P (dispatchLocal raises msg).

Lemma kept_by_publish uuid now topicId payload :
  preserves P (publish raises uuid now topicId payload).
Proof using P_dispatch.
  apply preserves_bind; [apply preserves_get|]. intros mq0.
  apply preserves_bind; [apply P_dispatch|]. intros _.
  apply preserves_broadcast.
Qed.

Lemma kept_by_publishBatchById topicId payloads :
  preserves P (publishBatchById raises topicId payloads).
Proof using P_dispatch.
  apply preserves_for_of. intros [[uuid now] payload].
  apply kept_by_publish.
Qed.

Lemma kept_by_handleChannelMessage data :
  (∀ name, preserves P (registerTopic name)) →
  preserves P (handleChannelMessage raises data).
Proof using P_seenIds P_dispatch.
  intros Hreg.
  apply preserves_bind; [apply preserves_get|]. intros mq0.
  destruct (isClosed mq0); [apply preserves_ret|].
  destruct data as [|type wireMsg]; [apply preserves_ret|].
  destruct (bool_decide (type = 0%Z)); [|apply preserves_ret].
  simpl. destruct (bool_decide (_ ∈ _)); [apply preserves_ret|].
  apply preserves_bind; [apply preserves_modify; auto|]. intros _.
  destruct (bool_decide (_ = _)); [apply preserves_ret|].
  apply preserves_bind; [apply Hreg|]. intros topicId.
  apply P_dispatch.
Qed.
End on_dispatch.

(** ** The name index and the topics *)

Lemma registry_update topicId f mq :
  (∀ topic, TopicState.name (f topic) = TopicState.name topic ∧
            TopicState.id (f topic) = TopicState.id topic) →
  registry_consistent mq → registry_consistent (update_topic topicId f mq).
Proof.
  intros Hf (Hix & Hid & Hsize). unfold registry_consistent, update_topic.
  simpl. split_and!.
  - intros name id. rewrite Hix. split.
    + intros (topic & Hget & Hname).
      destruct (decide (topicId = id)) as [->|Hne].
      * exists (f topic). rewrite list_lookup_alter_eq, Hget. simpl.
        split; [done|]. by rewrite (proj1 (Hf topic)).
      * exists topic. by rewrite list_lookup_alter_ne.
    + intros (topic & Hget & Hname).
      destruct (decide (topicId = id)) as [->|Hne].
      * rewrite list_lookup_alter_eq in Hget.
        destruct (topics mq !! id) as [old|] eqn:Hold; [|done].
        simpl in Hget. injection Hget as <-. exists old.
        split; [done|]. by rewrite <- (proj1 (Hf old)).
      * rewrite list_lookup_alter_ne in Hget by done. by exists topic.
  - intros id topic Hget.
    destruct (decide (topicId = id)) as [->|Hne].
    + rewrite list_lookup_alter_eq in Hget.
      destruct (topics mq !! id) as [old|] eqn:Hold; [|done].
      simpl in Hget. injection Hget as <-.
      rewrite (proj2 (Hf old)). by apply Hid.
    + rewrite list_lookup_alter_ne in Hget by done. by apply Hid.
  - by rewrite length_alter.
Qed.

Lemma registry_registerTopic name :
  preserves (λ mq : Queue, registry_consistent mq) (registerTopic name).
Proof.
  intros mq (Hix & Hid & Hsize).
  destruct (topicIndex mq !! name) as [known|] eqn:Hname.
  { by rewrite (registerTopic_known _ _ known). }
  rewrite registerTopic_new by done. unfold state. simpl.
  unfold registry_consistent. simpl. split_and!.
  - intros other id. split.
    + intros Hother. destruct (decide (name = other)) as [<-|Hne].
      * rewrite lookup_insert_eq in Hother. injection Hother as <-.
        eexists. rewrite lookup_app_r, Nat.sub_diag by lia. done.
      * rewrite lookup_insert_ne in Hother by done.
        apply Hix in Hother as (topic & Hget & Htopic).
        exists topic. split; [|done]. by apply lookup_app_l_Some.
    + intros (topic & Hget & Htopic).
      destruct (decide (id < length (topics mq))) as [Hlt|Hge].
      * rewrite lookup_app_l in Hget by done.
        assert (Hold : topicIndex mq !! other = Some id)
          by (apply Hix; eauto).
        rewrite lookup_insert_ne; [done | congruence].
      * rewrite lookup_app_r in Hget by lia.
        destruct (id - length (topics mq)) as [|k] eqn:Hk; [|done].
        simpl in Hget. injection Hget as <-. simpl in Htopic. subst other.
        replace id with (length (topics mq)) by lia.
        apply lookup_insert_eq.
  - intros id topic Hget.
    destruct (decide (id < length (topics mq))) as [Hlt|Hge].
    + rewrite lookup_app_l in Hget by done. by apply Hid.
    + rewrite lookup_app_r in Hget by lia.
      destruct (id - length (topics mq)) as [|k] eqn:Hk; [|done].
      simpl in Hget. injection Hget as <-. simpl. lia.
  - rewrite map_size_insert_None by done. rewrite length_app. simpl. lia.
Qed.

Lemma registry_new uuid hasBroadcastChannel channelName :
  registry_consistent
    (new (Payload:=Payload) (Callback:=Callback)
       uuid hasBroadcastChannel channelName).
Proof.
  unfold registry_consistent. simpl. split_and!; [|done|done].
  intros name id. rewrite lookup_empty. split; [done|].
  by intros (topic & Hget & _).
Qed.

Lemma registry_perform c mq :
  registry_consistent mq → registry_consistent (perform raises c mq).1.
Proof.
  intros Hreg.
  assert (Hseen : ∀ seen mq, registry_consistent mq →
            registry_consistent (with_seenIds seen mq)) by done.
  assert (Hbuf : ∀ topicId buffer mq, registry_consistent mq →
            registry_consistent (update_topic topicId (with_buffer buffer) mq)).
  { intros. by apply registry_update. }
  destruct c; simpl.
  - by apply registry_registerTopic.
  - unfold subscribe, state. destruct (getTopic _ _); simpl; [|done].
    by apply registry_update.
  - unfold unsubscribe, state. destruct (getTopic _ _) as [topic|]; [|done].
    destruct (JsMap.delete _ _). simpl. by apply registry_update.
  - unfold unsubscribeAll, state. destruct (getTopic _ _); simpl; [|done].
    by apply registry_update.
  - by apply preserves_publish.
  - by apply preserves_publishBatchById.
  - unfold enableTopicBuffer, state. destruct (getTopic _ _); simpl; [|done].
    destruct (array_length_ok _); simpl; auto.
  - unfold disableTopicBuffer, state. destruct (getTopic _ _); simpl; auto.
  - unfold clearBuffer, state. destruct (getTopic _ _) as [topic|]; simpl; [|done].
    destruct (TopicState.buffer topic) as [buffer|]; simpl; auto.
  - unfold destroyTopic, state. destruct (getTopic _ _); simpl; [|done].
    by apply registry_update.
  - rewrite close_eq. unfold effect, state. simpl.
    apply (registry_new "" false None).
  - apply preserves_handleChannelMessage; try done.
    apply registry_registerTopic.
Qed.

Lemma registry_run calls : ∀ mq,
  registry_consistent mq → registry_consistent (run raises calls mq).1.
Proof.
  induction calls as [|c calls IH]; intros mq Hreg; [done|]. simpl.
  pose proof (registry_perform c mq Hreg) as Hc.
  destruct (perform raises c mq) as [mq1 ev1]. simpl in Hc.
  specialize (IH mq1 Hc).
  by destruct (run raises calls mq1) as [mq2 ev2].
Qed.

Lemma reachable_registry mq : reachable raises mq → registry_consistent mq.
Proof.
  intros (uuid & has & channelName & calls & ->).
  apply registry_run, registry_new.
Qed.

(** ** The buffers of the topics *)

Lemma valid_update topicId f mq :
  (∀ topic, getTopic topicId mq = Some topic →
     buffer_valid topic → buffer_valid (f topic)) →
  buffers_valid mq → buffers_valid (update_topic topicId f mq).
Proof.
  intros Hf Hvalid. unfold buffers_valid, update_topic. simpl.
  by apply Forall_alter.
Qed.

Lemma valid_with_buffer (buffer : RingBuffer.t (Message.t Payload)) l topic :
  RingBuffer.rep buffer l → buffer_valid (with_buffer (Some buffer) topic).
Proof. intros Hrep b [= <-]. by exists l. Qed.

Lemma valid_dispatchLocal msg :
  preserves (λ mq : Queue, buffers_valid mq) (dispatchLocal raises msg).
Proof.
  intros mq Hvalid.
  destruct (isClosed mq) eqn:Hclosed.
  { by rewrite dispatchLocal_closed. }
  destruct (getTopic (Message.topic_id msg) mq) as [topic|] eqn:Hget.
  - rewrite (dispatchLocal_known _ _ _ topic) by done.
    unfold state, dispatched. cbn [fst snd].
    destruct (TopicState.buffer topic) as [buffer|] eqn:Hbuffer; [|done].
    apply valid_update; [|done]. intros topic' Hget' Hvalid'.
    assert (Hold : ∃ l, RingBuffer.rep buffer l).
    { unfold buffers_valid in Hvalid. rewrite Forall_lookup in Hvalid.
      by apply (Hvalid _ _ Hget). }
    destruct Hold as [l Hrep].
    apply (valid_with_buffer _ _ _
      (RingBufferOpsFacts.rep_apply (RingBufferOps.Push msg) buffer l Hrep)).
  - by rewrite dispatchLocal_unknown.
Qed.

Lemma valid_registerTopic name :
  preserves (λ mq : Queue, buffers_valid mq) (registerTopic name).
Proof.
  intros mq Hvalid. unfold registerTopic, state.
  destruct (topicIndex mq !! name); [done|]. simpl.
  unfold buffers_valid. simpl. apply Forall_app. split; [done|].
  apply Forall_singleton. by intros b.
Qed.

Lemma valid_perform c mq :
  buffers_valid mq → buffers_valid (perform raises c mq).1.
Proof.
  intros Hvalid.
  assert (Hseen : ∀ seen mq, buffers_valid mq →
            buffers_valid (with_seenIds seen mq)) by done.
  destruct c; simpl.
  - by apply valid_registerTopic.
  - unfold subscribe, state. destruct (getTopic _ _); simpl; [|done].
    by apply valid_update.
  - unfold unsubscribe, state. destruct (getTopic _ _) as [topic|]; [|done].
    destruct (JsMap.delete _ _). simpl. by apply valid_update.
  - unfold unsubscribeAll, state. destruct (getTopic _ _); simpl; [|done].
    by apply valid_update.
  - apply kept_by_publish; [|done]. apply valid_dispatchLocal.
  - apply kept_by_publishBatchById; [|done]. apply valid_dispatchLocal.
  - unfold enableTopicBuffer, state. destruct (getTopic _ _); simpl; [|done].
    destruct (array_length_ok _); simpl; [|done].
    apply valid_update; [|done]. intros.
    apply (valid_with_buffer _ []), RingBufferFacts.rep_new.
  - unfold disableTopicBuffer, state. destruct (getTopic _ _); simpl; [|done].
    apply valid_update; [|done]. by intros topic _ _ b.
  - unfold clearBuffer, state.
    destruct (getTopic _ _) as [topic|] eqn:Hget; simpl; [|done].
    destruct (TopicState.buffer topic) as [buffer|] eqn:Hbuffer; simpl; [|done].
    apply valid_update; [|done]. intros topic' Hget' Hvalid'.
    rewrite Hget in Hget'. injection Hget' as <-.
    destruct (Hvalid' _ Hbuffer) as [l Hrep].
    apply (valid_with_buffer _ []).
    apply (proj2 (RingBufferOpsFacts.rep_clear buffer l Hrep)).
  - unfold destroyTopic, state. destruct (getTopic _ _); simpl; [|done].
    apply valid_update; [|done]. by intros topic _ _ b.
  - constructor.
  - apply kept_by_handleChannelMessage; try done.
    + apply valid_dispatchLocal.
    + apply valid_registerTopic.
Qed.

Lemma valid_run calls : ∀ mq,
  buffers_valid mq → buffers_valid (run raises calls mq).1.
Proof.
  induction calls as [|c calls IH]; intros mq Hvalid; [done|]. simpl.
  pose proof (valid_perform c mq Hvalid) as Hc.
  destruct (perform raises c mq) as [mq1 ev1]. simpl in Hc.
  specialize (IH mq1 Hc).
  by destruct (run raises calls mq1) as [mq2 ev2].
Qed.

Lemma reachable_valid mq : reachable raises mq → buffers_valid mq.
Proof.
  intros (uuid & has & channelName & calls & ->).
  apply valid_run. constructor.
Qed.

(** The buffer of a topic of a reachable queue stands for a list of
    messages. *)
Lemma reachable_buffer mq topicId topic buffer :
  reachable raises mq →
  getTopic topicId mq = Some topic →
  TopicState.buffer topic = Some buffer →
  ∃ l, RingBuffer.rep buffer l.
Proof.
  intros Hreach Hget Hbuffer. apply reachable_valid in Hreach.
  unfold buffers_valid in Hreach. rewrite Forall_lookup in Hreach.
  by apply (Hreach _ _ Hget).
Qed.

(** ** A slot and its subscription counter *)

Lemma slot_update topicId name n other f mq :
  (∀ topic, getTopic other mq = Some topic →
     TopicState.name (f topic) = TopicState.name topic ∧
     TopicState.nextSubId topic ≤ TopicState.nextSubId (f topic)) →
  slot_kept topicId name n mq →
  slot_kept topicId name n (update_topic other f mq).
Proof.
  intros Hf (topic & Hget & Hname & Hnext). unfold slot_kept.
  destruct (decide (topicId = other)) as [<-|Hne].
  - exists (f topic). rewrite getTopic_update_topic, Hget.
    destruct (Hf topic Hget) as [Hn Hs]. split_and!; [done|congruence|lia].
  - exists topic. by rewrite getTopic_update_topic_ne.
Qed.

Lemma slot_registerTopic topicId name n other :
  preserves (λ mq : Queue, slot_kept topicId name n mq) (registerTopic other).
Proof.
  intros mq (topic & Hget & Hname & Hnext). unfold registerTopic, state.
  destruct (topicIndex mq !! other); simpl; [by exists topic|].
  exists topic. split; [|done]. unfold getTopic in *. simpl.
  by apply lookup_app_l_Some.
Qed.

Lemma slot_perform topicId name n c mq :
  is_close c = false →
  slot_kept topicId name n mq →
  slot_kept topicId name n (perform raises c mq).1.
Proof.
  intros Hc Hslot.
  assert (Hseen : ∀ seen mq, slot_kept topicId name n mq →
            slot_kept topicId name n (with_seenIds seen mq)) by done.
  assert (Hbuf : ∀ other buffer mq, slot_kept topicId name n mq →
            slot_kept topicId name n
              (update_topic other (with_buffer buffer) mq)).
  { intros. by apply slot_update. }
  destruct c; simpl; try done.
  - by apply slot_registerTopic.
  - unfold subscribe, state.
    destruct (getTopic _ _) as [topic|] eqn:Hget; simpl; [|done].
    apply slot_update; [|done]. intros topic' Hget'.
    rewrite Hget in Hget'. injection Hget' as <-. simpl. split; [done|lia].
  - unfold unsubscribe, state. destruct (getTopic _ _) as [topic|]; [|done].
    destruct (JsMap.delete _ _). simpl. by apply slot_update.
  - unfold unsubscribeAll, state. destruct (getTopic _ _); simpl; [|done].
    by apply slot_update.
  - by apply (preserves_publish raises (λ mq, slot_kept topicId name n mq)).
  - by apply (preserves_publishBatchById raises
                (λ mq, slot_kept topicId name n mq)).
  - unfold enableTopicBuffer, state. destruct (getTopic _ _); simpl; [|done].
    destruct (array_length_ok _); simpl; auto.
  - unfold disableTopicBuffer, state. destruct (getTopic _ _); simpl; auto.
  - unfold clearBuffer, state. destruct (getTopic _ _) as [topic|]; simpl; [|done].
    destruct (TopicState.buffer topic) as [buffer|]; simpl; auto.
  - unfold destroyTopic, state. destruct (getTopic _ _); simpl; [|done].
    by apply slot_update.
  - apply (preserves_handleChannelMessage raises
             (λ mq, slot_kept topicId name n mq)); try done.
    intros other. apply slot_registerTopic.
Qed.

Lemma slot_run topicId name n calls : ∀ mq,
  no_close calls = true →
  slot_kept topicId name n mq →
  slot_kept topicId name n (run raises calls mq).1.
Proof.
  induction calls as [|c calls IH]; intros mq Hcalls Hslot; [done|].
  unfold no_close in *. simpl in *.
  apply andb_prop in Hcalls as [Hc Hcalls]. apply negb_true_iff in Hc.
  pose proof (slot_perform topicId name n c mq Hc Hslot) as H1.
  destruct (perform raises c mq) as [mq1 ev1]. simpl in H1.
  specialize (IH mq1 Hcalls H1).
  by destruct (run raises calls mq1) as [mq2 ev2].
Qed.
End queue.
End MessageQueueInvariants.

Module MessageQueueMore.
Import MessageQueue Invariants MessageQueueFacts MessageQueueInvariants.

Section queue.
Context {Payload Callback : Type} `{!StructuredClone Payload}.
Variable raises : Callback → Payload → nat → Z → string → bool.

Abbreviation Queue := (MessageQueue.t Payload Callback).
Abbreviation TopicState := (TopicState.t Payload Callback).

Implicit Types (mq : Queue) (topic : TopicState) (msg : Message.t Payload)
  (callback : Callback) (payload : Payload) (name uuid : string) (now : Z)
  (topicId subId : nat) (c : Call Payload Callback)
  (calls : list (Call Payload Callback)).

(** ** Topics and their ids *)

(** After [registerTopic] on a reachable queue the id returned is the id
    of a topic of that name, and the index has it. *)
Lemma registered_slot mq name :
  reachable raises mq →
  ∃ id topic,
    outcome (registerTopic name mq) = Return id ∧
    getTopic id (state (registerTopic name mq)) = Some topic ∧
    TopicState.name topic = name ∧
    topicIndex (state (registerTopic name mq)) !! name = Some id.
Proof.
  intros Hreach.
  pose proof (reachable_registry raises mq Hreach) as Hmq.
  pose proof (registry_registerTopic name mq Hmq) as (Hix & _ & _).
  destruct (registerTopic_indexed mq name) as (id & Hout & _ & Hname).
  pose proof Hname as Hname'. apply Hix in Hname' as (topic & Hget & Htopic).
  by exists id, topic.
Qed.

(** X5. On a queue in any state it can be in, [registerTopic] returns an id
    within the array of topics, and the topic in that slot has the name
    registered and that id; no other name has this id; a name that was not
    registered gets the number of names registered so far; and [subscribe]
    with the id returned does not throw. *)
Theorem X5_registered_id_names_its_topic mq name callback :
  reachable raises mq →
  let r := registerTopic name mq in
  ∃ id topic,
    outcome r = Return id ∧
    getTopic id (state r) = Some topic ∧
    TopicState.name topic = name ∧
    TopicState.id topic = id ∧
    (∀ other, topicIndex (state r) !! other = Some id → other = name) ∧
    (topicIndex mq !! name = None →
       id = size (topicIndex mq) ∧ id = length (topics mq)) ∧
    outcome (subscribe id callback (state r)) =
      Return (TopicState.nextSubId topic).
Proof.
  intros Hreach r. subst r.
  pose proof (reachable_registry raises mq Hreach) as Hmq.
  pose proof (registry_registerTopic name mq Hmq) as (Hix & Hid & Hsize).
  destruct (registerTopic_indexed mq name) as (id & Hout & _ & Hname).
  pose proof Hname as Hname'. apply Hix in Hname' as (topic & Hget & Htopic).
  exists id, topic. split_and!; try done.
  - by apply Hid.
  - intros other Hother. apply Hix in Hother as (topic' & Hget' & Hother).
    rewrite Hget in Hget'. by injection Hget' as <-; subst.
  - intros Hnew. rewrite registerTopic_new in Hout by done.
    unfold outcome in Hout. simpl in Hout. injection Hout as <-.
    split; [|done]. symmetry. apply Hmq.
  - unfold subscribe. unfold getTopic in *. by rewrite Hget.
Qed.

Lemma topic_returns name mq :
  Topic.topic name mq =
    (Return (Topic.mk name
       (match outcome (registerTopic name mq) with
        | Return id => id
        | Throw _ => 0
        end)),
     state (registerTopic name mq), []).
Proof.
  destruct (registerTopic_indexed mq name) as (id & Hout & Hev & _).
  unfold Topic.topic, bind, ret, outcome, events, state in *.
  destruct (registerTopic name mq) as [[o mq1] ev]. simpl in *. by subst.
Qed.

(** X6. A [Topic] object obtained from [topic(name)] stays good as long as
    the queue is not closed: after any further calls its id is still the
    id of a topic of that name, [subscribe] through it does not throw, and
    [topic(name)] gives the same id again. *)
Theorem X6_topic_handle_stays_valid mq name calls callback :
  reachable raises mq →
  no_close calls = true →
  let r := Topic.topic name mq in
  let mq' := (run raises calls (state r)).1 in
  ∃ h topic,
    outcome r = Return h ∧
    Topic.name h = name ∧
    getTopic (Topic.id h) mq' = Some topic ∧
    TopicState.name topic = name ∧
    outcome (Topic.subscribe h callback mq') =
      Return (TopicState.nextSubId topic) ∧
    outcome (Topic.topic name mq') = Return h.
Proof.
  intros Hreach Hcalls r mq'. subst r mq'. rewrite topic_returns.
  destruct (registered_slot mq name Hreach)
    as (id & topic & Hout & Hget & Hname & Hix).
  rewrite Hout. set (mq1 := state (registerTopic name mq)) in *.
  replace (state (Return (Topic.mk name id), mq1, [])) with mq1 by done.
  assert (Hslot : slot_kept id name 0 mq1).
  { exists topic. split_and!; [done..|lia]. }
  apply (slot_run raises id name 0 calls _ Hcalls) in Hslot
    as (topic' & Hget' & Hname' & _).
  pose proof (indexed_run raises name id calls _ Hcalls Hix) as Hix'.
  exists (Topic.mk name id), topic'. split_and!; try done.
  - unfold Topic.subscribe, subscribe. simpl. by rewrite Hget'.
  - rewrite topic_returns. by rewrite (registerTopic_known _ _ id).
Qed.

(** ** Subscriptions *)

(** X7. The subscription ids of a topic are never used twice while the
    queue is not closed: whatever calls are made after a [subscribe], also
    [unsubscribe], [unsubscribeAll] and [destroyTopic], a later [subscribe]
    to the topic returns a larger id. *)
Theorem X7_subscription_ids_increase mq topicId first second calls subId :
  outcome (subscribe topicId first mq) = Return subId →
  no_close calls = true →
  ∃ later,
    outcome (subscribe topicId second
      (run raises calls (state (subscribe topicId first mq))).1) =
      Return later ∧
    subId < later.
Proof.
  intros Hout Hcalls. unfold subscribe in Hout.
  destruct (getTopic topicId mq) as [topic|] eqn:Hget; [|done].
  unfold outcome in Hout. simpl in Hout. injection Hout as <-.
  assert (Hslot : slot_kept topicId (TopicState.name topic)
            (TopicState.nextSubId topic + 1)
            (state (subscribe topicId first mq))).
  { unfold subscribe. rewrite Hget. unfold state. cbn [fst snd].
    eexists. rewrite getTopic_update_topic, Hget. simpl.
    split_and!; [done|done|]. simpl. lia. }
  apply (slot_run raises _ _ _ calls _ Hcalls) in Hslot
    as (topic' & Hget' & _ & Hnext).
  exists (TopicState.nextSubId topic'). split; [|lia].
  unfold subscribe at 1. by rewrite Hget'.
Qed.

Lemma JsMap_delete_last (m : JsMap.t Callback) k v :
  k ∉ JsMap.keys m → JsMap.delete k (m ++ [(k, v)]) = (true, m).
Proof.
  intros Hk. unfold JsMap.delete. f_equal.
  - apply JsMap_has_keys. unfold JsMap.keys. rewrite fmap_app.
    apply elem_of_app. right. simpl. apply list_elem_of_here.
  - rewrite filter_app.
    replace (filter (λ e : nat * Callback, e.1 ≠ k) m) with m.
    + rewrite filter_cons_False by (simpl; auto). by rewrite app_nil_r.
    + pose proof (JsMap_delete_absent m k Hk) as Habsent.
      unfold JsMap.delete in Habsent. by injection Habsent as _ ->.
Qed.

Lemma subscribers_of mq topicId topic :
  getTopic topicId mq = Some topic →
  subscriberCount topicId mq = length (TopicState.subscribers topic).
Proof. intros Hget. unfold subscriberCount. by rewrite Hget. Qed.

(** What [publish] causes depends on the topic only through its name and
    its subscribers. *)
Lemma publish_events_same mq mq' topicId topic topic' uuid now payload :
  isClosed mq' = isClosed mq →
  channel mq' = channel mq →
  clientId mq' = clientId mq →
  getTopic topicId mq = Some topic →
  getTopic topicId mq' = Some topic' →
  TopicState.name topic' = TopicState.name topic →
  TopicState.subscribers topic' = TopicState.subscribers topic →
  events (publish raises uuid now topicId payload mq') =
    events (publish raises uuid now topicId payload mq).
Proof.
  intros Hclosed Hchannel Hclient Hget Hget' Hname Hsubs.
  destruct (isClosed mq) eqn:Hc.
  - by rewrite !publish_closed.
  - rewrite (publish_open raises mq _ _ _ _ topic) by done.
    rewrite (publish_open raises mq' _ _ _ _ topic') by done.
    unfold events, posted, createMessage. simpl.
    by rewrite Hsubs, Hchannel, Hclient, Hname.
Qed.


(** X9. On a queue that is not closed a [publish] calls as many callbacks
    as [subscriberCount] tells. [unsubscribeAll] returns that number and
    leaves a topic with no subscribers, to which a [publish] calls
    nobody; its buffer and its subscription counter are as before. *)
Theorem X9_unsubscribe_all_and_count mq topicId topic uuid now payload :
  getTopic topicId mq = Some topic →
  let r := unsubscribeAll topicId mq in
  (isClosed mq = false →
     length (invocations (events (publish raises uuid now topicId payload mq))) =
       subscriberCount topicId mq) ∧
  outcome r = Return (subscriberCount topicId mq) ∧
  getTopic topicId (state r) = Some (with_subscribers [] topic) ∧
  subscriberCount topicId (state r) = 0 ∧
  invocations (events (publish raises uuid now topicId payload (state r))) = [].
Proof.
  intros Hget r.
  assert (Hget' : getTopic topicId (state r) = Some (with_subscribers [] topic)).
  { subst r. unfold unsubscribeAll. rewrite Hget. unfold state. cbn [fst snd].
    by rewrite getTopic_update_topic, Hget. }
  split_and!.
  - intros Hopen. rewrite (publish_open raises _ _ _ _ _ topic) by done.
    unfold events. cbn [fst snd].
    rewrite invocations_app, invocations_notifications, invocations_posted.
    rewrite app_nil_r, length_fmap. unfold JsMap.values.
    by rewrite length_fmap, (subscribers_of _ _ _ Hget).
  - subst r. unfold unsubscribeAll. rewrite Hget.
    by rewrite (subscribers_of _ _ _ Hget).
  - done.
  - by rewrite (subscribers_of _ _ _ Hget').
  - destruct (isClosed (state r)) eqn:Hclosed.
    + by rewrite publish_closed.
    + rewrite (publish_open raises _ _ _ _ _ _ Hclosed Hget').
      unfold events. cbn [fst snd].
      by rewrite invocations_app, invocations_notifications, invocations_posted.
Qed.

(** ** Buffered messages *)

Lemma fifo_push_last_n {T} (n : nat) (l : list T) x :
  length l ≤ n →
  RingBufferOps.fifo_apply n (RingBufferOps.Push x) l =
    RingBuffer.last_n n (l ++ [x]).
Proof.
  intros Hlen. unfold RingBufferOps.fifo_apply, RingBuffer.last_n.
  rewrite length_app. simpl.
  destruct (Nat.eqb_spec n 0) as [->|Hn].
  - destruct l; [done | simpl in Hlen; lia].
  - destruct (Nat.ltb_spec (length l) n) as [Hlt|Hge].
    + by replace (length l + 1 - n) with 0 by lia.
    + replace (length l + 1 - n) with 1 by lia.
      by rewrite drop_app_le by lia.
Qed.

Lemma fmap_last_n {A B} (f : A → B) (n : nat) (l : list A) :
  f <$> RingBuffer.last_n n l = RingBuffer.last_n n (f <$> l).
Proof. unfold RingBuffer.last_n. by rewrite fmap_drop, length_fmap. Qed.

Lemma buffer_queries mq topicId topic buffer l :
  getTopic topicId mq = Some topic →
  TopicState.buffer topic = Some buffer →
  RingBuffer.rep buffer l →
  getBufferedMessages topicId mq = Message.payload <$> l ∧
  getBufferSize topicId mq = length l ∧
  getBufferCapacity topicId mq = RingBuffer.capacity buffer ∧
  length l ≤ RingBuffer.capacity buffer.
Proof.
  intros Hget Hbuffer Hrep.
  unfold getBufferedMessages, getBufferSize, getBufferCapacity.
  rewrite Hget, Hbuffer. rewrite (RingBufferFacts.rep_getAll _ _ Hrep).
  unfold RingBuffer.len. rewrite (RingBuffer.rep_size _ _ Hrep).
  split_and!; try done. apply (RingBuffer.rep_bound _ _ Hrep).
Qed.

Lemma getTopic_published mq topicId topic buffer uuid now payload :
  isClosed mq = false →
  getTopic topicId mq = Some topic →
  TopicState.buffer topic = Some buffer →
  getTopic topicId (state (publish raises uuid now topicId payload mq)) =
    Some (with_buffer
            (Some (RingBuffer.push
                     (createMessage uuid now topicId payload mq) buffer).2)
            topic).
Proof.
  intros Hopen Hget Hbuffer.
  rewrite (publish_open raises _ _ _ _ _ topic) by done.
  unfold state, dispatched. cbn [fst snd]. rewrite Hbuffer.
  rewrite getTopic_update_topic. unfold getTopic in *. simpl.
  by rewrite Hget.
Qed.

(** X10. On a queue that is not closed, [publish] to a topic with a buffer
    adds the payload to the buffered messages and keeps the newest ones,
    as many as the capacity allows: [getBufferedMessages] then returns the
    last [capacity] of the messages it returned before followed by the
    new payload. *)
Theorem X10_publish_appends_to_buffer
    mq topicId topic buffer uuid now payload :
  reachable raises mq →
  isClosed mq = false →
  getTopic topicId mq = Some topic →
  TopicState.buffer topic = Some buffer →
  let mq' := state (publish raises uuid now topicId payload mq) in
  getBufferedMessages topicId mq' =
    RingBuffer.last_n (getBufferCapacity topicId mq)
      (getBufferedMessages topicId mq ++ [payload]) ∧
  getBufferCapacity topicId mq' = getBufferCapacity topicId mq ∧
  getBufferSize topicId mq' = length (getBufferedMessages topicId mq').
Proof.
  intros Hreach Hopen Hget Hbuffer mq'.
  destruct (reachable_buffer raises _ _ _ _ Hreach Hget Hbuffer) as [l Hrep].
  destruct (buffer_queries _ _ _ _ _ Hget Hbuffer Hrep)
    as (Hmsgs & Hsize & Hcap & Hbound).
  set (msg := createMessage uuid now topicId payload mq).
  pose proof (getTopic_published _ _ _ _ uuid now payload Hopen Hget Hbuffer)
    as Hget'. fold msg mq' in Hget'.
  pose proof (RingBufferOpsFacts.rep_apply (RingBufferOps.Push msg) _ _ Hrep)
    as Hrep'.
  destruct (buffer_queries _ _ _ _ _ Hget' eq_refl Hrep')
    as (Hmsgs' & Hsize' & Hcap' & _).
  rewrite Hmsgs', Hsize', Hcap', Hmsgs, Hcap.
  rewrite RingBufferFacts.capacity_push.
  pose proof (fifo_push_last_n (RingBuffer.capacity buffer) l msg Hbound)
    as Hpush.
  split_and!.
  - rewrite Hpush, fmap_last_n, fmap_app. done.
  - done.
  - by rewrite length_fmap.
Qed.

(** X11. In every state a queue can be in, the number [getBufferSize]
    returns for a topic is the number of messages [getBufferedMessages]
    returns, and it is at most [getBufferCapacity]; for a topic without a
    buffer all three are empty. *)
Theorem X11_buffer_size_within_capacity mq topicId :
  reachable raises mq →
  getBufferSize topicId mq = length (getBufferedMessages topicId mq) ∧
  getBufferSize topicId mq ≤ getBufferCapacity topicId mq ∧
  (hasBuffer topicId mq = false →
     getBufferSize topicId mq = 0 ∧
     getBufferCapacity topicId mq = 0 ∧
     getBufferedMessages topicId mq = []).
Proof.
  intros Hreach.
  destruct (getTopic topicId mq) as [topic|] eqn:Hget.
  - destruct (TopicState.buffer topic) as [buffer|] eqn:Hbuffer.
    + destruct (reachable_buffer raises _ _ _ _ Hreach Hget Hbuffer) as [l Hrep].
      destruct (buffer_queries _ _ _ _ _ Hget Hbuffer Hrep)
        as (Hmsgs & Hsize & Hcap & Hbound).
      rewrite Hmsgs, Hsize, Hcap, length_fmap. split_and!; try done.
      unfold hasBuffer. rewrite Hget, Hbuffer. intros Hno.
      by apply bool_decide_eq_false in Hno as [].
    + unfold getBufferSize, getBufferCapacity, getBufferedMessages.
      by rewrite Hget, Hbuffer.
  - unfold getBufferSize, getBufferCapacity, getBufferedMessages.
    by rewrite Hget.
Qed.

(** ** Batches *)

Lemma run_app calls1 calls2 mq :
  run raises (calls1 ++ calls2) mq =
    (let '(mq1, ev1) := run raises calls1 mq in
     let '(mq2, ev2) := run raises calls2 mq1 in
     (mq2, ev1 ++ ev2)).
Proof.
  revert mq. induction calls1 as [|c calls1 IH]; intros mq; simpl.
  - by destruct (run raises calls2 mq).
  - destruct (perform raises c mq) as [mq1 ev1]. rewrite IH.
    destruct (run raises calls1 mq1) as [mq2 ev2].
    destruct (run raises calls2 mq2) as [mq3 ev3].
    by rewrite app_assoc.
Qed.

(** A [publish] changes nothing of what decides whether the next one
    reaches [postMessage]. *)
Lemma posts_publish mq uuid now topicId payload :
  posts topicId (state (publish raises uuid now topicId payload mq)) =
    posts topicId mq.
Proof.
  destruct (isClosed mq) eqn:Hclosed.
  { by rewrite publish_closed. }
  destruct (getTopic topicId mq) as [topic|] eqn:Hget.
  - rewrite (publish_open raises _ _ _ _ _ topic) by done.
    unfold state. cbn [fst snd].
    destruct (getTopic_dispatched
                (createMessage uuid now topicId payload mq) topic mq Hget)
      as [buffer Hget1].
    cbn [createMessage Message.topic_id] in Hget1.
    set (mq1 := dispatched _ topic mq) in *.
    assert (Hch : channel mq1 = channel mq).
    { unfold mq1, dispatched. by destruct (TopicState.buffer topic). }
    assert (Hcl : isClosed mq1 = isClosed mq).
    { unfold mq1, dispatched. by destruct (TopicState.buffer topic). }
    unfold posts. rewrite Hget1, Hget, Hch, Hcl.
    by rewrite !(bool_decide_eq_true_2 (is_Some (Some _))) by done.
  - rewrite publish_unknown by done. unfold state, posts, getTopic.
    cbn [fst snd]. by destruct mq.
Qed.

Lemma posts_no_channel mq topicId : channel mq = None → posts topicId mq = false.
Proof. intros H. unfold posts. by rewrite H. Qed.

Lemma attempted_stop mq topicId p payloads :
  posts topicId mq && unclonable p.2 = true →
  attempted topicId (p :: payloads) mq = [p] ∧
  batch_outcome topicId (p :: payloads) mq = Throw DataCloneError.
Proof.
  intros H. apply andb_true_iff in H as [Hposts Hp].
  unfold attempted, batch_outcome. cbn [until_unclonable existsb].
  by rewrite Hposts, Hp.
Qed.

Lemma attempted_go mq topicId p payloads :
  posts topicId mq && unclonable p.2 = false →
  attempted topicId (p :: payloads) mq = p :: attempted topicId payloads mq ∧
  batch_outcome topicId (p :: payloads) mq =
    batch_outcome topicId payloads mq.
Proof.
  intros H. unfold attempted, batch_outcome. cbn [until_unclonable existsb].
  destruct (posts topicId mq); [|done].
  cbn [andb] in *. by rewrite H.
Qed.

Lemma attempted_posts mq mq' topicId payloads :
  posts topicId mq' = posts topicId mq →
  attempted topicId payloads mq' = attempted topicId payloads mq ∧
  batch_outcome topicId payloads mq' = batch_outcome topicId payloads mq.
Proof. intros H. unfold attempted, batch_outcome. by rewrite H. Qed.

(** What [publishBatchById] gets to publish is a prefix of the batch: the
    whole batch when it does not reach [postMessage] or every payload can
    be cloned. *)
Lemma attempted_prefix mq topicId payloads :
  (∃ rest, payloads = attempted topicId payloads mq ++ rest) ∧
  (batch_outcome topicId payloads mq = Return () →
   attempted topicId payloads mq = payloads).
Proof.
  unfold attempted, batch_outcome.
  destruct (posts topicId mq); cbn [andb]; [|split; [by exists []; rewrite app_nil_r | done]].
  induction payloads as [|p payloads [[rest IH1] IH2]].
  { split; [by exists [] | done]. }
  cbn [until_unclonable existsb]. destruct (unclonable p.2); cbn [orb].
  - split; [by exists payloads | done].
  - split.
    + exists rest. cbn [app]. by rewrite <- IH1.
    + intros H. by rewrite IH2.
Qed.

(** X12. [publishBatchById] does what one [publish] per payload does, in
    the order of the payloads, up to the first [publish] that throws: that
    is the first whose payload cannot be cloned, when the queue has a
    channel, is open and knows the topic. The batch then ends with the
    [DataCloneError]; the payloads before that one, and that one, were
    published, which is not undone, and the payloads after it are not
    published. Otherwise the batch returns and every payload is
    published. *)
Theorem X12_batch_stops_at_first_failure mq topicId payloads :
  let r := publishBatchById raises topicId payloads mq in
  let sent := attempted topicId payloads mq in
  (state r, events r) =
    run raises
      ((λ '(uuid, now, payload), CallPublish uuid now topicId payload) <$>
         sent) mq ∧
  outcome r = batch_outcome topicId payloads mq ∧
  (∃ rest, payloads = sent ++ rest) ∧
  (outcome r = Return () → sent = payloads).
Proof.
  intros r sent.
  assert (Hrun : (state r, events r) =
            run raises
              ((λ '(uuid, now, payload), CallPublish uuid now topicId payload) <$>
                 sent) mq ∧
          outcome r = batch_outcome topicId payloads mq).
  { subst r sent. revert mq.
    induction payloads as [|[[uuid now] payload] payloads IH]; intros mq.
    { unfold attempted, batch_outcome. by destruct (posts topicId mq). }
    unfold publishBatchById in *. cbn [for_of].
    pose proof (publish_outcome raises mq uuid now topicId payload) as Hout.
    pose proof (posts_publish mq uuid now topicId payload) as Hposts.
    destruct (posts topicId mq && unclonable payload) eqn:Hstop.
    - destruct (attempted_stop mq topicId (uuid, now, payload) payloads Hstop)
        as [-> ->].
      cbn [fmap list_fmap run perform].
      unfold bind, effect, outcome, state, events in *.
      destruct (publish raises uuid now topicId payload mq) as [[o mq1] ev1].
      cbn [fst snd] in *. subst o. cbn [fst snd]. by rewrite app_nil_r.
    - destruct (attempted_go mq topicId (uuid, now, payload) payloads Hstop)
        as [-> ->].
      cbn [fmap list_fmap run perform].
      unfold bind, effect, outcome, state, events in *.
      destruct (publish raises uuid now topicId payload mq) as [[o mq1] ev1].
      cbn [fst snd] in *. subst o.
      destruct (attempted_posts mq mq1 topicId payloads Hposts) as [<- <-].
      destruct (IH mq1) as [Hrun Hout1].
      destruct (for_of payloads _ mq1) as [[o2 mq2] ev2]. cbn [fst snd] in *.
      by rewrite <- Hrun. }
  destruct Hrun as [Hrun Hout]. split_and!; [done | done | |].
  - apply attempted_prefix.
  - rewrite Hout. apply attempted_prefix.
Qed.

Lemma batch_buffer payloads : ∀ mq topicId topic buffer,
  isClosed mq = false →
  getTopic topicId mq = Some topic →
  TopicState.buffer topic = Some buffer →
  getTopic topicId (state (publishBatchById raises topicId payloads mq)) =
    Some (with_buffer
            (Some (RingBuffer.push_all
                     (batch_messages topicId
                        (attempted topicId payloads mq) mq) buffer))
            topic).
Proof.
  induction payloads as [|[[uuid now] payload] payloads IH];
    intros mq topicId topic buffer Hopen Hget Hbuffer.
  - unfold state, attempted. destruct (posts topicId mq); simpl.
    all: rewrite Hget; f_equal; destruct topic; simpl in *; by subst.
  - unfold publishBatchById in *. cbn [for_of].
    pose proof (getTopic_published mq topicId topic buffer uuid now payload
                  Hopen Hget Hbuffer) as Hget1.
    pose proof (publish_outcome raises mq uuid now topicId payload) as Hout.
    pose proof (posts_publish mq uuid now topicId payload) as Hposts.
    assert (Hopen1 : isClosed
              (state (publish raises uuid now topicId payload mq)) = false).
    { rewrite (publish_open raises _ _ _ _ _ topic) by done.
      unfold state, dispatched. simpl. by destruct (TopicState.buffer topic). }
    assert (Hclient : clientId
              (state (publish raises uuid now topicId payload mq)) = clientId mq).
    { rewrite (publish_open raises _ _ _ _ _ topic) by done.
      unfold state, dispatched. simpl. by destruct (TopicState.buffer topic). }
    destruct (posts topicId mq && unclonable payload) eqn:Hstop.
    + destruct (attempted_stop mq topicId (uuid, now, payload) payloads Hstop)
        as [-> _].
      unfold bind, outcome, state in *.
      destruct (publish raises uuid now topicId payload mq) as [[o mq1] ev1].
      cbn [fst snd] in *. subst o. cbn [fst snd]. by rewrite Hget1.
    + destruct (attempted_go mq topicId (uuid, now, payload) payloads Hstop)
        as [-> _].
      unfold bind, outcome, state in *.
      destruct (publish raises uuid now topicId payload mq) as [[o mq1] ev1].
      cbn [fst snd] in *. subst o.
      destruct (attempted_posts mq mq1 topicId payloads Hposts) as [<- _].
      specialize (IH mq1 topicId _ _ Hopen1 Hget1 eq_refl).
      destruct (for_of payloads _ mq1) as [[o2 mq2] ev2]. cbn [fst snd] in *.
      rewrite IH. unfold batch_messages, createMessage. simpl.
      by rewrite Hclient.
Qed.

(** X13. After [enableTopicBuffer], with a capacity below [2 ** 32] (100
    when none was given), on a topic of a queue that is not closed, a batch
    of payloads leaves in the buffer the last of the payloads that the
    batch got to publish, as many as the capacity, in the order of the
    batch. Those are all the payloads of the batch when the queue has no
    channel or every payload can be cloned, and otherwise the payloads up
    to the first that cannot be cloned, that one included. *)
Theorem X13_buffer_keeps_last_of_batch mq topicId topic capacity payloads :
  isClosed mq = false →
  getTopic topicId mq = Some topic →
  (Z.of_nat (default 100%nat capacity) < 2 ^ 32)%Z →
  let mq1 := state (enableTopicBuffer topicId capacity mq) in
  let mq2 := state (publishBatchById raises topicId payloads mq1) in
  let sent := attempted topicId payloads mq in
  getBufferedMessages topicId mq2 =
    RingBuffer.last_n (default 100 capacity) (sent.*2) ∧
  getBufferSize topicId mq2 = length sent `min` default 100 capacity ∧
  getBufferCapacity topicId mq2 = default 100 capacity ∧
  (channel mq = None ∨ existsb (λ p, unclonable p.2) payloads = false →
   sent = payloads).
Proof.
  intros Hopen Hget Hsmall mq1 mq2 sent.
  assert (Hmq1 : mq1 =
            update_topic topicId
              (with_buffer (Some (RingBuffer.new (default 100 capacity)))) mq).
  { subst mq1. by rewrite (enableTopicBuffer_known _ _ _ topic). }
  assert (Hget1 : getTopic topicId mq1 =
            Some (with_buffer (Some (RingBuffer.new (default 100 capacity)))
                    topic)).
  { rewrite Hmq1. by rewrite getTopic_update_topic, Hget. }
  assert (Hopen1 : isClosed mq1 = false) by by rewrite Hmq1.
  assert (Hposts : posts topicId mq1 = posts topicId mq).
  { unfold posts. rewrite Hget1, Hget. by rewrite Hmq1. }
  pose proof (batch_buffer payloads mq1 topicId _ _ Hopen1 Hget1 eq_refl)
    as Hget2. fold mq2 in Hget2.
  destruct (attempted_posts mq mq1 topicId payloads Hposts) as [Hsent _].
  rewrite Hsent in Hget2. fold sent in Hget2.
  set (msgs := batch_messages topicId sent mq1) in *.
  pose proof (RingBufferFacts.reachable_rep (default 100 capacity) msgs) as Hrep.
  destruct (buffer_queries _ _ _ _ _ Hget2 eq_refl Hrep)
    as (Hmsgs & Hsize & Hcap & _).
  assert (Hpayloads : Message.payload <$> msgs = sent.*2).
  { subst msgs. unfold batch_messages. rewrite <- list_fmap_compose.
    apply list_fmap_ext. by intros i [[uuid now] payload] _. }
  rewrite Hmsgs, Hsize, Hcap. split_and!.
  - by rewrite fmap_last_n, Hpayloads.
  - rewrite RingBufferFacts.length_last_n. subst msgs.
    unfold batch_messages. by rewrite length_fmap.
  - by rewrite RingBufferFacts.capacity_push_all.
  - intros Hall. apply attempted_prefix. unfold batch_outcome.
    destruct Hall as [Hnone | ->].
    + by rewrite (posts_no_channel _ _ Hnone).
    + by rewrite andb_false_r.
Qed.

(** ** What reaches the channel *)

Lemma posts_notifications msg callbacks :
  filter (λ ev, is_post ev) (notifications raises msg callbacks) = [].
Proof.
  unfold notifications. induction callbacks as [|callback callbacks IH]; [done|].
  cbn [mbind list_bind]. rewrite filter_app, IH, app_nil_r.
  unfold notification. rewrite filter_cons_False by (simpl; auto).
  by destruct (raises _ _ _ _ _).
Qed.

(** X14. [publish] posts to the channel exactly when the queue has a
    channel, is not closed and knows the topic: then it posts one message
    of kind 0, which carries the message and the name of the topic;
    otherwise it posts nothing. *)
Theorem X14_publish_posts_once_when_attached mq uuid now topicId payload :
  filter (λ ev, is_post ev)
    (events (publish raises uuid now topicId payload mq)) =
  match channel mq, getTopic topicId mq with
  | Some _, Some topic =>
      if isClosed mq then []
      else [PostMessage 0
              (WireMsg.mk (createMessage uuid now topicId payload mq)
                 (TopicState.name topic))]
  | _, _ => []
  end.
Proof.
  destruct (isClosed mq) eqn:Hclosed.
  { rewrite publish_closed by done.
    by destruct (channel mq), (getTopic topicId mq). }
  destruct (getTopic topicId mq) as [topic|] eqn:Hget.
  - rewrite (publish_open raises _ _ _ _ _ topic) by done.
    unfold events. cbn [fst snd].
    rewrite filter_app, posts_notifications. unfold posted.
    by destruct (channel mq).
  - unfold publish, bind, get.
    rewrite dispatchLocal_unknown by done.
    rewrite broadcast_unknown by done. by destruct (channel mq).
Qed.

Lemma publishBatchById_closed topicId payloads mq :
  isClosed mq = true →
  publishBatchById raises topicId payloads mq = (Return (), mq, []).
Proof.
  intros Hclosed. unfold publishBatchById.
  induction payloads as [|[[uuid now] payload] payloads IH]; [done|].
  cbn [for_of]. unfold bind. rewrite publish_closed by done. by rewrite IH.
Qed.

Lemma handleChannelMessage_cases data mq :
  events (handleChannelMessage raises data mq) = [] ∨
  ∃ mq' msg callbacks,
    handleChannelMessage raises data mq =
      (Return (), mq', notifications raises msg callbacks).
Proof.
  destruct (isClosed mq) eqn:Hopen.
  { left. rewrite handleChannelMessage_ignored; auto. }
  destruct data as [|type wireMsg].
  { left. rewrite handleChannelMessage_ignored; auto. }
  destruct (decide (type = 0%Z)) as [->|Hne]; last first.
  { left. rewrite handleChannelMessage_ignored; eauto 10. }
  destruct (decide (Message.id (WireMsg.msg wireMsg) ∈ seenIds mq)) as [Hin|Hnin].
  { left. rewrite handleChannelMessage_ignored; eauto 10. }
  destruct (decide (Message.origin_id (WireMsg.msg wireMsg) = clientId mq))
    as [Hown|Hother].
  { left. by rewrite handleChannelMessage_own. }
  right.
  destruct (handleChannelMessage_open raises mq wireMsg Hopen Hnin Hother)
    as (topicId & _ & ->).
  destruct (dispatchLocal_cases raises
              (local_message (WireMsg.msg wireMsg) topicId)
              (state (registerTopic (WireMsg.topic_name wireMsg)
                 (with_seenIds
                    ({[Message.id (WireMsg.msg wireMsg)]} ∪ seenIds mq) mq))))
    as (mq' & callbacks & ->).
  by eexists _, _, _.
Qed.

Lemma handleChannelMessage_no_post data mq :
  filter (λ ev, is_post ev) (events (handleChannelMessage raises data mq)) = [].
Proof.
  destruct (handleChannelMessage_cases data mq)
    as [->|(mq' & msg & callbacks & ->)]; [done|].
  apply posts_notifications.
Qed.

Lemma quiet_perform c mq : is_quiet c = true → (perform raises c mq).2 = [].
Proof.
  intros Hquiet. destruct c; try done; simpl.
  - unfold registerTopic. by destruct (topicIndex mq !! name).
  - unfold subscribe. by destruct (getTopic _ _).
  - unfold unsubscribe. destruct (getTopic _ _) as [topic|]; [|done].
    by destruct (JsMap.delete _ _).
  - unfold unsubscribeAll. by destruct (getTopic _ _).
  - unfold enableTopicBuffer. destruct (getTopic _ _); [|done].
    by destruct (array_length_ok _).
  - unfold disableTopicBuffer. by destruct (getTopic _ _).
  - unfold clearBuffer. destruct (getTopic _ _) as [topic|]; [|done].
    by destruct (TopicState.buffer topic).
  - unfold destroyTopic. by destruct (getTopic _ _).
Qed.

Lemma field_perform (P : Queue → Prop) c mq :
  (∀ seen mq, P mq → P (with_seenIds seen mq)) →
  (∀ topics mq, P mq → P (with_topics topics mq)) →
  (∀ index mq, P mq → P (with_topicIndex index mq)) →
  (∀ mq, P mq → P (state (close mq))) →
  P mq → P (perform raises c mq).1.
Proof.
  intros Hseen Htopics Hindex Hclose HP.
  assert (Hupdate : ∀ topicId f mq, P mq → P (update_topic topicId f mq)).
  { intros. by apply Htopics. }
  assert (Hreg : ∀ name, preserves P (registerTopic name)).
  { intros name mq' HP'. unfold registerTopic, state.
    destruct (topicIndex mq' !! name); simpl; auto. }
  destruct c; simpl.
  - by apply Hreg.
  - unfold subscribe, state. destruct (getTopic _ _); simpl; auto.
  - unfold unsubscribe, state. destruct (getTopic _ _) as [topic|]; [|done].
    destruct (JsMap.delete _ _). simpl. auto.
  - unfold unsubscribeAll, state. destruct (getTopic _ _); simpl; auto.
  - apply preserves_publish; auto.
  - apply preserves_publishBatchById; auto.
  - unfold enableTopicBuffer, state. destruct (getTopic _ _); simpl; [|done].
    destruct (array_length_ok _); simpl; auto.
  - unfold disableTopicBuffer, state. destruct (getTopic _ _); simpl; auto.
  - unfold clearBuffer, state. destruct (getTopic _ _) as [topic|]; simpl; [|done].
    destruct (TopicState.buffer topic) as [buffer|]; simpl; auto.
  - unfold destroyTopic, state. destruct (getTopic _ _); simpl; auto.
  - by apply Hclose.
  - apply preserves_handleChannelMessage; auto.
Qed.

Lemma closed_perform c mq :
  isClosed mq = true →
  isClosed (perform raises c mq).1 = true ∧
  invocations (perform raises c mq).2 = [] ∧
  filter (λ ev, is_post ev) (perform raises c mq).2 = [].
Proof.
  intros Hclosed. split.
  { by apply (field_perform (λ mq, isClosed mq = true)). }
  destruct (is_quiet c) eqn:Hquiet.
  { by rewrite quiet_perform. }
  destruct c; try done; cbn [perform].
  - by rewrite publish_closed.
  - by rewrite publishBatchById_closed.
  - rewrite close_eq. unfold effect, events. simpl. by destruct (channel mq).
  - by rewrite handleChannelMessage_ignored by auto.
Qed.

(** X15. A closed queue stays closed and delivers nothing: whatever calls
    are made on it and whatever messages arrive from the channel, no
    subscriber callback is called and nothing is posted to the channel. *)
Theorem X15_closed_queue_stays_silent mq calls :
  isClosed mq = true →
  isClosed (run raises calls mq).1 = true ∧
  invocations (run raises calls mq).2 = [] ∧
  filter (λ ev, is_post ev) (run raises calls mq).2 = [].
Proof.
  revert mq. induction calls as [|c calls IH]; intros mq Hclosed; [done|].
  simpl. destruct (closed_perform c mq Hclosed) as (Hc & Hinv & Hpost).
  destruct (perform raises c mq) as [mq1 ev1]. simpl in *.
  destruct (IH mq1 Hc) as (Hc' & Hinv' & Hpost').
  destruct (run raises calls mq1) as [mq2 ev2]. simpl in *.
  unfold invocations in *. by rewrite !filter_app, Hinv, Hinv', Hpost, Hpost'.
Qed.

Lemma publishBatchById_no_channel topicId payloads : ∀ mq,
  channel mq = None →
  filter (λ ev, is_post ev)
    (events (publishBatchById raises topicId payloads mq)) = [].
Proof.
  unfold publishBatchById.
  induction payloads as [|[[uuid now] payload] payloads IH];
    intros mq Hnone; [done|].
  cbn [for_of].
  assert (Hnone1 : channel
            (state (publish raises uuid now topicId payload mq)) = None).
  { by apply (preserves_publish raises (λ mq, channel mq = None)). }
  assert (Hpost : filter (λ ev, is_post ev)
            (events (publish raises uuid now topicId payload mq)) = []).
  { destruct (isClosed mq) eqn:Hclosed.
    - by rewrite publish_closed.
    - destruct (getTopic topicId mq) as [topic|] eqn:Hget.
      + rewrite (publish_open raises _ _ _ _ _ topic) by done.
        unfold events, posted. cbn [fst snd].
        by rewrite Hnone, app_nil_r, posts_notifications.
      + unfold publish, bind, get.
        rewrite dispatchLocal_unknown by done.
        by rewrite broadcast_unknown. }
  assert (Hout : outcome (publish raises uuid now topicId payload mq) =
            Return ()).
  { apply publish_returns. by rewrite posts_no_channel. }
  unfold bind, outcome, state, events in *.
  destruct (publish raises uuid now topicId payload mq) as [[o mq1] ev1].
  simpl in *. subst o. specialize (IH mq1 Hnone1).
  destruct (for_of payloads _ mq1) as [[o2 mq2] ev2]. simpl in *.
  by rewrite filter_app, Hpost, IH.
Qed.

Lemma no_channel_perform c mq :
  channel mq = None →
  channel (perform raises c mq).1 = None ∧
  filter (λ ev, is_post ev) (perform raises c mq).2 = [].
Proof.
  intros Hnone. split.
  { by apply (field_perform (λ mq, channel mq = None)). }
  destruct (is_quiet c) eqn:Hquiet.
  { by rewrite quiet_perform. }
  destruct c; try done; cbn [perform].
  - pose proof (publishBatchById_no_channel topicId
                  [(uuid, now, payload)] mq Hnone) as Hpost.
    unfold publishBatchById in Hpost. cbn [for_of] in Hpost.
    unfold bind, ret, events in *.
    destruct (publish raises uuid now topicId payload mq) as [[[[]|e] mq1] ev1];
      simpl in *; [by rewrite app_nil_r in Hpost | done].
  - by apply publishBatchById_no_channel.
  - rewrite close_eq. unfold effect, events. simpl. by rewrite Hnone.
  - apply handleChannelMessage_no_post.
Qed.

(** X16. A queue without a channel never posts: when no channel name was
    given, when the name is empty or when the platform has no
    [BroadcastChannel], no sequence of calls makes the queue post a
    message, and the queue never gets a channel. *)
Theorem X16_queue_without_channel_never_posts
    uuid hasBroadcastChannel channelName calls :
  hasBroadcastChannel = false ∨ channelName = None ∨
    channelName = Some EmptyString →
  let mq := new uuid hasBroadcastChannel channelName in
  channel mq = None ∧
  channel (run raises calls mq).1 = None ∧
  filter (λ ev, is_post ev) (run raises calls mq).2 = [].
Proof.
  intros Hlocal mq.
  assert (Hnone : channel mq = None).
  { subst mq. unfold new. simpl.
    destruct Hlocal as [->|[->| ->]]; [|done|done].
    destruct channelName; [|done]. by rewrite andb_false_r. }
  split; [done|]. clearbody mq. revert mq Hnone.
  induction calls as [|c calls IH]; intros mq Hnone; [done|]. simpl.
  destruct (no_channel_perform c mq Hnone) as [Hc Hpost].
  destruct (perform raises c mq) as [mq1 ev1]. simpl in *.
  destruct (IH mq1 Hc) as [Hc' Hpost'].
  destruct (run raises calls mq1) as [mq2 ev2]. simpl in *.
  by rewrite filter_app, Hpost, Hpost'.
Qed.

(** ** From one queue to another *)

(** X17. A message published on a queue with a channel reaches the
    subscribers of another queue once. The publishing queue posts one wire
    message and ignores it when it comes back. A queue that is not closed,
    has another client id and has not seen the message calls the
    subscribers of its own topic of that name, with its own id of the
    topic and the payload, timestamp and message id of the sender; when it
    does not know the name it registers the topic, with the next id, and
    calls nobody. It ignores the same message when it arrives again. *)
Theorem X17_message_crosses_to_another_queue
    (a b : Queue) uuid now topicId payload topic channelName :
  isClosed a = false →
  channel a = Some channelName →
  getTopic topicId a = Some topic →
  reachable raises b →
  isClosed b = false →
  uuid ∉ seenIds b →
  clientId a ≠ clientId b →
  let name := TopicState.name topic in
  let wire := WireMsg.mk (createMessage uuid now topicId payload a) name in
  let sent := publish raises uuid now topicId payload a in
  let received := handleChannelMessage raises (Data 0 wire) b in
  filter (λ ev, is_post ev) (events sent) = [PostMessage 0 wire] ∧
  handleChannelMessage raises (Data 0 wire) (state sent) =
    (Return (), state sent, []) ∧
  (∀ local,
     topicIndex b !! name = Some local →
     ∃ topic',
       getTopic local b = Some topic' ∧
       invocations (events received) =
         (λ callback, Invoke callback payload local now uuid) <$>
           JsMap.values (TopicState.subscribers topic')) ∧
  (topicIndex b !! name = None →
     events received = [] ∧
     topicIndex (state received) !! name = Some (length (topics b))) ∧
  handleChannelMessage raises (Data 0 wire) (state received) =
    (Return (), state received, []).
Proof.
  intros Ha Hchannel Hget Hb Hopen Hnew Hother name wire sent received.
  set (msg := createMessage uuid now topicId payload a) in *.
  set (b1 := with_seenIds ({[uuid]} ∪ seenIds b) b).
  assert (Hsent : sent =
            (post_outcome payload a, dispatched msg topic a,
             notifications raises msg
               (JsMap.values (TopicState.subscribers topic)) ++
             posted msg topic a)).
  { subst sent. by apply publish_open. }
  assert (Hreceived : ∃ local,
            outcome (registerTopic name b1) = Return local ∧
            received =
              dispatchLocal raises (local_message msg local)
                (state (registerTopic name b1))).
  { subst received.
    apply (handleChannelMessage_open raises b wire); [done|done|].
    simpl. congruence. }
  destruct Hreceived as (local & Hlocal & Hreceived).
  split_and!.
  - rewrite Hsent. unfold events, posted. cbn [fst snd].
    by rewrite filter_app, posts_notifications, Hchannel.
  - apply handleChannelMessage_ignored. right. right. right.
    exists wire. split; [done|]. rewrite Hsent. unfold state. cbn [fst snd].
    apply (seen_dispatched msg topic a).
  - intros known Hknown.
    pose proof (reachable_registry raises b Hb) as (Hix & _ & _).
    pose proof Hknown as Hslot. apply Hix in Hslot as (topic' & Hget' & _).
    exists topic'. split; [done|].
    rewrite (registerTopic_known b1 name known) in * by done.
    unfold outcome in Hlocal. simpl in Hlocal. injection Hlocal as <-.
    rewrite Hreceived. unfold state. cbn [fst snd].
    assert (Hopen1 : isClosed b1 = false) by exact Hopen.
    assert (Hget1 : getTopic (Message.topic_id (local_message msg known)) b1 =
              Some topic') by exact Hget'.
    rewrite (dispatchLocal_known raises _ _ topic' Hopen1 Hget1).
    unfold events. cbn [fst snd].
    by rewrite invocations_notifications.
  - intros Hunknown.
    rewrite (registerTopic_new b1 name) in * by done.
    unfold outcome in Hlocal. simpl in Hlocal. injection Hlocal as <-.
    rewrite Hreceived. unfold state at 1 3. cbn [fst snd].
    set (b2 := with_topicIndex _ _).
    assert (Hget2 : getTopic (length (topics b)) b2 =
              Some (TopicState.mk (length (topics b)) name [] None 0)).
    { unfold getTopic. subst b2. simpl.
      by rewrite lookup_app_r, Nat.sub_diag by lia. }
    assert (Hopen2 : isClosed b2 = false) by exact Hopen.
    rewrite (dispatchLocal_known raises
               (local_message msg (length (topics b))) b2 _ Hopen2 Hget2).
    unfold events, state, dispatched. cbn [fst snd]. simpl.
    split; [done|]. apply lookup_insert_eq.
  - apply handleChannelMessage_ignored. right. right. right.
    exists wire. split; [done|]. rewrite Hreceived.
    apply (seen_dispatchLocal raises (local_message msg local)).
    destruct (topicIndex b !! name) as [known|] eqn:Hix.
    + by rewrite (registerTopic_known b1 name known).
    + by rewrite (registerTopic_new b1 name).
Qed.

(** ** Destroyed topics and cleared buffers *)

(** X18. A destroyed topic keeps its slot and can be used again. On a queue
    that is not closed a [publish] to it calls nobody and buffers nothing,
    but is still posted to the channel under the topic's name when the
    queue has one; [subscribe] works and goes on counting where the
    subscription ids of the topic stopped, and the new subscriber is the
    only one a [publish] calls. *)
Theorem X18_destroyed_topic_can_be_used_again
    mq topicId topic uuid now payload callback :
  isClosed mq = false →
  getTopic topicId mq = Some topic →
  let mq1 := state (destroyTopic topicId mq) in
  let again := subscribe topicId callback mq1 in
  events (publish raises uuid now topicId payload mq1) =
    posted (createMessage uuid now topicId payload mq) topic mq ∧
  getBufferedMessages topicId
    (state (publish raises uuid now topicId payload mq1)) = [] ∧
  outcome again = Return (TopicState.nextSubId topic) ∧
  invocations (events (publish raises uuid now topicId payload (state again))) =
    [Invoke callback payload topicId now uuid].
Proof.
  intros Hopen Hget mq1 again.
  set (destroyed := with_buffer None (with_subscribers [] topic)).
  assert (Hget1 : getTopic topicId mq1 = Some destroyed).
  { subst mq1. unfold destroyTopic. rewrite Hget. unfold state. cbn [fst snd].
    by rewrite getTopic_update_topic, Hget. }
  assert (Hopen1 : isClosed mq1 = false).
  { subst mq1. unfold destroyTopic. by rewrite Hget. }
  assert (Hget2 : getTopic topicId (state again) =
            Some (with_subscribers [(TopicState.nextSubId topic, callback)]
                    (with_nextSubId (TopicState.nextSubId topic + 1) destroyed))).
  { subst again. unfold subscribe. rewrite Hget1. unfold state. cbn [fst snd].
    by rewrite getTopic_update_topic, Hget1. }
  assert (Hopen2 : isClosed (state again) = false).
  { subst again. unfold subscribe. by rewrite Hget1. }
  split_and!.
  - rewrite (publish_open raises _ _ _ _ _ _ Hopen1 Hget1).
    unfold events. cbn [fst snd]. subst mq1.
    unfold destroyTopic. by rewrite Hget.
  - rewrite (publish_open raises _ _ _ _ _ _ Hopen1 Hget1).
    unfold state, dispatched. cbn [fst snd]. simpl.
    unfold getBufferedMessages. unfold getTopic in *. simpl. by rewrite Hget1.
  - subst again. unfold subscribe. by rewrite Hget1.
  - rewrite (publish_open raises _ _ _ _ _ _ Hopen2 Hget2).
    unfold events. cbn [fst snd].
    by rewrite invocations_app, invocations_notifications, invocations_posted.
Qed.

(** X19. On a queue in any state it can be in, [clearBuffer] returns the
    number of buffered messages and empties the buffer of the topic, which
    stays enabled with its capacity. The topic is otherwise the one it was:
    its subscriber table, with the same entries in the same order, its id,
    its name and its subscription counter; the other topics are as before
    and nothing happens outside the queue. The next [publish] on the queue,
    when it is not closed, is buffered as the first message. *)
Theorem X19_clear_buffer_keeps_the_buffer
    mq topicId topic buffer uuid now payload :
  reachable raises mq →
  getTopic topicId mq = Some topic →
  TopicState.buffer topic = Some buffer →
  let r := clearBuffer topicId mq in
  outcome r = Return (length (getBufferedMessages topicId mq)) ∧
  getBufferedMessages topicId (state r) = [] ∧
  getBufferSize topicId (state r) = 0 ∧
  getBufferCapacity topicId (state r) = getBufferCapacity topicId mq ∧
  hasBuffer topicId (state r) = true ∧
  subscriberCount topicId (state r) = subscriberCount topicId mq ∧
  getTopic topicId (state r) =
    Some (with_buffer (Some (RingBuffer.clear buffer).2) topic) ∧
  TopicState.subscribers <$> getTopic topicId (state r) =
    Some (TopicState.subscribers topic) ∧
  (∀ other, other ≠ topicId → getTopic other (state r) = getTopic other mq) ∧
  events r = [] ∧
  (isClosed mq = false →
     getBufferedMessages topicId
       (state (publish raises uuid now topicId payload (state r))) =
       RingBuffer.last_n (getBufferCapacity topicId mq) [payload]).
Proof.
  intros Hreach Hget Hbuffer r.
  destruct (reachable_buffer raises _ _ _ _ Hreach Hget Hbuffer) as [l Hrep].
  destruct (buffer_queries _ _ _ _ _ Hget Hbuffer Hrep)
    as (Hmsgs & Hsize & Hcap & Hbound).
  destruct (RingBufferOpsFacts.rep_clear buffer l Hrep) as [Hcount Hempty].
  set (cleared := with_buffer (Some (RingBuffer.clear buffer).2) topic).
  assert (Hr : r =
            (Return (length l),
             update_topic topicId
               (with_buffer (Some (RingBuffer.clear buffer).2)) mq, [])).
  { subst r. unfold clearBuffer. rewrite Hget, Hbuffer.
    destruct (RingBuffer.clear buffer) as [count buffer'] eqn:Hclear.
    simpl in *. by subst. }
  assert (Hget1 : getTopic topicId (state r) = Some cleared).
  { rewrite Hr. unfold state. cbn [fst snd].
    by rewrite getTopic_update_topic, Hget. }
  destruct (buffer_queries _ _ _ _ _ Hget1 eq_refl Hempty)
    as (Hmsgs1 & Hsize1 & Hcap1 & _).
  split_and!.
  - by rewrite Hr, Hmsgs, length_fmap.
  - by rewrite Hmsgs1.
  - by rewrite Hsize1.
  - by rewrite Hcap1, Hcap.
  - unfold hasBuffer. by rewrite Hget1.
  - by rewrite (subscribers_of _ _ _ Hget1), (subscribers_of _ _ _ Hget).
  - exact Hget1.
  - by rewrite Hget1.
  - intros other Hne. rewrite Hr. unfold state. cbn [fst snd].
    by apply getTopic_update_topic_ne.
  - by rewrite Hr.
  - intros Hopen.
    assert (Hopen1 : isClosed (state r) = false) by by rewrite Hr.
    pose proof (getTopic_published (state r) topicId cleared _ uuid now payload
                  Hopen1 Hget1 eq_refl) as Hget2.
    set (msg := createMessage uuid now topicId payload (state r)) in *.
    pose proof (RingBufferOpsFacts.rep_apply (RingBufferOps.Push msg) _ _ Hempty)
      as Hrep2.
    destruct (buffer_queries _ _ _ _ _ Hget2 eq_refl Hrep2) as (Hmsgs2 & _).
    rewrite Hmsgs2, Hcap.
    rewrite (fifo_push_last_n _ [] msg) by (simpl; lia).
    by rewrite fmap_last_n.
Qed.

(** X22. [disableTopicBuffer] takes the buffer of a topic away: the topic
    has no buffer and no buffered messages, a later [publish] is not
    buffered, and the subscribers get what they would have got with the
    buffer. *)
Theorem X22_disabled_buffer_stores_nothing mq topicId topic uuid now payload :
  getTopic topicId mq = Some topic →
  let mq1 := state (disableTopicBuffer topicId mq) in
  hasBuffer topicId mq1 = false ∧
  getBufferedMessages topicId mq1 = [] ∧
  getBufferedMessages topicId
    (state (publish raises uuid now topicId payload mq1)) = [] ∧
  subscriberCount topicId mq1 = subscriberCount topicId mq ∧
  events (publish raises uuid now topicId payload mq1) =
    events (publish raises uuid now topicId payload mq).
Proof.
  intros Hget mq1.
  assert (Hget1 : getTopic topicId mq1 = Some (with_buffer None topic)).
  { subst mq1. unfold disableTopicBuffer. rewrite Hget.
    unfold modify, state. cbn [fst snd].
    by rewrite getTopic_update_topic, Hget. }
  assert (Hfields : isClosed mq1 = isClosed mq ∧ channel mq1 = channel mq ∧
                    clientId mq1 = clientId mq).
  { subst mq1. unfold disableTopicBuffer. by rewrite Hget. }
  destruct Hfields as (Hclosed & Hchannel & Hclient).
  split_and!.
  - unfold hasBuffer. by rewrite Hget1.
  - unfold getBufferedMessages. by rewrite Hget1.
  - destruct (isClosed mq1) eqn:Hc.
    + rewrite publish_closed by done. unfold state. cbn [fst snd].
      unfold getBufferedMessages. by rewrite Hget1.
    + rewrite (publish_open raises _ _ _ _ _ _ Hc Hget1).
      unfold state, dispatched. cbn [fst snd]. simpl.
      unfold getBufferedMessages. unfold getTopic in *. simpl.
      by rewrite Hget1.
  - by rewrite (subscribers_of _ _ _ Hget1), (subscribers_of _ _ _ Hget).
  - by apply (publish_events_same _ _ _ topic (with_buffer None topic)).
Qed.
End queue.
End MessageQueueMore.

(** * Streams *)

Module StreamFacts.
Import MessageQueue Invariants MessageQueueFacts MessageQueueInvariants.
Import MessageQueueMore.

Section stream.
Context {Payload : Type} `{!StructuredClone Payload}.
Variable listener_raises : nat → Payload → Stream.Args → bool.
Variable effect_raises : nat → Payload → bool.

Abbreviation Callback := (Stream.Callback Payload).
Abbreviation Queue := (MessageQueue.t Payload Callback).
Abbreviation raises := (Stream.raises listener_raises effect_raises).

Implicit Types (mq : Queue) (s : Stream.t Payload) (callback : Callback)
  (stages : list (Stream.Stage Payload)) (payload : Payload)
  (args : Stream.Args) (h : Topic.t).

(** A chain of stages subscribes, at the stream it starts from, the
    callback that the stages build around the one given, the first stage
    outermost. *)
Lemma pipeline_subscribes stages : ∀ s callback,
  Stream._subscribe (Stream.pipeline stages s) callback =
    Stream._subscribe s (foldr Stream.around callback stages).
Proof.
  induction stages as [|stage stages IH]; intros s callback; [done|].
  simpl. rewrite IH. by destruct stage.
Qed.

(** X20. Subscribing through [topic.stream()] and a chain of [map],
    [filter] and [tap] enters one callback in the topic's subscriber
    table, last, under the topic's next subscription id; a [publish] on a
    queue that is not closed calls it after the subscribers there were.
    [unsubscribe] of the subscription returned takes it out again and
    leaves the table as it was. *)
Theorem X20_stream_subscription_is_a_topic_subscription
    mq h topic stages callback :
  reachable raises mq →
  getTopic (Topic.id h) mq = Some topic →
  let wrapped := foldr Stream.around callback stages in
  let subId := TopicState.nextSubId topic in
  let r := Stream.subscribe (Stream.pipeline stages (Stream.stream h))
             callback mq in
  let sub := Stream.Build_Subscription h subId in
  outcome r = Return sub ∧
  events r = [] ∧
  TopicState.subscribers <$> getTopic (Topic.id h) (state r) =
    Some (TopicState.subscribers topic ++ [(subId, wrapped)]) ∧
  (isClosed mq = false →
   ∀ uuid now payload,
     invocations (events (publish raises uuid now (Topic.id h) payload (state r))) =
       invocations (events (publish raises uuid now (Topic.id h) payload mq)) ++
       [Invoke wrapped payload (Topic.id h) now uuid]) ∧
  outcome (Stream.unsubscribe sub (state r)) = Return true ∧
  TopicState.subscribers <$>
      getTopic (Topic.id h) (state (Stream.unsubscribe sub (state r))) =
    Some (TopicState.subscribers topic).
Proof.
  intros Hreach Hget wrapped subId r sub.
  assert (Hfresh : subId ∉ JsMap.keys (TopicState.subscribers topic)).
  { apply reachable_ordered in Hreach. unfold topics_ordered in Hreach.
    rewrite Forall_lookup in Hreach.
    destruct (Hreach _ _ Hget) as [_ Hbound]. by apply bound_fresh. }
  set (subscribed := with_subscribers
         (TopicState.subscribers topic ++ [(subId, wrapped)])
         (with_nextSubId (subId + 1) topic)).
  assert (Hr : r = (Return sub,
            update_topic (Topic.id h) (λ _, subscribed) mq, [])).
  { subst r. unfold Stream.subscribe. rewrite pipeline_subscribes.
    fold wrapped. unfold Stream.stream, Stream._subscribe, Topic.subscribe.
    unfold bind, ret, subscribe. rewrite Hget. cbn [fst snd app].
    f_equal. f_equal. unfold update_topic. f_equal.
    apply list_alter_ext; [|done]. intros topic' Hget'.
    unfold getTopic in Hget. rewrite Hget in Hget'. injection Hget' as <-.
    subst subscribed. by rewrite JsMap_set_fresh. }
  assert (Hget1 : getTopic (Topic.id h) (state r) = Some subscribed).
  { rewrite Hr. unfold state. cbn [fst snd].
    by rewrite getTopic_update_topic, Hget. }
  assert (Hunsub : Stream.unsubscribe sub (state r) =
            (Return true,
             update_topic (Topic.id h)
               (with_subscribers (TopicState.subscribers topic)) (state r),
             [])).
  { subst sub. unfold Stream.unsubscribe, Topic.unsubscribe, unsubscribe.
    cbn [Stream.sub_topic Stream.sub_id]. rewrite Hget1.
    subst subscribed. unfold with_subscribers at 1.
    cbn [TopicState.subscribers].
    by rewrite JsMap_delete_last. }
  split_and!.
  - by rewrite Hr.
  - by rewrite Hr.
  - by rewrite Hget1.
  - intros Hopen uuid now payload.
    assert (Hopen1 : isClosed (state r) = false) by by rewrite Hr.
    rewrite (publish_open raises _ _ _ _ _ _ Hopen1 Hget1).
    rewrite (publish_open raises _ _ _ _ _ _ Hopen Hget).
    unfold events. cbn [fst snd].
    rewrite !invocations_app, !invocations_notifications, !invocations_posted.
    rewrite !app_nil_r. subst subscribed. unfold JsMap.values.
    unfold invoke_with, createMessage. simpl. by rewrite !fmap_app.
  - by rewrite Hunsub.
  - rewrite Hunsub. unfold state at 1. cbn [fst snd].
    by rewrite getTopic_update_topic, Hget1.
Qed.

(** X21. The callback that a chain of [map], [filter] and [tap] subscribes
    puts a payload through the stages in the order of the chain: every
    [map] transforms it, a [filter] whose predicate fails holds it back, a
    [tap] calls its function with it and goes on, unless that function
    throws; what comes out at the end is passed to the callback given to
    [subscribe], with the other arguments unchanged. *)
Theorem X21_stages_apply_in_chain_order s stages callback :
  ∃ wrapped,
    Stream.subscribe (Stream.pipeline stages s) callback =
      Stream._subscribe s wrapped ∧
    ∀ payload args,
      Stream.act listener_raises effect_raises wrapped payload args =
      match Stream.flow effect_raises stages payload with
      | (steps, Stream.Passed out) =>
          (steps ++
             (Stream.act listener_raises effect_raises callback out args).1,
           (Stream.act listener_raises effect_raises callback out args).2)
      | (steps, Stream.Dropped) => (steps, false)
      | (steps, Stream.Raised) => (steps, true)
      end.
Proof.
  exists (foldr Stream.around callback stages). split.
  - unfold Stream.subscribe. apply pipeline_subscribes.
  - intros payload args. revert payload.
    induction stages as [|stage stages IH]; intros payload; simpl.
    + by destruct (Stream.act _ _ callback payload args).
    + destruct stage as [transform|predicate|effect]; simpl.
      * apply IH.
      * destruct (predicate payload); [apply IH | done].
      * destruct (effect_raises effect payload); [done|].
        rewrite IH.
        by destruct (Stream.flow effect_raises stages payload) as [steps []].
Qed.
End stream.
End StreamFacts.

(** * The further properties on the example queues *)

Module MoreInstances.
Import MessageQueue Invariants Examples MoreExamples.
Import RingBufferOpsFacts MessageQueueMore StreamFacts.

Lemma buffered_reachable : reachable failing buffered.
Proof. exists "client-a", true, (Some "app"), buffering. reflexivity. Qed.

Lemma remote_reachable : reachable failing remote.
Proof. exists "client-b", true, (Some "app"), remote_setup. reflexivity. Qed.

Lemma streamed_reachable : reachable (Stream.raises calm mild) streamed.
Proof.
  exists "client-a", true, (Some "app"),
    [CallRegisterTopic "news"; CallSubscribe 0 (Stream.Listener 1)].
  reflexivity.
Qed.

Lemma X1_ring_buffer_is_a_bounded_fifo_witness :
  RingBuffer.getAll (RingBufferOps.run ring_ops (RingBuffer.new 2)) = [3; 4] ∧
  RingBuffer.len (RingBufferOps.run ring_ops (RingBuffer.new 2)) ≤ 2.
Proof.
  split.
  - exact (proj1 (X1_ring_buffer_is_a_bounded_fifo 2 ring_ops)).
  - exact (proj1 (proj2 (proj2 (X1_ring_buffer_is_a_bounded_fifo 2 ring_ops)))).
Defined.

Lemma X2_pop_and_peek_take_the_oldest_witness :
  RingBuffer.getAll
    (RingBufferOps.run [RingBufferOps.Push 1; RingBufferOps.Pop]
       (RingBuffer.new 2)) = [] ∧
  RingBuffer.pop
    (RingBufferOps.run [RingBufferOps.Push 1; RingBufferOps.Pop]
       (RingBuffer.new 2)) =
    (None,
     RingBufferOps.run [RingBufferOps.Push 1; RingBufferOps.Pop]
       (RingBuffer.new 2)).
Proof.
  split; [reflexivity|].
  exact (proj2 (proj2 (proj2 (proj2
    (X2_pop_and_peek_take_the_oldest 2
       [RingBufferOps.Push 1; RingBufferOps.Pop])))) eq_refl).
Defined.

Lemma X5_registered_id_names_its_topic_witness :
  reachable failing subscribed ∧
  topicIndex subscribed !! "sports" = None ∧
  ∃ id,
    outcome (registerTopic "sports" subscribed) = Return id ∧
    id = 1.
Proof.
  split; [exact Instances.subscribed_reachable|]. split; [reflexivity|].
  destruct (X5_registered_id_names_its_topic failing subscribed "sports" 7
              Instances.subscribed_reachable)
    as (id & topic & Hout & _ & _ & _ & _ & Hnew & _).
  exists id. split; [exact Hout | exact (proj2 (Hnew eq_refl))].
Defined.

Lemma X6_topic_handle_stays_valid_witness :
  reachable failing subscribed ∧
  no_close afterwards = true ∧
  ∃ h topic,
    outcome (Topic.topic "news" subscribed) = Return h ∧
    getTopic (Topic.id h)
      (run failing
         afterwards
         (state (Topic.topic "news" subscribed))).1 = Some topic ∧
    TopicState.name topic = "news".
Proof.
  split; [exact Instances.subscribed_reachable|]. split; [reflexivity|].
  destruct (X6_topic_handle_stays_valid failing subscribed "news"
              afterwards 7
              Instances.subscribed_reachable eq_refl)
    as (h & topic & Hout & _ & Hget & Hname & _).
  exists h, topic. split; [exact Hout|]. split; [exact Hget | exact Hname].
Defined.

Lemma X7_subscription_ids_increase_witness :
  outcome (subscribe 0 7 subscribed) = Return 2 ∧
  no_close afterwards = true ∧
  ∃ later,
    outcome (subscribe 0 9
      (run failing afterwards
         (state (subscribe 0 7 subscribed))).1) = Return later ∧
    2 < later.
Proof.
  split; [reflexivity|]. split; [reflexivity|].
  exact (X7_subscription_ids_increase failing subscribed 0 7 9
           afterwards 2 eq_refl eq_refl).
Defined.


Lemma X9_unsubscribe_all_and_count_witness :
  getTopic 0 subscribed =
    Some (TopicState.mk 0 "news" [(0, 13); (1, 8)]
            (Some (RingBuffer.new 2)) 2) ∧
  isClosed subscribed = false ∧
  length (invocations (events (publish failing "m-1" 1000 0 5 subscribed))) = 2 ∧
  outcome (unsubscribeAll 0 subscribed) = Return 2.
Proof.
  split; [exact Instances.subscribed_news|]. split; [reflexivity|].
  destruct (X9_unsubscribe_all_and_count failing subscribed 0 _ "m-1" 1000 5
              Instances.subscribed_news)
    as (Hcount & Hall & _).
  split; [exact (Hcount eq_refl) | exact Hall].
Defined.

Lemma X10_publish_appends_to_buffer_witness :
  reachable failing buffered ∧
  isClosed buffered = false ∧
  getBufferedMessages 0 buffered = [5; 6] ∧
  getBufferedMessages 0 (state (publish failing "m-3" 1002 0 7 buffered)) =
    [6; 7].
Proof.
  split; [exact buffered_reachable|]. split; [reflexivity|].
  split; [reflexivity|].
  exact (proj1 (X10_publish_appends_to_buffer failing buffered 0 _ _
                  "m-3" 1002 7 buffered_reachable eq_refl eq_refl eq_refl)).
Defined.

Lemma X11_buffer_size_within_capacity_witness :
  reachable failing buffered ∧
  getBufferSize 0 buffered ≤ getBufferCapacity 0 buffered ∧
  hasBuffer 5 buffered = false ∧
  getBufferSize 5 buffered = 0.
Proof.
  split; [exact buffered_reachable|]. split.
  - exact (proj1 (proj2
      (X11_buffer_size_within_capacity failing buffered 0 buffered_reachable))).
  - split; [reflexivity|].
    exact (proj1 (proj2 (proj2
      (X11_buffer_size_within_capacity failing buffered 5 buffered_reachable))
      eq_refl)).
Defined.

Lemma X13_buffer_keeps_last_of_batch_witness :
  isClosed subscribed = false ∧
  getTopic 0 subscribed =
    Some (TopicState.mk 0 "news" [(0, 13); (1, 8)]
            (Some (RingBuffer.new 2)) 2) ∧
  (Z.of_nat 2 < 2 ^ 32)%Z ∧
  getBufferedMessages 0
    (state (publishBatchById failing 0
       [("m-1", 1000%Z, 5); ("m-2", 1001%Z, 6); ("m-3", 1002%Z, 7)]
       (state (enableTopicBuffer 0 (Some 2) subscribed)))) = [6; 7] ∧
  getBufferedMessages 0
    (state (publishBatchById failing 0
       [("m-1", 1000%Z, 5); ("m-2", 1001%Z, 6); ("m-3", 1002%Z, 99);
        ("m-4", 1003%Z, 7)]
       (state (enableTopicBuffer 0 (Some 2) subscribed)))) = [6; 99].
Proof.
  assert (Hsmall : (Z.of_nat 2 < 2 ^ 32)%Z) by lia.
  split; [reflexivity|]. split; [exact Instances.subscribed_news|].
  split; [exact Hsmall|]. split.
  - exact (proj1 (X13_buffer_keeps_last_of_batch failing subscribed 0 _ (Some 2)
                    [("m-1", 1000%Z, 5); ("m-2", 1001%Z, 6); ("m-3", 1002%Z, 7)]
                    eq_refl Instances.subscribed_news Hsmall)).
  - exact (proj1 (X13_buffer_keeps_last_of_batch failing subscribed 0 _ (Some 2)
                    [("m-1", 1000%Z, 5); ("m-2", 1001%Z, 6);
                     ("m-3", 1002%Z, 99); ("m-4", 1003%Z, 7)]
                    eq_refl Instances.subscribed_news Hsmall)).
Defined.

Lemma X15_closed_queue_stays_silent_witness :
  isClosed closed = true ∧
  invocations
    (run failing
       [CallRegisterTopic "news"; CallSubscribe 0 7;
        CallPublish "m-1" 1000 0 5; Receive (Data 0 foreign)] closed).2 = [].
Proof.
  split; [reflexivity|].
  exact (proj1 (proj2
    (X15_closed_queue_stays_silent failing closed
       [CallRegisterTopic "news"; CallSubscribe 0 7;
        CallPublish "m-1" 1000 0 5; Receive (Data 0 foreign)] eq_refl))).
Defined.

Lemma X16_queue_without_channel_never_posts_witness :
  (false = false ∨ Some "app" = None ∨ Some "app" = Some EmptyString) ∧
  filter (λ ev, is_post ev)
    (run failing (setup ++ [CallPublish "m-1" 1000 0 5])
       (new "client-a" false (Some "app"))).2 = [].
Proof.
  assert (Hlocal : false = false ∨ Some "app" = None ∨
                   Some "app" = Some EmptyString) by (left; reflexivity).
  split; [exact Hlocal|].
  exact (proj2 (proj2
    (X16_queue_without_channel_never_posts failing "client-a" false
       (Some "app") (setup ++ [CallPublish "m-1" 1000 0 5]) Hlocal))).
Defined.

Lemma X17_message_crosses_to_another_queue_witness :
  isClosed subscribed = false ∧
  channel subscribed = Some "app" ∧
  reachable failing remote ∧
  isClosed remote = false ∧
  ("m-1" ∉ seenIds remote) ∧
  clientId subscribed ≠ clientId remote ∧
  topicIndex remote !! "news" = Some 1 ∧
  ∃ topic',
    getTopic 1 remote = Some topic' ∧
    invocations
      (events (handleChannelMessage failing
         (Data 0 (WireMsg.mk (createMessage "m-1" 1000 0 5 subscribed) "news"))
         remote)) =
      (λ callback, Invoke callback 5 1 1000%Z "m-1") <$>
        JsMap.values (TopicState.subscribers topic').
Proof.
  assert (Hnew : "m-1" ∉ seenIds remote) by compute_done.
  assert (Hother : clientId subscribed ≠ clientId remote) by discriminate.
  split; [reflexivity|]. split; [reflexivity|].
  split; [exact remote_reachable|]. split; [reflexivity|].
  split; [exact Hnew|]. split; [exact Hother|]. split; [reflexivity|].
  exact (proj1 (proj2 (proj2
    (X17_message_crosses_to_another_queue failing subscribed remote
       "m-1" 1000 0 5 _ "app" eq_refl eq_refl Instances.subscribed_news
       remote_reachable eq_refl Hnew Hother))) 1 eq_refl).
Defined.

Lemma X18_destroyed_topic_can_be_used_again_witness :
  isClosed subscribed = false ∧
  getTopic 0 subscribed =
    Some (TopicState.mk 0 "news" [(0, 13); (1, 8)]
            (Some (RingBuffer.new 2)) 2) ∧
  outcome (subscribe 0 7 (state (destroyTopic 0 subscribed))) = Return 2 ∧
  invocations
    (events (publish failing "m-1" 1000 0 5
       (state (subscribe 0 7 (state (destroyTopic 0 subscribed)))))) =
    [Invoke 7 5 0 1000%Z "m-1"].
Proof.
  split; [reflexivity|]. split; [exact Instances.subscribed_news|].
  destruct (X18_destroyed_topic_can_be_used_again failing subscribed 0 _
              "m-1" 1000 5 7 eq_refl Instances.subscribed_news)
    as (_ & _ & Hid & Hcalls).
  split; [exact Hid | exact Hcalls].
Defined.

Lemma X19_clear_buffer_keeps_the_buffer_witness :
  reachable failing buffered ∧
  isClosed buffered = false ∧
  outcome (clearBuffer 0 buffered) = Return 2 ∧
  TopicState.subscribers <$> getTopic 0 (state (clearBuffer 0 buffered)) =
    Some [(0, 13); (1, 8)] ∧
  getBufferedMessages 0
    (state (publish failing "m-3" 1002 0 7 (state (clearBuffer 0 buffered)))) =
    [7].
Proof.
  split; [exact buffered_reachable|]. split; [reflexivity|].
  destruct (X19_clear_buffer_keeps_the_buffer failing buffered 0 _ _
              "m-3" 1002 7 buffered_reachable eq_refl eq_refl)
    as (Hcount & _ & _ & _ & _ & _ & _ & Hsubs & _ & _ & Hnext).
  split; [exact Hcount|]. split; [exact Hsubs | exact (Hnext eq_refl)].
Defined.

Lemma X22_disabled_buffer_stores_nothing_witness :
  getTopic 0 buffered =
    Some (TopicState.mk 0 "news" [(0, 13); (1, 8)]
            (Some (RingBuffer.push_all
               [Message.mk "m-1" 0 "client-a" 5 1000;
                Message.mk "m-2" 0 "client-a" 6 1001]
               (RingBuffer.new 2))) 2) ∧
  getBufferedMessages 0 buffered = [5; 6] ∧
  getBufferedMessages 0
    (state (publish failing "m-3" 1002 0 7
       (state (disableTopicBuffer 0 buffered)))) = [].
Proof.
  split; [reflexivity|]. split; [reflexivity|].
  exact (proj1 (proj2 (proj2
    (X22_disabled_buffer_stores_nothing failing buffered 0 _ "m-3" 1002 7
       eq_refl)))).
Defined.

Lemma X20_stream_subscription_is_a_topic_subscription_witness :
  reachable (Stream.raises calm mild) streamed ∧
  isClosed streamed = false ∧
  getTopic (Topic.id news) streamed =
    Some (TopicState.mk 0 "news" [(0, Stream.Listener 1)] None 1) ∧
  outcome
    (Stream.subscribe (Stream.pipeline stages (Stream.stream news))
       (Stream.Listener 2) streamed) =
    Return (Stream.Build_Subscription news 1) ∧
  invocations
    (events (publish (Stream.raises calm mild) "m-1" 1000 0 5
       (state (Stream.subscribe (Stream.pipeline stages (Stream.stream news))
                 (Stream.Listener 2) streamed)))) =
    invocations
      (events (publish (Stream.raises calm mild) "m-1" 1000 0 5 streamed)) ++
    [Invoke (foldr Stream.around (Stream.Listener 2) stages) 5 0 1000%Z "m-1"].
Proof.
  split; [exact streamed_reachable|]. split; [reflexivity|].
  split; [reflexivity|].
  destruct (X20_stream_subscription_is_a_topic_subscription calm mild
              streamed news _ stages (Stream.Listener 2)
              streamed_reachable eq_refl)
    as (Hout & _ & _ & Hcalls & _).
  split; [exact Hout | exact (Hcalls eq_refl "m-1" 1000%Z 5)].
Defined.
End MoreInstances.
